(** * Streamside: chunked recording pipeline

    A shallow embedding of the capture, upload and ingestion path of the
    Streamside web application, and the properties its design document
    states of it.

    - [JS]: the ECMAScript built-ins the code relies on ([parseInt],
      [isNaN], [Number.prototype.toString], [String.prototype.padStart],
      [Array.prototype.sort]).
    - [Minio]: lib/minio.ts ([initializeBucket], [uploadChunk],
      [listChunks], [deleteParticipantChunks]).
    - [Route]: app/api/upload-chunk/route.ts ([POST]), over the tables of
      the Prisma migration and the bucket.
    - [Recorder]: services/MediaRecorderService.ts. An async method is cut
      at its awaits: the part that runs at once and the part that runs
      when the awaited promise settles are separate steps of a small
      event loop.
    - [StudioCall]: the zustand store and the [recording-state] handler
      of app/studio/[studioId]/call/page.tsx.

    - [Socket]: lib/socket.ts, the rooms and the relayed events.
    - [LiveKit]: lib/livekit.ts and app/api/livekit-token/route.ts.

    The definitions come first and the properties follow: the names of the
    stored chunks and their order, the ingestion endpoint and its ledger,
    the recorder, the [recording-state] handler, the chunk indices; then
    what the endpoint writes, the listing and deletion of chunks, the
    key of a chunk, the recorder over whole schedules and on the page, a
    segment's way from the recorder to the bucket, the coordination
    channel, the token endpoint, and the ledger against the bucket. *)

From Stdlib Require Import ZArith NArith Ascii String List Bool Lia.
From Stdlib Require Import Strings.Byte Sorting.Sorted.
From stdpp Require Import base decidable option list sorting gmap strings.

Import ListNotations.
Local Open Scope string_scope.
Local Open Scope list_scope.
Local Open Scope Z_scope.

(** ** ECMAScript built-ins *)

Module JS.

(** A JavaScript string is modelled by a Rocq [string]; a character is a
    code unit below 256, which covers the identifiers (cuid, uuid) and
    the decimal renderings the application handles. *)

(** A Number holding an integer, or NaN. [Int z] is the Number of that
    value for the safe integers, those of magnitude at most 2^53 - 1
    (Number.MAX_SAFE_INTEGER): all of them are Numbers, none is the
    rounding of another integer and all are printed with all their
    digits. Past that a JavaScript Number rounds to 53 significant bits,
    prints in exponent notation from 10^21 and overflows to Infinity,
    none of which [Int] follows: the model keeps the exact integer. What
    is proved of the value of an index that the endpoint reads from a
    request is therefore stated for safe integers ([safeInteger] below). *)
Inductive number : Type :=
| NaN
| Int (z : Z).

Definition isNaN (x : number) : bool :=
  match x with NaN => true | Int _ => false end.

(** WhiteSpace and LineTerminator code units below 256: TAB, LF, VT, FF,
    CR, SP and NBSP. *)
Definition isWhiteSpace (c : ascii) : bool :=
  let n := N_of_ascii c in
  ((9 <=? n)%N && (n <=? 13)%N) || (n =? 32)%N || (n =? 160)%N.

Fixpoint trimStart (s : string) : string :=
  match s with
  | String c rest => if isWhiteSpace c then trimStart rest else s
  | EmptyString => EmptyString
  end.

(** Value of a character as a digit, for radix 10 or 16. *)
Definition digitValue (radix : N) (c : ascii) : option N :=
  let n := N_of_ascii c in
  let v :=
    if ((48 <=? n) && (n <=? 57))%N then Some (n - 48)%N
    else if ((97 <=? n) && (n <=? 122))%N then Some (n - 87)%N
    else if ((65 <=? n) && (n <=? 90))%N then Some (n - 55)%N
    else None in
  match v with
  | Some d => if (d <? radix)%N then Some d else None
  | None => None
  end.

(** The longest prefix of radix-[radix] digits, read as an integer;
    [acc] is [None] until a first digit has been seen. *)
Fixpoint parseDigits (radix : N) (s : string) (acc : option N) : option N :=
  match s with
  | String c rest =>
      match digitValue radix c with
      | Some d =>
          parseDigits radix rest
            (Some (match acc with Some a => a * radix + d | None => d end)%N)
      | None => acc
      end
  | EmptyString => acc
  end.

Definition stripSign (s : string) : bool * string :=
  match s with
  | String "-" rest => (true, rest)
  | String "+" rest => (false, rest)
  | _ => (false, s)
  end.

Definition stripHexPrefix (s : string) : N * string :=
  match s with
  | String "0" (String "x" rest) => (16%N, rest)
  | String "0" (String "X" rest) => (16%N, rest)
  | _ => (10%N, s)
  end.

(** [parseInt(string)] with no radix argument: leading white space is
    skipped, then an optional sign, then an optional [0x] prefix; the
    longest run of digits is read and whatever follows is ignored. No
    digit at all gives NaN. The integer read is returned as it is, which
    is what ECMAScript returns as long as it is a safe integer; a longer
    run of digits ECMAScript rounds to the nearest Number, and to
    Infinity from 2^1024 on. *)
Definition parseInt (input : string) : number :=
  let '(negative, s1) := stripSign (trimStart input) in
  let '(radix, s2) := stripHexPrefix s1 in
  match parseDigits radix s2 None with
  | None => NaN
  | Some m => Int (if negative then - Z.of_N m else Z.of_N m)
  end.

Definition digitChar (d : N) : ascii := ascii_of_N (48 + d).

(** Decimal digits of [n], most significant first, pushed in front of
    [acc]; [fuel] bounds the number of digits. *)
Fixpoint digitsOf (fuel : nat) (n : N) (acc : string) : string :=
  match fuel with
  | O => acc
  | S fuel' =>
      let acc' := String (digitChar (n mod 10)) acc in
      if (n / 10 =? 0)%N then acc' else digitsOf fuel' (n / 10) acc'
  end.

Definition decimal (n : N) : string :=
  digitsOf (S (N.to_nat (N.log2 n))) n EmptyString.

(** [BigInt.prototype.toString()], and [Number.prototype.toString()] on
    an integer-valued Number below 10^21, safe integers among them: an
    optional minus sign and all the decimal digits. (From 10^21 on a
    Number is printed in exponent notation.) *)
Definition Z_toString (z : Z) : string :=
  if z <? 0 then String "-" (decimal (Z.abs_N z)) else decimal (Z.to_N z).

Definition toString (x : number) : string :=
  match x with
  | NaN => "NaN"
  | Int z => Z_toString z
  end.

Fixpoint takeString (n : nat) (s : string) : string :=
  match n, s with
  | S n', String c rest => String c (takeString n' rest)
  | _, _ => EmptyString
  end.

Fixpoint repeatString (n : nat) (s : string) : string :=
  match n with
  | O => EmptyString
  | S n' => s +:+ repeatString n' s
  end.

(** [s.padStart(targetLength, padString)]. *)
Definition padStart (targetLength : nat) (padString : string) (s : string)
  : string :=
  let len := String.length s in
  if (targetLength <=? len)%nat then s
  else match padString with
       | EmptyString => s
       | _ =>
           let fillLen := (targetLength - len)%nat in
           takeString fillLen (repeatString fillLen padString) +:+ s
       end.

(** The order of the default [Array.prototype.sort]: strings compared
    code unit by code unit, a proper prefix first. *)
Definition lexLt (a b : string) : Prop := String.compare a b = Lt.

Definition lexLeb (a b : string) : bool := String.leb a b.

Fixpoint insertSorted (x : string) (l : list string) : list string :=
  match l with
  | [] => [x]
  | y :: l' => if lexLeb x y then x :: l else y :: insertSorted x l'
  end.

(** [array.sort()] on an array of strings. The algorithm is left to the
    engine; on a total order the result is the same for all of them. *)
Definition sort (l : list string) : list string :=
  foldr insertSorted [] l.

Fixpoint startsWith (p s : string) : bool :=
  match p, s with
  | EmptyString, _ => true
  | String c p', String d s' => if Ascii.eqb c d then startsWith p' s' else false
  | String _ _, EmptyString => false
  end.

End JS.

(** An awaited promise either resolves with a value or rejects with an
    error, here its message. *)
Inductive outcome (A : Type) : Type :=
| Resolved (a : A)
| Rejected (e : string).
Arguments Resolved {A} a.
Arguments Rejected {A} e.

(** A line the server code prints: [console.log] or [console.error]. *)
Inductive Console : Type :=
| Log (msg : string)
| Error (msg : string).

(** [process.env.X || fallback]: an unset or empty variable gives the
    fallback. *)
Definition orDefault (v : option string) (fallback : string) : string :=
  match v with
  | Some s => if String.eqb s "" then fallback else s
  | None => fallback
  end.

(** ** lib/minio.ts *)

Module Minio.

(** An object of the bucket [BUCKET_NAME]: the bytes given to
    [putObject] and the Content-Type metadata. *)
Record StoredObject : Type := mkObject {
  body : list byte;
  contentType : string
}.

(** [minioClient.putObject]: replaces whatever the name held before; the
    call rejects when the object store cannot be reached ([up] false). *)
Definition putObject (up : bool) (objectName : string) (buffer : list byte)
    (meta : string) (bucket : gmap string StoredObject)
  : outcome (gmap string StoredObject) :=
  if up then Resolved (<[objectName := mkObject buffer meta]> bucket)
  else Rejected "connect ECONNREFUSED".

(** The template literal of [uploadChunk]. *)
Definition objectName (studioId participantId : string)
    (chunkIndex : JS.number) : string :=
  studioId +:+ "/" +:+ participantId +:+ "/chunk-"
    +:+ JS.padStart 5 "0" (JS.toString chunkIndex) +:+ ".webm".

Definition uploadChunk (up : bool) (studioId participantId : string)
    (chunkIndex : JS.number) (buffer : list byte)
    (bucket : gmap string StoredObject)
  : outcome (gmap string StoredObject * string) :=
  let name := objectName studioId participantId chunkIndex in
  match putObject up name buffer "video/webm" bucket with
  | Resolved bucket' => Resolved (bucket', name)
  | Rejected e => Rejected e
  end.

(** [listChunks]: the names under the participant's prefix, sorted. *)
Definition listChunks (studioId participantId : string)
    (bucket : gmap string StoredObject) : list string :=
  let prefix := studioId +:+ "/" +:+ participantId +:+ "/" in
  JS.sort (filter (fun name => JS.startsWith prefix name = true)
                  (fst <$> map_to_list bucket)).

(** [BUCKET_NAME], from MINIO_BUCKET_NAME. *)
Definition BUCKET_NAME (env : option string) : string :=
  orDefault env "recordings".

(** The policy document [initializeBucket] builds; [Principal] holds the
    AWS principals. *)
Record PolicyStatement : Type := mkStatement {
  Effect : string;
  Principal : list string;
  Action : list string;
  Resource : list string
}.

Record BucketPolicy : Type := mkPolicy {
  Version : string;
  Statement : list PolicyStatement
}.

(** The bucket as the object store knows it, apart from its objects. *)
Record BucketInfo : Type := mkInfo {
  region : string;
  policy : option BucketPolicy
}.

(** Which of the three calls of [initializeBucket] the object store
    refuses. *)
Record Faults : Type := mkFaults {
  bucketExistsFails : bool;
  makeBucketFails : bool;
  setBucketPolicyFails : bool
}.

Definition publicRead (bucketName : string) : BucketPolicy :=
  mkPolicy "2012-10-17"
    [mkStatement "Allow" ["*"] ["s3:GetObject"]
       ["arn:aws:s3:::" +:+ bucketName +:+ "/*"]].

(** [initializeBucket]; the state is the bucket's entry in the object
    store, [None] while it does not exist. *)
Definition initializeBucket (f : Faults) (bucketName : string)
    (b : option BucketInfo)
  : option BucketInfo * list Console * outcome unit :=
  let failed := Error "Error initializing MinIO bucket" in
  if bucketExistsFails f then (b, [failed], Rejected "connect ECONNREFUSED")
  else
    match b with
    | Some _ => (b, [], Resolved tt)
    | None =>
        if makeBucketFails f then (None, [failed], Rejected "makeBucket")
        else
          let created := Log ("Created MinIO bucket: " +:+ bucketName) in
          if setBucketPolicyFails f then
            (Some (mkInfo "us-east-1" None), [created; failed],
             Rejected "setBucketPolicy")
          else
            (Some (mkInfo "us-east-1" (Some (publicRead bucketName))),
             [created], Resolved tt)
    end.

(** [minioClient.removeObjects]: the named objects are removed one after
    the other; [failsAfter] is [Some k] when the call rejects with [k]
    objects removed. *)
Definition removeObjects (failsAfter : option nat) (names : list string)
    (bucket : gmap string StoredObject)
  : gmap string StoredObject * outcome unit :=
  match failsAfter with
  | None => (foldr delete bucket names, Resolved tt)
  | Some k => (foldr delete bucket (take k names), Rejected "removeObjects")
  end.

(** [listChunks] as the promise it returns: the listing stream ends, or
    it reports an error ([up] false). *)
Definition listChunksSettled (up : bool) (studioId participantId : string)
    (bucket : gmap string StoredObject)
  : list Console * outcome (list string) :=
  if up then ([], Resolved (listChunks studioId participantId bucket))
  else ([Error "Error listing chunks"], Rejected "connect ECONNREFUSED").

(** [deleteParticipantChunks]. *)
Definition deleteParticipantChunks (listUp : bool) (failsAfter : option nat)
    (studioId participantId : string) (bucket : gmap string StoredObject)
  : gmap string StoredObject * list Console * outcome unit :=
  let failed := Error "Error deleting participant chunks" in
  match listChunksSettled listUp studioId participantId bucket with
  | (logs, Rejected e) => (bucket, logs ++ [failed], Rejected e)
  | (logs, Resolved chunks) =>
      if (0 <? length chunks)%nat then
        match removeObjects failsAfter chunks bucket with
        | (bucket', Resolved _) =>
            (bucket',
             logs ++ [Log ("Deleted " +:+ JS.Z_toString (Z.of_nat (length chunks))
                             +:+ " chunks for participant " +:+ participantId)],
             Resolved tt)
        | (bucket', Rejected e) => (bucket', logs ++ [failed], Rejected e)
        end
      else (bucket, logs, Resolved tt)
  end.

End Minio.

(** ** app/api/upload-chunk/route.ts *)

Module Route.

(** The [user] of a better-auth session ([name] is a nullable column). *)
Record User : Type := mkUser {
  user_id : string;
  user_name : option string
}.

(** A multipart entry is a string or a file. *)
Inductive FormDataEntryValue : Type :=
| FString (s : string)
| FFile (content : list byte).

(** [formData.get(name)]: the first entry of that name, or null. *)
Fixpoint get (name : string) (fd : list (string * FormDataEntryValue))
  : option FormDataEntryValue :=
  match fd with
  | [] => None
  | (k, v) :: rest => if String.eqb k name then Some v else get name rest
  end.

(** The request as the handler sees it: what [auth.api.getSession]
    answers for its headers, and its multipart body ([None] when
    [req.formData()] rejects). *)
Record NextRequest : Type := mkRequest {
  session : option User;
  formData : option (list (string * FormDataEntryValue))
}.

Inductive RecordingStatus : Type :=
| uploading
| processing
| completed
| failed.

(** A row of the Recording table. *)
Record Recording : Type := mkRecording {
  id : string;
  studioId : string;
  participantId : string;
  participantName : string;
  fileUrl : option string;
  duration : option Z;
  size : Z;
  status : RecordingStatus;
  createdAt : Z;
  updatedAt : Z
}.

(** Everything the handler reads and writes: the Studio and User tables
    by primary key, the Recording table by its unique
    (studioId, participantId) index, and the bucket. *)
Record Server : Type := mkServer {
  studios : gset string;
  users : gset string;
  recordings : gmap (string * string) Recording;
  bucket : gmap string Minio.StoredObject
}.

(** What the surroundings supply to one request: the clock, the id the
    client library generates for a new row, and whether the object store
    answers. *)
Record Env : Type := mkEnv {
  now : Z;
  newId : string;
  minioUp : bool
}.

Inductive ResponseBody : Type :=
| ErrorBody (error : string)
| SuccessBody (chunkIndex : JS.number) (objectName : string)
    (recordingId : string) (totalSize : string).

Record NextResponse : Type := json {
  body : ResponseBody;
  responseStatus : nat
}.

(** The largest value of a BIGINT column. *)
Definition BIGINT_MAX : Z := 2 ^ 63 - 1.

(** [!value] on what [formData.get] returned: null and the empty string
    are falsy, a file never is. *)
Definition falsy (v : option FormDataEntryValue) : bool :=
  match v with
  | None => true
  | Some (FString s) => if String.eqb s "" then true else false
  | Some (FFile _) => false
  end.

(** ToString, as [parseInt] and template literals apply it. *)
Definition ToString (v : option FormDataEntryValue) : string :=
  match v with
  | None => "null"
  | Some (FString s) => s
  | Some (FFile _) => "[object File]"
  end.

(** [session.user.name || 'Anonymous']. *)
Definition nameOrAnonymous (u : User) : string :=
  match user_name u with
  | Some n => if String.eqb n "" then "Anonymous" else n
  | None => "Anonymous"
  end.

(** [prisma.recording.upsert]: the row of the pair is updated in place
    (size incremented in the database, [updatedAt] refreshed) or created.
    The statement fails when the new size leaves the BIGINT range, and a
    new row needs its studio and its participant to exist (the foreign
    keys Recording_studioId_fkey and Recording_participantId_fkey). *)
Definition upsert (env : Env) (sid pid : string) (name : string)
    (objectName : string) (len : Z) (st : Server)
  : outcome (Server * Recording) :=
  match recordings st !! (sid, pid) with
  | Some r =>
      if size r + len <=? BIGINT_MAX then
        let r' := mkRecording (id r) (studioId r) (participantId r)
                    (participantName r) (fileUrl r) (duration r)
                    (size r + len) (status r) (createdAt r) (now env) in
        Resolved (mkServer (studios st) (users st)
                    (<[(sid, pid) := r']> (recordings st)) (bucket st), r')
      else Rejected "Value out of range for the type"
  | None =>
      if bool_decide (sid ∈ studios st) && bool_decide (pid ∈ users st) then
        if len <=? BIGINT_MAX then
          let r := mkRecording (newId env) sid pid name (Some objectName)
                     None len uploading (now env) (now env) in
          Resolved (mkServer (studios st) (users st)
                      (<[(sid, pid) := r]> (recordings st)) (bucket st), r)
        else Rejected "Value out of range for the type"
      else Rejected "Foreign key constraint violated"
  end.

Definition json500 : NextResponse :=
  json (ErrorBody "Failed to upload chunk") 500.

(** The handler. Every exception is caught by the outer [try] and
    answered with 500; what was written before it stays written. *)
Definition POST (env : Env) (req : NextRequest) (st : Server)
  : Server * NextResponse :=
  match session req with
  | None => (st, json (ErrorBody "Unauthorized") 401)
  | Some user =>
    match formData req with
    | None => (st, json500)
    | Some fd =>
      let chunk := get "chunk" fd in
      let studioId := get "studioId" fd in
      let participantId := get "participantId" fd in
      let chunkIndex := JS.parseInt (ToString (get "chunkIndex" fd)) in
      if falsy chunk || falsy studioId || falsy participantId
         || JS.isNaN chunkIndex
      then (st, json (ErrorBody
             "Missing required fields: chunk, studioId, participantId, chunkIndex")
             400)
      else
        match studioId with
        | Some (FString sid) =>
          if bool_decide (sid ∈ studios st) then
            match chunk with
            | Some (FFile buffer) =>
              match Minio.uploadChunk (minioUp env) sid
                      (ToString participantId) chunkIndex buffer (bucket st)
              with
              | Resolved (bucket', objectName) =>
                let st1 := mkServer (studios st) (users st)
                             (recordings st) bucket' in
                match participantId with
                | Some (FString pid) =>
                  match upsert env sid pid (nameOrAnonymous user)
                          objectName (Z.of_nat (length buffer)) st1
                  with
                  | Resolved (st2, recording) =>
                    (st2, json (SuccessBody chunkIndex objectName
                                  (id recording)
                                  (JS.Z_toString (size recording))) 200)
                  | Rejected _ => (st1, json500)
                  end
                | _ => (st1, json500)
                end
              | Rejected _ => (st, json500)
              end
            | _ => (st, json500)
            end
          else (st, json (ErrorBody "Studio not found") 404)
        | _ => (st, json500)
        end
    end
  end.

End Route.

(** ** services/MediaRecorderService.ts *)

Module Recorder.

(** The constraints [initializeStream] asks of [getUserMedia]. *)
Record MediaStreamConstraints : Type := mkConstraints {
  videoWidth : N;
  videoHeight : N;
  frameRate : N;
  sampleRate : N;
  channelCount : N;
  echoCancellation : bool;
  noiseSuppression : bool;
  autoGainControl : bool
}.

Definition highQuality : MediaStreamConstraints :=
  mkConstraints 3840 2160 60 48000 2 false false false.

(** A stream is a handle given out by the browser. *)
Record MediaStream : Type := mkStream { streamId : nat }.

(** What the browser decides: [MediaRecorder.isTypeSupported], and the
    answer [navigator.mediaDevices.getUserMedia] gives when it is awaited
    with nothing else happening meanwhile. *)
Record Browser : Type := mkBrowser {
  getUserMedia : MediaStreamConstraints -> outcome MediaStream;
  isTypeSupported : string -> bool
}.

Inductive RecordingState : Type :=
| inactive
| recording
| paused.

Record MediaRecorderOptions : Type := mkOptions {
  mimeType : string;
  videoBitsPerSecond : N;
  audioBitsPerSecond : N
}.

Record MediaRecorder : Type := mkRecorder {
  stream : MediaStream;
  options : MediaRecorderOptions;
  state : RecordingState;
  timeslice : option N
}.

(** [new MediaRecorder(stream, options)] throws NotSupportedError for a
    MIME type the browser cannot record. *)
Definition newMediaRecorder (b : Browser) (s : MediaStream)
    (o : MediaRecorderOptions) : outcome MediaRecorder :=
  if isTypeSupported b (mimeType o) then Resolved (mkRecorder s o inactive None)
  else Rejected "NotSupportedError".

(** [recorder.start(timeslice)] throws InvalidStateError unless the
    recorder is inactive. *)
Definition start (ts : N) (r : MediaRecorder) : outcome MediaRecorder :=
  match state r with
  | inactive => Resolved (mkRecorder (stream r) (options r) recording (Some ts))
  | _ => Rejected "InvalidStateError"
  end.

(** [recorder.stop()]: nothing happens on an inactive recorder; otherwise
    the recorder becomes inactive and the browser queues a last
    [dataavailable] followed by [stop] (the boolean). *)
Definition stop (r : MediaRecorder) : MediaRecorder * bool :=
  match state r with
  | inactive => (r, false)
  | _ => (mkRecorder (stream r) (options r) inactive (timeslice r), true)
  end.

(** The fields of the class; the two callbacks are recorded by whether
    the constructor received them. *)
Record Service : Type := mkService {
  mediaRecorder : option MediaRecorder;
  localStream : option MediaStream;
  chunkIndex : Z;
  studioId : string;
  participantId : string;
  isRecording : bool;
  onChunkUploaded : bool;
  onError : bool
}.

(** [new MediaRecorderService(studioId, participantId, callbacks)]. *)
Definition new (studioId participantId : string)
    (onChunkUploaded onError : bool) : Service :=
  mkService None None 0 studioId participantId false onChunkUploaded onError.

(** What a method does to the outside, in order. [RecorderStarted] is a
    recorder beginning to capture, [QueueStop] a recorder told to stop
    while it was capturing. *)
Inductive Effect : Type :=
| ConsoleLog (msg : string)
| ConsoleWarn (msg : string)
| ConsoleError (msg : string)
| CallOnChunkUploaded (chunkIndex : Z)
| CallOnError (e : string)
| GetUserMedia (c : MediaStreamConstraints)
| RecorderStarted (r : MediaRecorder)
| QueueStop
| Fetch (url : string) (form : list (string * Route.FormDataEntryValue))
| StopTracks (s : MediaStream).

(** [this.onError?.(err)]. *)
Definition callOnError (s : Service) (e : string) : list Effect :=
  if onError s then [CallOnError e] else [].

(** [this.onChunkUploaded?.(chunkIndex)]. *)
Definition callOnChunkUploaded (s : Service) (i : Z) : list Effect :=
  if onChunkUploaded s then [CallOnChunkUploaded i] else [].

Definition setStream (s : Service) (m : option MediaStream) : Service :=
  mkService (mediaRecorder s) m (chunkIndex s) (studioId s)
    (participantId s) (isRecording s) (onChunkUploaded s) (onError s).

Definition setRecorder (s : Service) (r : option MediaRecorder) : Service :=
  mkService r (localStream s) (chunkIndex s) (studioId s)
    (participantId s) (isRecording s) (onChunkUploaded s) (onError s).

Definition setIsRecording (s : Service) (v : bool) : Service :=
  mkService (mediaRecorder s) (localStream s) (chunkIndex s) (studioId s)
    (participantId s) v (onChunkUploaded s) (onError s).

Definition setChunkIndex (s : Service) (i : Z) : Service :=
  mkService (mediaRecorder s) (localStream s) i (studioId s)
    (participantId s) (isRecording s) (onChunkUploaded s) (onError s).

(** [initializeStream], from the answer of [getUserMedia] on; the request
    itself is the effect [GetUserMedia highQuality]. *)
Definition initializeStream (answer : outcome MediaStream) (s : Service)
  : Service * list Effect * outcome MediaStream :=
  match answer with
  | Resolved m => (setStream s (Some m), [], Resolved m)
  | Rejected e =>
      (s, ConsoleError "Failed to initialize high-quality stream"
            :: callOnError s e, Rejected e)
  end.

Definition vp9 : string := "video/webm;codecs=vp9,opus".
Definition vp8 : string := "video/webm;codecs=vp8,opus".

(** The options [startRecording] builds: VP9, or VP8 when the browser does
    not record VP9. *)
Definition recorderOptions (b : Browser) : MediaRecorderOptions :=
  mkOptions (if isTypeSupported b vp9 then vp9 else vp8) 8000000 256000.

(** [startRecording] from its second look at [this.localStream] on: the
    recorder is built, its handlers are set, it is started and the flag is
    raised; an exception in between is reported and thrown again. *)
Definition startRecordingWithStream (b : Browser) (ts : N) (s : Service)
  : Service * list Effect * outcome unit :=
  match localStream s with
  | None => (s, [], Rejected "Failed to initialize media stream")
  | Some m =>
    match newMediaRecorder b m (recorderOptions b) with
    | Rejected e =>
        (s, ConsoleError "Failed to start recording" :: callOnError s e,
         Rejected e)
    | Resolved r =>
      let s1 := setRecorder s (Some r) in
      match start ts r with
      | Rejected e =>
          (s1, ConsoleError "Failed to start recording" :: callOnError s1 e,
           Rejected e)
      | Resolved r' =>
          (setIsRecording (setRecorder s1 (Some r')) true,
           [RecorderStarted r'; ConsoleLog "Started recording"], Resolved tt)
      end
    end
  end.

(** [startRecording(timeslice = 10000)] up to its [await]: [Some] when the
    call runs to its end at once (already recording, or the stream is
    there), [None] when it has asked for the stream and waits. *)
Definition startRecordingBegin (b : Browser) (ts : option N) (s : Service)
  : option (Service * list Effect * outcome unit) :=
  if isRecording s then
    Some (s, [ConsoleWarn "Recording already in progress"], Resolved tt)
  else
    match localStream s with
    | Some _ => Some (startRecordingWithStream b (default 10000%N ts) s)
    | None => None
    end.

(** [startRecording] from the answer of [getUserMedia] on. The flag
    [isRecording] is not looked at again. *)
Definition startRecordingResume (b : Browser) (ts : N)
    (answer : outcome MediaStream) (s : Service)
  : Service * list Effect * outcome unit :=
  match initializeStream answer s with
  | (s1, effs1, Rejected e) => (s1, effs1, Rejected e)
  | (s1, effs1, Resolved _) =>
      let '(s2, effs2, res) := startRecordingWithStream b ts s1 in
      (s2, effs1 ++ effs2, res)
  end.

(** [startRecording] awaited to its end with nothing else happening
    meanwhile, the browser answering the request for the stream. *)
Definition startRecording (b : Browser) (ts : option N) (s : Service)
  : Service * list Effect * outcome unit :=
  match startRecordingBegin b ts s with
  | Some res => res
  | None =>
      let '(s1, effs, res) :=
        startRecordingResume b (default 10000%N ts)
          (getUserMedia b highQuality) s in
      (s1, GetUserMedia highQuality :: effs, res)
  end.

Definition stopRecording (s : Service) : Service * list Effect :=
  match isRecording s, mediaRecorder s with
  | true, Some r =>
      let '(r', queued) := stop r in
      (setRecorder s (Some r'),
       (if queued then [QueueStop] else [])
         ++ [ConsoleLog "Stopping recording..."])
  | _, _ => (s, [ConsoleWarn "No active recording to stop"])
  end.

(** The body of the request [uploadChunk] sends. *)
Definition uploadForm (s : Service) (blob : list byte) (chunkIndex : Z)
  : list (string * Route.FormDataEntryValue) :=
  [ ("chunk", Route.FFile blob);
    ("studioId", Route.FString (studioId s));
    ("participantId", Route.FString (participantId s));
    ("chunkIndex", Route.FString (JS.Z_toString chunkIndex)) ].

(** How the [fetch] of [uploadChunk] ends: it rejects, or it answers with
    [response.ok] and a body whose [error] field may be set
    ([None] when [response.json()] rejects). *)
Inductive FetchResult : Type :=
| NetworkError (e : string)
| HttpResponse (ok : bool) (jsonBody : option (option string)).

(** [uploadChunk] after its [fetch]: resolves only for an ok response
    whose body parses. Nothing of the service is read or written between
    its two awaits, which are taken together. *)
Definition uploadChunkSettle (chunkIndex : Z) (r : FetchResult)
  : list Effect * outcome unit :=
  match r with
  | NetworkError e => ([], Rejected e)
  | HttpResponse false (Some (Some e)) =>
      ([], Rejected (if String.eqb e "" then "Failed to upload chunk" else e))
  | HttpResponse false (Some None) => ([], Rejected "Failed to upload chunk")
  | HttpResponse _ None => ([], Rejected "SyntaxError")
  | HttpResponse true (Some _) =>
      ([ConsoleLog ("Chunk " +:+ JS.Z_toString chunkIndex
                      +:+ " uploaded successfully")], Resolved tt)
  end.

(** An upload that has been sent and not answered yet, with the arguments
    [uploadChunk] was called with. *)
Record Pending : Type := mkPending {
  pendingBlob : list byte;
  pendingIndex : Z
}.

(** [ondataavailable], up to its [await]: a non-empty blob is sent with
    the current [chunkIndex]. *)
Definition ondataavailable (data : option (list byte)) (s : Service)
  : list Effect * option Pending :=
  match data with
  | Some blob =>
      if (0 <? length blob)%nat then
        ([ConsoleLog ("Chunk " +:+ JS.Z_toString (chunkIndex s) +:+ " available");
          Fetch "/api/upload-chunk" (uploadForm s blob (chunkIndex s))],
         Some (mkPending blob (chunkIndex s)))
      else ([], None)
  | None => ([], None)
  end.

(** [ondataavailable] from its [await] on: the callback and the increment
    read [this.chunkIndex] as it is by then. *)
Definition ondataavailableResume (p : Pending) (r : FetchResult) (s : Service)
  : Service * list Effect :=
  match uploadChunkSettle (pendingIndex p) r with
  | (effs, Resolved _) =>
      (setChunkIndex s (chunkIndex s + 1),
       effs ++ callOnChunkUploaded s (chunkIndex s))
  | (effs, Rejected e) =>
      (s, effs ++ ConsoleError ("Failed to upload chunk "
                                  +:+ JS.Z_toString (chunkIndex s))
               :: callOnError s e)
  end.

Definition onerror (e : string) (s : Service) : Service * list Effect :=
  let err := "MediaRecorder error: " +:+ e in
  (s, ConsoleError "MediaRecorder error" :: callOnError s err).

Definition onstop (s : Service) : Service * list Effect :=
  (setIsRecording s false, [ConsoleLog "MediaRecorder stopped"]).

Definition cleanup (s : Service) : Service * list Effect :=
  let effs1 :=
    match mediaRecorder s with
    | Some r => if isRecording s && snd (stop r) then [QueueStop] else []
    | None => []
    end in
  let effs2 :=
    match localStream s with
    | Some m => [StopTracks m]
    | None => []
    end in
  (mkService None None 0 (studioId s) (participantId s) false
     (onChunkUploaded s) (onError s), effs1 ++ effs2).


(** *** The tasks of one service

    JavaScript runs one task at a time, and an [await] on a pending
    promise ends the task: the rest of the function is a later task.
    [startRecording] awaits the stream and [ondataavailable] awaits the
    upload, so calls and browser events may arrive while they wait. The
    runtime keeps the service with the continuations that wait: the
    uploads sent ([inflight]) and the [startRecording] calls waiting for
    their stream, each with its timeslice ([acquiring]). *)

Record Runtime : Type := mkRuntime {
  service : Service;
  inflight : list Pending;
  acquiring : list N
}.

Inductive Task : Type :=
| CallStartRecording (ts : option N)
| StreamSettled (k : nat) (answer : outcome MediaStream)
| CallStopRecording
| CallCleanup
| DataAvailable (data : option (list byte))
| FetchSettled (k : nat) (r : FetchResult)
| RecorderStop
| RecorderError (e : string).

(** One task. [StreamSettled k] and [FetchSettled k] resume the [k]-th
    waiting continuation of their kind; there is nothing to do when there
    is none. *)
Definition step (b : Browser) (t : Task) (rt : Runtime)
  : Runtime * list Effect :=
  match t with
  | CallStartRecording ts =>
      match startRecordingBegin b ts (service rt) with
      | Some (s, effs, _) => (mkRuntime s (inflight rt) (acquiring rt), effs)
      | None =>
          (mkRuntime (service rt) (inflight rt)
             (acquiring rt ++ [default 10000%N ts]),
           [GetUserMedia highQuality])
      end
  | StreamSettled k answer =>
      match acquiring rt !! k with
      | Some ts =>
          let '(s, effs, _) := startRecordingResume b ts answer (service rt) in
          (mkRuntime s (inflight rt) (delete k (acquiring rt)), effs)
      | None => (rt, [])
      end
  | CallStopRecording =>
      let '(s, effs) := stopRecording (service rt) in
      (mkRuntime s (inflight rt) (acquiring rt), effs)
  | CallCleanup =>
      let '(s, effs) := cleanup (service rt) in
      (mkRuntime s (inflight rt) (acquiring rt), effs)
  | DataAvailable data =>
      match ondataavailable data (service rt) with
      | (effs, Some p) =>
          (mkRuntime (service rt) (inflight rt ++ [p]) (acquiring rt), effs)
      | (effs, None) => (rt, effs)
      end
  | FetchSettled k r =>
      match inflight rt !! k with
      | Some p =>
          let '(s, effs) := ondataavailableResume p r (service rt) in
          (mkRuntime s (delete k (inflight rt)) (acquiring rt), effs)
      | None => (rt, [])
      end
  | RecorderStop =>
      let '(s, effs) := onstop (service rt) in
      (mkRuntime s (inflight rt) (acquiring rt), effs)
  | RecorderError e =>
      let '(s, effs) := onerror e (service rt) in
      (mkRuntime s (inflight rt) (acquiring rt), effs)
  end.

Fixpoint run (b : Browser) (ts : list Task) (rt : Runtime)
  : Runtime * list Effect :=
  match ts with
  | [] => (rt, [])
  | t :: ts' =>
      let '(rt1, effs1) := step b t rt in
      let '(rt2, effs2) := run b ts' rt1 in
      (rt2, effs1 ++ effs2)
  end.

(** The [chunkIndex] fields of the requests sent, in order. *)
Definition sentIndices (effs : list Effect) : list string :=
  omap (fun e =>
          match e with
          | Fetch _ form => Some (Route.ToString (Route.get "chunkIndex" form))
          | _ => None
          end) effs.

(** The indices the success callback was called with, in order. *)
Definition reportedIndices (effs : list Effect) : list Z :=
  omap (fun e =>
          match e with
          | CallOnChunkUploaded i => Some i
          | _ => None
          end) effs.

(** The recorders that began to capture, in order. *)
Definition startedRecorders (effs : list Effect) : list MediaRecorder :=
  omap (fun e =>
          match e with
          | RecorderStarted r => Some r
          | _ => None
          end) effs.

End Recorder.

(** ** lib/livekit.ts and app/api/livekit-token/route.ts *)

Module LiveKit.

(** A value inside the parsed body. Of a number only whether it is zero
    matters below, the integers stand for them; what an array or an
    object holds is not looked at. *)
Inductive JSON : Type :=
| JNull
| JBool (b : bool)
| JNumber (n : Z)
| JString (s : string)
| JArray
| JObject.

(** What [req.json()] resolves with: [null], an object with its entries
    in the order of the text, or something else (a string, a number, a
    boolean, an array). *)
Inductive Body : Type :=
| BodyNull
| BodyObject (fields : list (string * JSON))
| BodyOther.

(** A JavaScript value read out of the body: [None] is [undefined]. *)
Definition truthy (v : option JSON) : bool :=
  match v with
  | None => false
  | Some JNull => false
  | Some (JBool b) => b
  | Some (JNumber n) => negb (n =? 0)
  | Some (JString s) => negb (String.eqb s "")
  | Some JArray => true
  | Some JObject => true
  end.

(** A field of an object as [JSON.parse] leaves it: the last of the
    entries with that key. *)
Fixpoint field (name : string) (fields : list (string * JSON)) : option JSON :=
  match fields with
  | [] => None
  | (k, v) :: rest =>
      match field name rest with
      | Some later => Some later
      | None => if String.eqb k name then Some v else None
      end
  end.

(** [body.name] in the destructuring of the handler: reading a property
    of [null] throws ([None]); a value that is not an object has none of
    the properties asked for. *)
Definition property (name : string) (body : Body) : option (option JSON) :=
  match body with
  | BodyNull => None
  | BodyObject fields => Some (field name fields)
  | BodyOther => Some None
  end.

Record Env : Type := mkEnv {
  env_LIVEKIT_API_KEY : option string;
  env_LIVEKIT_API_SECRET : option string;
  env_NEXT_PUBLIC_LIVEKIT_WS_URL : option string
}.

Definition LIVEKIT_API_KEY (env : Env) : string :=
  orDefault (env_LIVEKIT_API_KEY env) "devkey".

Definition LIVEKIT_API_SECRET (env : Env) : string :=
  orDefault (env_LIVEKIT_API_SECRET env) "secret".

Record VideoGrant : Type := mkGrant {
  room : option JSON;
  roomJoin : bool;
  canPublish : bool;
  canSubscribe : bool;
  canPublishData : bool
}.

(** The access token, by what it is signed with and what it states; the
    JWT text [toJwt] makes of it is not modelled. *)
Record AccessToken : Type := mkToken {
  apiKey : string;
  apiSecret : string;
  identity : option JSON;
  name : option JSON;
  video : option VideoGrant
}.

Definition addGrant (g : VideoGrant) (at_ : AccessToken) : AccessToken :=
  mkToken (apiKey at_) (apiSecret at_) (identity at_) (name at_) (Some g).

(** [generateLiveKitToken]. *)
Definition generateLiveKitToken (env : Env)
    (roomName participantIdentity participantName : option JSON)
  : AccessToken :=
  addGrant (mkGrant roomName true true true true)
    (mkToken (LIVEKIT_API_KEY env) (LIVEKIT_API_SECRET env)
       participantIdentity participantName None).

(** [validateLiveKitConfig]. *)
Definition validateLiveKitConfig (env : Env) : bool * list Console :=
  if String.eqb (LIVEKIT_API_KEY env) ""
     || String.eqb (LIVEKIT_API_SECRET env) ""
  then (false, [Error "LiveKit API key or secret not configured"])
  else (true, []).

Inductive ResponseBody : Type :=
| ErrorBody (error : string)
| TokenBody (token : AccessToken) (wsUrl : string).

Record NextResponse : Type := json {
  body : ResponseBody;
  responseStatus : nat
}.

(** The request as the handler sees it: the session's user, and the body
    [req.json()] resolves with ([None] when it rejects). *)
Record NextRequest : Type := mkRequest {
  session : option Route.User;
  jsonBody : option Body
}.

Definition json500 : NextResponse :=
  json (ErrorBody "Failed to generate token") 500.

(** [a || b] on values read out of the body. *)
Definition orElse (a b : option JSON) : option JSON :=
  if truthy a then a else b.

(** The handler [POST]. *)
Definition POST (env : Env) (req : NextRequest) : NextResponse :=
  match session req with
  | None => json (ErrorBody "Unauthorized") 401
  | Some user =>
    match jsonBody req with
    | None => json500
    | Some body =>
      match property "roomName" body, property "participantIdentity" body,
            property "participantName" body with
      | Some roomName, Some participantIdentity, Some participantName =>
          if negb (truthy roomName) || negb (truthy participantIdentity)
          then json (ErrorBody "roomName and participantIdentity are required")
                 400
          else
            let token :=
              generateLiveKitToken env roomName participantIdentity
                (orElse participantName
                   (orElse (JString <$> Route.user_name user)
                      (Some (JString "Anonymous")))) in
            json (TokenBody token
                    (orDefault (env_NEXT_PUBLIC_LIVEKIT_WS_URL env)
                       "ws://localhost:7880")) 200
      | _, _, _ => json500
      end
    end
  end.

End LiveKit.

(** ** lib/socket.ts *)

Module Socket.

(** The events the server sends to a client. *)
Inductive ServerToClient : Type :=
| ParticipantJoined (socketId timestamp : string)
| ParticipantLeft (socketId timestamp : string)
| RecordingState (isRecording : bool) (timestamp : string)
| ChunkUploaded (participantId : string) (chunkIndex : Z).

(** The events a client sends to the server, and [disconnect], which the
    library raises when the connection ends. *)
Inductive ClientToServer : Type :=
| JoinStudio (studioId : string)
| LeaveStudio (studioId : string)
| EmitRecordingState (studioId : string) (isRecording : bool)
| EmitChunkUploaded (studioId participantId : string) (chunkIndex : Z)
| Disconnect.

(** The Socket.io server [io]: its rooms, each with the ids of the
    sockets in it. The library puts a socket in the room named by its own
    id when it connects and takes it out of every room when it
    disconnects; with the Redis adapter the rooms span the server
    instances. *)
Record SocketIOServer : Type := mkIO {
  rooms : gmap string (gset string)
}.

Definition members (io : SocketIOServer) (room : string) : gset string :=
  default ∅ (rooms io !! room).

(** [socket.join(room)] and [socket.leave(room)]. *)
Definition join (socket room : string) (io : SocketIOServer) : SocketIOServer :=
  mkIO (<[room := {[socket]} ∪ members io room]> (rooms io)).

Definition leave (socket room : string) (io : SocketIOServer) : SocketIOServer :=
  mkIO (alter (fun sockets => sockets ∖ {[socket]}) room (rooms io)).

(** [io.to(room).emit(ev)] sends to the sockets in [to]; a delivery is
    the receiving socket with the event. *)
Definition emit (to : gset string) (ev : ServerToClient)
  : list (string * ServerToClient) :=
  (fun socket => (socket, ev)) <$> elements to.

(** [socket.to(room)]: the room without the socket itself. *)
Definition others (socket room : string) (io : SocketIOServer) : gset string :=
  members io room ∖ {[socket]}.

(** The [connection] handler. *)
Definition connection (socket : string) (io : SocketIOServer)
  : SocketIOServer * list Console :=
  (join socket socket io, [Log ("Socket connected: " +:+ socket)]).

(** The handlers of one socket; [now] is [new Date().toISOString()]. *)
Definition on (now : string) (socket : string) (ev : ClientToServer)
    (io : SocketIOServer)
  : SocketIOServer * list (string * ServerToClient) * list Console :=
  match ev with
  | JoinStudio studioId =>
      let io' := join socket studioId io in
      (io', emit (others socket studioId io') (ParticipantJoined socket now),
       [Log ("Socket " +:+ socket +:+ " joining studio: " +:+ studioId)])
  | LeaveStudio studioId =>
      let io' := leave socket studioId io in
      (io', emit (others socket studioId io') (ParticipantLeft socket now),
       [Log ("Socket " +:+ socket +:+ " leaving studio: " +:+ studioId)])
  | EmitRecordingState studioId isRecording =>
      (io, emit (members io studioId) (RecordingState isRecording now),
       [Log ("Recording state changed in studio " +:+ studioId +:+ ": "
               +:+ (if isRecording then "true" else "false"))])
  | EmitChunkUploaded studioId participantId chunkIndex =>
      (io, emit (others socket studioId io)
             (ChunkUploaded participantId chunkIndex),
       [Log ("Chunk " +:+ JS.Z_toString chunkIndex
               +:+ " uploaded for participant " +:+ participantId
               +:+ " in studio " +:+ studioId)])
  | Disconnect =>
      (mkIO ((fun sockets => sockets ∖ {[socket]}) <$> rooms io), [],
       [Log ("Socket disconnected: " +:+ socket)])
  end.

(** The server handling events in order, each with its time and its
    socket; the deliveries are collected. *)
Fixpoint run (evs : list (string * string * ClientToServer))
    (io : SocketIOServer)
  : SocketIOServer * list (string * ServerToClient) :=
  match evs with
  | [] => (io, [])
  | (now, socket, ev) :: rest =>
      let '(io1, sent1, _) := on now socket ev io in
      let '(io2, sent2) := run rest io1 in
      (io2, sent1 ++ sent2)
  end.

(** [initializeSocketServer]: the module keeps one server and hands it
    out again; the handlers above are registered when it is made. *)
Definition initializeSocketServer (io : option SocketIOServer)
  : option SocketIOServer * SocketIOServer * list Console :=
  match io with
  | Some existing => (io, existing, [])
  | None =>
      (Some (mkIO ∅), mkIO ∅,
       [Log "Socket.io server initialized with Redis adapter"])
  end.

Definition getSocketServer (io : option SocketIOServer)
  : option SocketIOServer := io.

End Socket.

(** ** store/studio-store.ts and app/studio/[studioId]/call/page.tsx *)

Module StudioCall.

(** The fields of the zustand store the call page uses. *)
Record StudioState : Type := mkStudioState {
  isRecording : bool;
  chunksUploaded : nat;
  studioId : option string;
  participantId : option string
}.

Definition setIsRecording (v : bool) (st : StudioState) : StudioState :=
  mkStudioState v (chunksUploaded st) (studioId st) (participantId st).

Definition incrementChunksUploaded (st : StudioState) : StudioState :=
  mkStudioState (isRecording st) (S (chunksUploaded st)) (studioId st)
    (participantId st).

(** The store, and [mediaRecorderService.current] with the continuations
    waiting on it ([None] while the ref is null). *)
Record Client : Type := mkClient {
  store : StudioState;
  mediaRecorderService : option Recorder.Runtime
}.

(** The end of [startLocalRecording], once [startRecording] has settled. *)
Definition startLocalRecordingEnd (res : outcome unit) : list Recorder.Effect :=
  match res with
  | Resolved _ => [Recorder.ConsoleLog "Local recording started"]
  | Rejected _ => [Recorder.ConsoleError "Failed to start local recording"]
  end.

(** [startLocalRecording], up to the point where [startRecording] waits
    for its stream. The handler does not await it. *)
Definition startLocalRecording (b : Recorder.Browser) (c : Client)
  : Client * list Recorder.Effect :=
  match mediaRecorderService c with
  | Some rt =>
      match Recorder.startRecordingBegin b (Some 10000%N) (Recorder.service rt)
      with
      | Some (s, effs, res) =>
          (mkClient (store c)
             (Some (Recorder.mkRuntime s (Recorder.inflight rt)
                      (Recorder.acquiring rt))),
           effs ++ startLocalRecordingEnd res)
      | None =>
          (mkClient (store c)
             (Some (Recorder.mkRuntime (Recorder.service rt)
                      (Recorder.inflight rt)
                      (Recorder.acquiring rt ++ [10000%N]))),
           [Recorder.GetUserMedia Recorder.highQuality])
      end
  | None => (c, [Recorder.ConsoleLog "Local recording started"])
  end.

Definition stopLocalRecording (c : Client) : Client * list Recorder.Effect :=
  match mediaRecorderService c with
  | Some rt =>
      let '(s, effs) := Recorder.stopRecording (Recorder.service rt) in
      (mkClient (store c)
         (Some (Recorder.mkRuntime s (Recorder.inflight rt)
                  (Recorder.acquiring rt))),
       effs ++ [Recorder.ConsoleLog "Local recording stopped"])
  | None => (c, [Recorder.ConsoleLog "Local recording stopped"])
  end.

(** The handler of the [recording-state] event. *)
Definition onRecordingState (b : Recorder.Browser) (newState : bool)
    (c : Client) : Client * list Recorder.Effect :=
  let c1 := mkClient (setIsRecording newState (store c))
              (mediaRecorderService c) in
  let '(c2, effs) :=
    if newState then startLocalRecording b c1 else stopLocalRecording c1 in
  (c2, Recorder.ConsoleLog "Recording state changed" :: effs).

(** The [onChunkUploaded] callback the page gives to the service. *)
Definition applyCallbacks (effs : list Recorder.Effect) (st : StudioState)
  : StudioState :=
  foldl (fun st e =>
           match e with
           | Recorder.CallOnChunkUploaded _ => incrementChunksUploaded st
           | _ => st
           end) st effs.

(** What reaches the page: the socket's [recording-state] event, and the
    tasks of the service. *)
Inductive Event : Type :=
| RecordingState (isRecording : bool)
| ServiceTask (t : Recorder.Task).

Definition step (b : Recorder.Browser) (ev : Event) (c : Client)
  : Client * list Recorder.Effect :=
  match ev with
  | RecordingState v => onRecordingState b v c
  | ServiceTask t =>
      match mediaRecorderService c with
      | Some rt =>
          let '(rt', effs) := Recorder.step b t rt in
          let tail :=
            match t with
            | Recorder.StreamSettled k answer =>
                match Recorder.acquiring rt !! k with
                | Some ts =>
                    startLocalRecordingEnd
                      (snd (Recorder.startRecordingResume b ts answer
                              (Recorder.service rt)))
                | None => []
                end
            | _ => []
            end in
          (mkClient (applyCallbacks effs (store c)) (Some rt'), effs ++ tail)
      | None => (c, [])
      end
  end.

Fixpoint run (b : Recorder.Browser) (evs : list Event) (c : Client)
  : Client * list Recorder.Effect :=
  match evs with
  | [] => (c, [])
  | ev :: evs' =>
      let '(c1, effs1) := step b ev c in
      let '(c2, effs2) := run b evs' c1 in
      (c2, effs1 ++ effs2)
  end.

(** The handler taken together with the continuation of the stream
    request it may have made, the browser answering it before anything
    else happens. *)
Definition onRecordingStateSettled (b : Recorder.Browser) (newState : bool)
    (c : Client) : Client * list Recorder.Effect :=
  let '(c1, effs1) := onRecordingState b newState c in
  match mediaRecorderService c, mediaRecorderService c1 with
  | Some rt, Some rt1 =>
      if (length (Recorder.acquiring rt) <? length (Recorder.acquiring rt1))%nat
      then
        let '(c2, effs2) :=
          step b (ServiceTask
                    (Recorder.StreamSettled (length (Recorder.acquiring rt))
                       (Recorder.getUserMedia b Recorder.highQuality))) c1 in
        (c2, effs1 ++ effs2)
      else (c1, effs1)
  | _, _ => (c1, effs1)
  end.

(** [toggleRecording]: the page asks the server for the opposite of what
    its store says; nothing is sent while the page has no socket. *)
Definition toggleRecording (socket : bool) (studioId : string) (c : Client)
  : option Socket.ClientToServer :=
  if socket
  then Some (Socket.EmitRecordingState studioId (negb (isRecording (store c))))
  else None.

(** What the page sends when its socket connects, and when the page goes
    away. *)
Definition onConnect (studioId : string) : list Socket.ClientToServer :=
  [Socket.JoinStudio studioId].

Definition socketCleanup (studioId : string) : list Socket.ClientToServer :=
  [Socket.LeaveStudio studioId; Socket.Disconnect].

(** The events of the server the page listens to: [recording-state]
    only. *)
Definition subscribed (evs : list Socket.ServerToClient) : list Event :=
  omap (fun ev =>
          match ev with
          | Socket.RecordingState v _ => Some (RecordingState v)
          | _ => None
          end) evs.

End StudioCall.

(** ** Vocabulary of the properties *)

(** Number.MAX_SAFE_INTEGER, and Number.isSafeInteger on the Numbers of
    the model: the range on which [JS.parseInt] and [JS.toString] are
    those of ECMAScript. *)
Definition MAX_SAFE_INTEGER : Z := 2 ^ 53 - 1.

Definition safeInteger (x : JS.number) : bool :=
  match x with
  | JS.Int z => (- MAX_SAFE_INTEGER <=? z) && (z <=? MAX_SAFE_INTEGER)
  | JS.NaN => false
  end.

(** The spec's "index, zero-padded to [k] digits": the [k] low decimal
    digits of [n], most significant first. *)
Fixpoint fixedWidth (k : nat) (n : N) : string :=
  match k with
  | O => EmptyString
  | S k' => String (JS.digitChar (n / 10 ^ N.of_nat k' mod 10)) (fixedWidth k' n)
  end.

(** Numeric insertion sort, the order a listing by index would have. *)
Fixpoint insertZ (x : Z) (l : list Z) : list Z :=
  match l with
  | [] => [x]
  | y :: l' => if x <=? y then x :: l else y :: insertZ x l'
  end.

Definition sortZ (l : list Z) : list Z := foldr insertZ [] l.

(** The spec's key layout, studioId/participantId/chunk-D.webm, with D the
    index written with [k] decimal digits. *)
Definition chunkKey (studioId participantId : string) (k : nat) (index : Z)
  : string :=
  studioId +:+ "/" +:+ participantId +:+ "/chunk-"
    +:+ fixedWidth k (Z.to_N index) +:+ ".webm".

(** [uploadChunk] called for each of the chunks in turn, a chunk given by
    its index and its bytes: the bucket they leave, or the first error. *)
Fixpoint uploadChunks (up : bool) (studioId participantId : string)
    (chunks : list (Z * list byte)) (bucket : gmap string Minio.StoredObject)
  : outcome (gmap string Minio.StoredObject) :=
  match chunks with
  | [] => Resolved bucket
  | chunk :: rest =>
      match Minio.uploadChunk up studioId participantId (JS.Int (fst chunk))
              (snd chunk) bucket with
      | Resolved (bucket', _) =>
          uploadChunks up studioId participantId rest bucket'
      | Rejected e => Rejected e
      end
  end.

(** The first digit [parseInt] reads, past white space, sign and [0x]
    prefix; [None] when the text does not begin with a number. *)
Definition leadingDigit (s : string) : option N :=
  let '(_, s1) := JS.stripSign (JS.trimStart s) in
  let '(radix, s2) := JS.stripHexPrefix s1 in
  match s2 with
  | String c _ => JS.digitValue radix c
  | EmptyString => None
  end.

(** The ledger entry of a participant, as the spec names its fields. *)
Definition accumulatedSize (sid pid : string) (st : Route.Server) : option Z :=
  Route.size <$> Route.recordings st !! (sid, pid).

Definition ledgerStatus (sid pid : string) (st : Route.Server)
  : option Route.RecordingStatus :=
  Route.status <$> Route.recordings st !! (sid, pid).

(** The validation of [POST], on the body of a request. *)
Definition passesValidation (fd : list (string * Route.FormDataEntryValue))
  : bool :=
  negb (Route.falsy (Route.get "chunk" fd)
        || Route.falsy (Route.get "studioId" fd)
        || Route.falsy (Route.get "participantId" fd)
        || JS.isNaN (JS.parseInt (Route.ToString (Route.get "chunkIndex" fd)))).

(** The body of an upload of [payload] for participant [pid] of studio
    [sid] that passes the validation of [POST]. *)
Definition uploadOf (fd : list (string * Route.FormDataEntryValue))
    (sid pid : string) (payload : list byte) : Prop :=
  Route.get "chunk" fd = Some (Route.FFile payload)
  /\ Route.get "studioId" fd = Some (Route.FString sid)
  /\ Route.get "participantId" fd = Some (Route.FString pid)
  /\ passesValidation fd = true.

(** The ledger can take [len] more bytes for the pair: the sum fits the
    column, and a pair without a row belongs to a registered user. *)
Definition ledgerAdmits (sid pid : string) (len : Z) (st : Route.Server)
  : Prop :=
  match Route.recordings st !! (sid, pid) with
  | Some r => Route.size r + len <= Route.BIGINT_MAX
  | None => pid ∈ Route.users st /\ len <= Route.BIGINT_MAX
  end.

(** An upload succeeds when [uploadChunk] resolves: the response is ok and
    its body parses. *)
Definition uploadSucceeds (r : Recorder.FetchResult) : bool :=
  match r with
  | Recorder.HttpResponse true (Some _) => true
  | _ => false
  end.

(** A schedule in which every upload succeeds and is answered before the
    next segment is produced; [pending] tells whether an upload is
    awaiting its answer. Whatever else happens in between (start, stop,
    stream and recorder events) is allowed, [cleanup] apart. *)
Fixpoint oneAtATime (pending : bool) (ts : list Recorder.Task) : bool :=
  match ts with
  | [] => true
  | Recorder.DataAvailable (Some (_ :: _)) :: rest =>
      negb pending && oneAtATime true rest
  | Recorder.FetchSettled k r :: rest =>
      pending && (k =? 0)%nat && uploadSucceeds r && oneAtATime false rest
  | Recorder.CallCleanup :: _ => false
  | _ :: rest => oneAtATime pending rest
  end.

(** The requests among the effects, as the endpoint receives them from
    the signed-in user. *)
Definition requestsOf (user : Route.User) (effs : list Recorder.Effect)
  : list Route.NextRequest :=
  omap (fun e =>
          match e with
          | Recorder.Fetch _ form => Some (Route.mkRequest (Some user) (Some form))
          | _ => None
          end) effs.

(** The endpoint serving a list of requests in order. *)
Fixpoint serve (env : Route.Env) (reqs : list Route.NextRequest)
    (st : Route.Server) : Route.Server * list Route.NextResponse :=
  match reqs with
  | [] => (st, [])
  | req :: rest =>
      let '(st1, resp) := Route.POST env req st in
      let '(st2, resps) := serve env rest st1 in
      (st2, resp :: resps)
  end.

(** The endpoint serving requests in order, each under the surroundings
    of its moment. *)
Fixpoint ingest (reqs : list (Route.Env * Route.NextRequest))
    (st : Route.Server) : Route.Server * list Route.NextResponse :=
  match reqs with
  | [] => (st, [])
  | (env, req) :: rest =>
      let '(st1, resp) := Route.POST env req st in
      let '(st2, resps) := ingest rest st1 in
      (st2, resp :: resps)
  end.

(** A ledger row that is the earlier row grown: everything but the size
    and the update time is as it was, and the size is not smaller. *)
Definition rowGrown (r r' : Route.Recording) : Prop :=
  Route.id r' = Route.id r
  /\ Route.studioId r' = Route.studioId r
  /\ Route.participantId r' = Route.participantId r
  /\ Route.participantName r' = Route.participantName r
  /\ Route.fileUrl r' = Route.fileUrl r
  /\ Route.duration r' = Route.duration r
  /\ Route.status r' = Route.status r
  /\ Route.createdAt r' = Route.createdAt r
  /\ Route.size r <= Route.size r'.

(** Every row and every object of [st] is still there in [st'], the rows
    grown. *)
Definition storeGrown (st st' : Route.Server) : Prop :=
  Route.studios st' = Route.studios st
  /\ Route.users st' = Route.users st
  /\ (forall k r, Route.recordings st !! k = Some r ->
        exists r', Route.recordings st' !! k = Some r' /\ rowGrown r r')
  /\ (forall name, is_Some (Route.bucket st !! name) ->
        is_Some (Route.bucket st' !! name)).

(** An identifier without a slash, as the cuid and uuid identifiers of
    the application are. *)
Fixpoint slashFree (s : string) : bool :=
  match s with
  | EmptyString => true
  | String c rest => negb (Ascii.eqb c "/") && slashFree rest
  end.

(** The prefix under which [listChunks] looks for a participant's
    chunks. *)
Definition chunkPrefix (studioId participantId : string) : string :=
  studioId +:+ "/" +:+ participantId +:+ "/".

(** The answer of the endpoint as [fetch] hands it to [uploadChunk]:
    [response.ok] for a status from 200 to 299, and the [error] field of
    the JSON body. *)
Definition fetchResultOf (resp : Route.NextResponse) : Recorder.FetchResult :=
  Recorder.HttpResponse
    ((200 <=? Route.responseStatus resp)%nat
     && (Route.responseStatus resp <=? 299)%nat)
    (Some match Route.body resp with
          | Route.ErrorBody e => Some e
          | Route.SuccessBody _ _ _ _ => None
          end).

(** The chunks of the requests sent, in order. *)
Definition sentChunks (effs : list Recorder.Effect) : list (list byte) :=
  omap (fun e =>
          match e with
          | Recorder.Fetch _ form =>
              match Route.get "chunk" form with
              | Some (Route.FFile blob) => Some blob
              | _ => None
              end
          | _ => None
          end) effs.

(** The segments with data in them that the recorder delivers in a
    schedule, in order. *)
Definition segmentsOf (ts : list Recorder.Task) : list (list byte) :=
  omap (fun t =>
          match t with
          | Recorder.DataAvailable (Some (x :: blob)) => Some (x :: blob)
          | _ => None
          end) ts.

(** How many times a capturing recorder was told to stop. *)
Definition queuedStops (effs : list Recorder.Effect) : nat :=
  length (omap (fun e =>
                  match e with
                  | Recorder.QueueStop => Some tt
                  | _ => None
                  end) effs).

Definition isCleanup (t : Recorder.Task) : bool :=
  match t with Recorder.CallCleanup => true | _ => false end.

(** The page events that are not a [cleanup] of the service. *)
Definition noCleanup (evs : list StudioCall.Event) : bool :=
  forallb (fun ev =>
             match ev with
             | StudioCall.ServiceTask t => negb (isCleanup t)
             | StudioCall.RecordingState _ => true
             end) evs.

(** What one socket receives of a list of deliveries, in order. *)
Definition inbox (socket : string)
    (sent : list (string * Socket.ServerToClient))
  : list Socket.ServerToClient :=
  omap (fun d => if decide (fst d = socket) then Some (snd d) else None) sent.

(** The request the recorder sends for a chunk, given by its index and its
    bytes, with the surroundings it is served under. *)
Definition chunkRequest (env : Route.Env) (user : Route.User)
    (s : Recorder.Service) (chunk : Z * list byte)
  : Route.Env * Route.NextRequest :=
  (env, Route.mkRequest (Some user)
          (Some (Recorder.uploadForm s (snd chunk) (fst chunk)))).

(** The bytes kept for a participant: the lengths of the objects
    [listChunks] names, summed. *)
Definition storedBytes (sid pid : string)
    (bucket : gmap string Minio.StoredObject) : Z :=
  foldr (fun name total =>
           total + match bucket !! name with
                   | Some obj => Z.of_nat (length (Minio.body obj))
                   | None => 0
                   end)
        0 (Minio.listChunks sid pid bucket).

Definition totalBytes (chunks : list (Z * list byte)) : Z :=
  foldr (fun chunk total => total + Z.of_nat (length (snd chunk))) 0 chunks.

(** ** A small installation, for the examples *)

(** One studio, one registered user, nothing recorded yet. *)
Definition demoServer : Route.Server :=
  Route.mkServer {["studio1"]} {["user1"]} ∅ ∅.

Definition demoEnv : Route.Env := Route.mkEnv 1700000000000 "rec1" true.

Definition demoUser : Route.User := Route.mkUser "user1" (Some "Ann").

(** An authenticated upload with the given fields. *)
Definition demoRequest (sid pid index : string) (chunk : list byte)
  : Route.NextRequest :=
  Route.mkRequest (Some demoUser)
    (Some [("chunk", Route.FFile chunk); ("studioId", Route.FString sid);
           ("participantId", Route.FString pid);
           ("chunkIndex", Route.FString index)]).

(** A bucket holding three chunks of usr in studio st, stored out of
    order, and a chunk of another participant. *)
Definition demoBucket : gmap string Minio.StoredObject :=
  <["st/usr/chunk-00010.webm" := Minio.mkObject [x0a] "video/webm"]>
    (<["st/usr2/chunk-00000.webm" := Minio.mkObject [x00] "video/webm"]>
       (<["st/usr/chunk-00002.webm" := Minio.mkObject [x02] "video/webm"]>
          (<["st/usr/chunk-00009.webm" := Minio.mkObject [x09] "video/webm"]>
             ∅))).

(** A browser that grants the stream and records VP8 only. *)
Definition demoBrowser : Recorder.Browser :=
  Recorder.mkBrowser (fun _ => Resolved (Recorder.mkStream 1))
    (fun m => String.eqb m Recorder.vp8).

(** The page's service for user1 in studio1, just constructed. *)
Definition demoRuntime : Recorder.Runtime :=
  Recorder.mkRuntime (Recorder.new "studio1" "user1" true true) [] [].

(** The call page of user1 in studio1, before any recording. *)
Definition demoClient : StudioCall.Client :=
  StudioCall.mkClient
    (StudioCall.mkStudioState false 0 (Some "studio1") (Some "user1"))
    (Some demoRuntime).

Definition demoOk : Recorder.FetchResult :=
  Recorder.HttpResponse true (Some None).


(** * Properties *)

(** ** Decimal rendering and padding *)

#[local] Arguments String.append !_ _ / : simpl nomatch.

Section Decimal.

Local Open Scope N_scope.

Lemma fixedWidth_length k n : String.length (fixedWidth k n) = k.
Proof. induction k as [|k IH]; simpl; [reflexivity | now rewrite IH]. Qed.

Lemma fixedWidth_snoc k n :
  fixedWidth (S k) n
  = fixedWidth k (n / 10) +:+ String (JS.digitChar (n mod 10)) EmptyString.
Proof.
  induction k as [|k IH].
  - simpl. now rewrite N.div_1_r.
  - change (fixedWidth (S (S k)) n)
      with (String (JS.digitChar (n / 10 ^ N.of_nat (S k) mod 10))
                   (fixedWidth (S k) n)).
    rewrite IH. simpl fixedWidth. simpl String.append. f_equal. f_equal.
    rewrite Nat2N.inj_succ, N.pow_succ_r', N.Div0.div_div. reflexivity.
Qed.

Lemma append_assoc_cons (a : string) c (b : string) :
  (a +:+ String c EmptyString) +:+ b = a +:+ String c b.
Proof. induction a as [|x a IH]; simpl; [reflexivity | now rewrite IH]. Qed.

Lemma digitsOf_S fuel n acc :
  JS.digitsOf (S fuel) n acc
  = if n / 10 =? 0 then String (JS.digitChar (n mod 10)) acc
    else JS.digitsOf fuel (n / 10) (String (JS.digitChar (n mod 10)) acc).
Proof. reflexivity. Qed.

(** With enough fuel, [digitsOf] writes the digits of [n] without a
    leading zero: as many digits [d] as [n] needs. *)
Lemma digitsOf_fixedWidth fuel : forall n acc,
  n < 10 ^ N.of_nat (S fuel) ->
  exists d, (1 <= d)%nat /\ (d = 1%nat \/ 10 ^ N.of_nat (d - 1) <= n) /\
    n < 10 ^ N.of_nat d /\
    JS.digitsOf (S fuel) n acc = fixedWidth d n +:+ acc.
Proof.
  induction fuel as [|fuel IH]; intros n acc Hn;
    rewrite digitsOf_S; destruct (N.eqb_spec (n / 10) 0) as [Hz|Hz].
  - exists 1%nat. split; [lia|]. split; [now left|]. split.
    + apply N.div_small_iff in Hz; [exact Hz | lia].
    + simpl. now rewrite N.div_1_r.
  - exfalso. apply Hz. apply N.div_small. exact Hn.
  - exists 1%nat. split; [lia|]. split; [now left|]. split.
    + apply N.div_small_iff in Hz; [exact Hz | lia].
    + simpl. now rewrite N.div_1_r.
  - assert (Hlt : n / 10 < 10 ^ N.of_nat (S fuel)).
    { apply N.Div0.div_lt_upper_bound.
      rewrite (Nat2N.inj_succ (S fuel)), N.pow_succ_r' in Hn. exact Hn. }
    destruct (IH (n / 10) (String (JS.digitChar (n mod 10)) acc) Hlt)
      as (d & Hd1 & Hmin & Hmax & Heq).
    exists (S d). split; [lia|]. split; [|split].
    + right. replace (S d - 1)%nat with (S (d - 1)) by lia.
      rewrite Nat2N.inj_succ, N.pow_succ_r'.
      pose proof (N.Div0.mul_div_le n 10) as Hle.
      destruct Hmin as [->|Hmin].
      * change (N.of_nat (1 - 1)) with 0. rewrite N.pow_0_r.
        clear -Hz Hle. set (q := n / 10) in *. lia.
      * assert (10 * 10 ^ N.of_nat (d - 1) <= 10 * (n / 10))
          by (apply N.mul_le_mono_l; exact Hmin).
        clear -H Hle. set (q := n / 10) in *. lia.
    + rewrite Nat2N.inj_succ, N.pow_succ_r'.
      pose proof (N.Div0.div_mod n 10) as Hdm.
      pose proof (N.mod_upper_bound n 10) as Hub.
      assert (10 * (n / 10) < 10 * 10 ^ N.of_nat d)
        by (apply N.mul_lt_mono_pos_l; [reflexivity | exact Hmax]).
      clear -Hdm Hub H. set (q := n / 10) in *. set (m := n mod 10) in *. lia.
    + rewrite Heq, fixedWidth_snoc. symmetry. apply append_assoc_cons.
Qed.

Lemma fixedWidth_zeros j k n :
  n < 10 ^ N.of_nat k ->
  fixedWidth (j + k) n = JS.repeatString j "0" +:+ fixedWidth k n.
Proof.
  intros Hn. induction j as [|j IH]; [reflexivity|].
  change (S j + k)%nat with (S (j + k)). cbn [fixedWidth JS.repeatString].
  rewrite IH. rewrite N.div_small.
  - reflexivity.
  - eapply N.lt_le_trans; [exact Hn|].
    apply N.pow_le_mono_r; lia.
Qed.

Lemma takeString_repeat_zero j :
  JS.takeString j (JS.repeatString j "0") = JS.repeatString j "0".
Proof. induction j as [|j IH]; simpl; [reflexivity | now rewrite IH]. Qed.

Lemma lt_pow10_log2 n : n < 10 ^ N.of_nat (S (N.to_nat (N.log2 n))).
Proof.
  rewrite Nat2N.inj_succ, N2Nat.id.
  destruct (N.eq_dec n 0) as [->|Hn]; [reflexivity|].
  eapply N.lt_le_trans.
  - apply N.log2_spec. lia.
  - apply N.pow_le_mono_l. lia.
Qed.

(** [padStart] on the decimal rendering gives the fixed-width rendering,
    for every width that can hold the number. *)
Lemma padStart_decimal k n :
  (1 <= k)%nat -> n < 10 ^ N.of_nat k ->
  JS.padStart k "0" (JS.decimal n) = fixedWidth k n.
Proof.
  intros Hk Hn. unfold JS.decimal.
  destruct (digitsOf_fixedWidth (N.to_nat (N.log2 n)) n EmptyString
              (lt_pow10_log2 n)) as (d & Hd1 & Hmin & Hnd & Heq).
  rewrite Heq.
  assert (Hnil : forall s : string, s +:+ EmptyString = s).
  { induction s as [|c s IHs]; simpl; [reflexivity | now rewrite IHs]. }
  rewrite Hnil.
  assert (Hdk : (d <= k)%nat).
  { destruct Hmin as [->|Hmin]; [exact Hk|].
    destruct (Nat.le_gt_cases d k) as [Hle|Hgt]; [exact Hle|exfalso].
    assert (10 ^ N.of_nat k <= 10 ^ N.of_nat (d - 1))
      by (apply N.pow_le_mono_r; lia).
    lia. }
  unfold JS.padStart. rewrite fixedWidth_length.
  destruct (Nat.leb_spec k d) as [Hle|Hlt].
  - now replace k with d by lia.
  - rewrite takeString_repeat_zero.
    replace k with ((k - d) + d)%nat at 2 by lia.
    now rewrite fixedWidth_zeros.
Qed.
End Decimal.

(** ** The index on the wire *)

Section Roundtrip.

Local Open Scope N_scope.

Lemma digit_cases d : d < 10 ->
  d = 0 \/ d = 1 \/ d = 2 \/ d = 3 \/ d = 4 \/ d = 5 \/ d = 6 \/ d = 7
  \/ d = 8 \/ d = 9.
Proof. lia. Qed.

Lemma digitValue_digitChar d :
  d < 10 -> JS.digitValue 10 (JS.digitChar d) = Some d.
Proof.
  intros Hd. destruct (digit_cases d Hd) as [->|[->|[->|[->|[->|[->|[->|[->|[->| ->]]]]]]]]];
    reflexivity.
Qed.

(** Reading the [k] low digits of [n] back. *)
Lemma parseDigits_fixedWidth k : forall n a,
  JS.parseDigits 10 (fixedWidth k n) (Some a)
  = Some (a * 10 ^ N.of_nat k + n mod 10 ^ N.of_nat k).
Proof.
  induction k as [|k IH]; intros n a.
  - simpl. rewrite N.mod_1_r. f_equal. lia.
  - cbn [fixedWidth JS.parseDigits].
    rewrite digitValue_digitChar by (apply N.mod_upper_bound; lia).
    rewrite IH. f_equal.
    rewrite Nat2N.inj_succ, N.pow_succ_r', (N.mul_comm 10), N.Div0.mod_mul_r.
    lia.
Qed.

(** A decimal rendering starts with a digit, followed by digits. *)
Lemma decimal_fixedWidth n :
  exists d, n < 10 ^ N.of_nat (S d) /\ JS.decimal n = fixedWidth (S d) n.
Proof.
  unfold JS.decimal.
  destruct (digitsOf_fixedWidth (N.to_nat (N.log2 n)) n EmptyString
              (lt_pow10_log2 n)) as (d & Hd1 & _ & Hnd & Heq).
  destruct d as [|d]; [lia|]. exists d. split; [exact Hnd|].
  rewrite Heq. clear.
  induction (fixedWidth (S d) n) as [|c s IHs]; simpl;
    [reflexivity | now rewrite IHs].
Qed.

Lemma parseInt_digits d rest :
  d < 10 ->
  match rest with
  | EmptyString => True
  | String c _ => exists d', d' < 10 /\ c = JS.digitChar d'
  end ->
  JS.parseInt (String (JS.digitChar d) rest)
  = match JS.parseDigits 10 rest (Some d) with
    | Some m => JS.Int (Z.of_N m)
    | None => JS.NaN
    end
  /\ JS.parseInt (String "-" (String (JS.digitChar d) rest))
     = match JS.parseDigits 10 rest (Some d) with
       | Some m => JS.Int (- Z.of_N m)
       | None => JS.NaN
       end.
Proof.
  intros Hd Hrest.
  assert (Hhex : JS.stripHexPrefix (String (JS.digitChar d) rest)
                 = (10, String (JS.digitChar d) rest)).
  { destruct rest as [|c rest]; [|destruct Hrest as (d' & Hd' & ->)];
      destruct (digit_cases d Hd) as [->|[->|[->|[->|[->|[->|[->|[->|[->| ->]]]]]]]]];
      try reflexivity.
    destruct (digit_cases d' Hd') as [->|[->|[->|[->|[->|[->|[->|[->|[->| ->]]]]]]]]];
      reflexivity. }
  assert (Hsign : JS.stripSign (JS.trimStart (String (JS.digitChar d) rest))
                  = (false, String (JS.digitChar d) rest)).
  { destruct (digit_cases d Hd) as [->|[->|[->|[->|[->|[->|[->|[->|[->| ->]]]]]]]]];
      reflexivity. }
  split.
  - unfold JS.parseInt. rewrite Hsign. cbv beta iota. rewrite Hhex.
    cbn [JS.parseDigits]. now rewrite digitValue_digitChar by exact Hd.
  - unfold JS.parseInt.
    change (JS.stripSign (JS.trimStart (String "-" (String (JS.digitChar d) rest))))
      with (true, String (JS.digitChar d) rest).
    cbv beta iota. rewrite Hhex. cbn [JS.parseDigits].
    now rewrite digitValue_digitChar by exact Hd.
Qed.

(** [parseInt] reads back the integer [toString] wrote: the index the
    endpoint parses is the index the recorder sent. *)
Lemma parseInt_Z_toString (z : Z) : JS.parseInt (JS.Z_toString z) = JS.Int z.
Proof.
  assert (Hnat : forall n,
            JS.parseInt (JS.decimal n) = JS.Int (Z.of_N n)
            /\ JS.parseInt (String "-" (JS.decimal n)) = JS.Int (- Z.of_N n)).
  { intros n. destruct (decimal_fixedWidth n) as (d & Hn & ->).
    cbn [fixedWidth].
    assert (Hd : n / 10 ^ N.of_nat d mod 10 < 10)
      by (apply N.mod_upper_bound; lia).
    assert (Hrest : match fixedWidth d n with
                    | EmptyString => True
                    | String c _ => exists d', d' < 10 /\ c = JS.digitChar d'
                    end).
    { destruct d as [|d]; [exact I|]. cbn [fixedWidth]. eexists. split; [|reflexivity].
      apply N.mod_upper_bound. lia. }
    destruct (parseInt_digits _ _ Hd Hrest) as [Hpos Hneg].
    rewrite Hpos, Hneg, parseDigits_fixedWidth.
    assert (Hval : n / 10 ^ N.of_nat d mod 10 * 10 ^ N.of_nat d
                   + n mod 10 ^ N.of_nat d = n).
    { rewrite Nat2N.inj_succ, N.pow_succ_r' in Hn.
      rewrite (N.mod_small (n / 10 ^ N.of_nat d))
        by (apply N.Div0.div_lt_upper_bound; lia).
      pose proof (N.Div0.div_mod n (10 ^ N.of_nat d)). lia. }
    rewrite Hval. split; reflexivity. }
  unfold JS.Z_toString. destruct (Z.ltb_spec z 0) as [Hneg|Hpos].
  - rewrite (proj2 (Hnat (Z.abs_N z))). f_equal. lia.
  - rewrite (proj1 (Hnat (Z.to_N z))). f_equal. lia.
Qed.

End Roundtrip.

(** ** Order of the object names *)

Section KeyOrder.

Lemma ascii_compare_refl c : Ascii.compare c c = Eq.
Proof. unfold Ascii.compare. apply N.compare_refl. Qed.

Lemma string_compare_refl s : String.compare s s = Eq.
Proof.
  induction s as [|c s IH]; simpl; [reflexivity|].
  now rewrite ascii_compare_refl.
Qed.

Lemma string_compare_app_prefix p a b :
  String.compare (p +:+ a) (p +:+ b) = String.compare a b.
Proof.
  induction p as [|c p IH]; simpl; [reflexivity|].
  now rewrite ascii_compare_refl.
Qed.

Lemma digitChar_compare a b :
  (a < 10)%N -> (b < 10)%N ->
  Ascii.compare (JS.digitChar a) (JS.digitChar b) = (a ?= b)%N.
Proof.
  intros Ha Hb. unfold Ascii.compare, JS.digitChar.
  rewrite !N_ascii_embedding by lia.
  destruct (N.compare_spec a b) as [->|Hlt|Hgt].
  - apply N.compare_refl.
  - apply N.compare_lt_iff. lia.
  - apply N.compare_gt_iff. lia.
Qed.

(** On the low [k] digits, the fixed-width rendering is monotone. *)
Lemma fixedWidth_compare_lt k : forall a b s t,
  (a mod 10 ^ N.of_nat k < b mod 10 ^ N.of_nat k)%N ->
  String.compare (fixedWidth k a +:+ s) (fixedWidth k b +:+ t) = Lt.
Proof.
  induction k as [|k IH]; intros a b s t Hlt.
  - simpl in Hlt. rewrite !N.mod_1_r in Hlt. lia.
  - rewrite Nat2N.inj_succ, N.pow_succ_r' in Hlt.
    rewrite (N.mul_comm 10), !N.Div0.mod_mul_r in Hlt.
    cbn [fixedWidth]. simpl String.append. cbn [String.compare].
    set (p := (10 ^ N.of_nat k)%N) in *.
    assert (Hp : (0 < p)%N) by (apply N.neq_0_lt_0, N.pow_nonzero; lia).
    pose proof (N.mod_upper_bound a p ltac:(lia)) as Ha.
    pose proof (N.mod_upper_bound b p ltac:(lia)) as Hb.
    pose proof (N.mod_upper_bound (a / p) 10 ltac:(lia)) as Hda.
    pose proof (N.mod_upper_bound (b / p) 10 ltac:(lia)) as Hdb.
    rewrite digitChar_compare by assumption.
    set (da := ((a / p) mod 10)%N) in *. set (db := ((b / p) mod 10)%N) in *.
    set (ra := (a mod p)%N) in *. set (rb := (b mod p)%N) in *.
    destruct (N.compare_spec da db) as [Heq|Hd|Hd].
    + apply IH. fold p. fold ra rb. rewrite Heq in Hlt. lia.
    + reflexivity.
    + exfalso. assert (p * (db + 1) <= p * da)%N
        by (apply N.mul_le_mono_l; lia). lia.
Qed.

Lemma objectName_fixedWidth sid pid i :
  0 <= i <= 99999 ->
  Minio.objectName sid pid (JS.Int i)
  = sid +:+ "/" +:+ pid +:+ "/chunk-" +:+ fixedWidth 5 (Z.to_N i) +:+ ".webm".
Proof.
  intros Hi. unfold Minio.objectName, JS.toString, JS.Z_toString.
  destruct (Z.ltb_spec i 0) as [Hneg|_]; [lia|].
  rewrite padStart_decimal; [reflexivity | lia |].
  change (10 ^ N.of_nat 5)%N with 100000%N. lia.
Qed.

Lemma objectName_lt sid pid i j :
  0 <= i -> i < j -> j <= 99999 ->
  String.compare (Minio.objectName sid pid (JS.Int i))
                 (Minio.objectName sid pid (JS.Int j)) = Lt.
Proof.
  intros H0 Hij Hj.
  rewrite !objectName_fixedWidth by lia.
  rewrite !string_compare_app_prefix.
  apply fixedWidth_compare_lt.
  change (10 ^ N.of_nat 5)%N with 100000%N.
  rewrite !N.mod_small by lia. lia.
Qed.

(** Past five digits the order is lost: 100000 sorts before 99999. *)
Example objectName_order_beyond_range :
  String.compare (Minio.objectName "st" "usr" (JS.Int 100000))
                 (Minio.objectName "st" "usr" (JS.Int 99999)) = Lt.
Proof. reflexivity. Qed.

Lemma objectName_leb sid pid i j :
  0 <= i <= 99999 -> 0 <= j <= 99999 ->
  JS.lexLeb (Minio.objectName sid pid (JS.Int i))
            (Minio.objectName sid pid (JS.Int j)) = (i <=? j).
Proof.
  intros Hi Hj. unfold JS.lexLeb, String.leb.
  destruct (Z.leb_spec i j) as [Hle|Hgt].
  - destruct (Z.eq_dec i j) as [->|Hne].
    + now rewrite string_compare_refl.
    + now rewrite objectName_lt by lia.
  - rewrite String.compare_antisym, objectName_lt by lia. reflexivity.
Qed.

End KeyOrder.

(** ** Sorting *)

Section Sorting.

Lemma insertZ_perm x l : insertZ x l ≡ₚ x :: l.
Proof.
  induction l as [|y l IH]; simpl; [reflexivity|].
  destruct (x <=? y); [reflexivity|].
  rewrite IH. apply Permutation_swap.
Qed.

Lemma sortZ_perm l : sortZ l ≡ₚ l.
Proof.
  induction l as [|x l IH]; simpl; [reflexivity|].
  rewrite insertZ_perm. now rewrite IH.
Qed.

Lemma insertZ_sorted x l : Sorted Z.le l -> Sorted Z.le (insertZ x l).
Proof.
  induction 1 as [|y l Hs IH Hhd]; simpl.
  - repeat constructor.
  - destruct (Z.leb_spec x y) as [Hle|Hgt].
    + constructor; [constructor; assumption | constructor; exact Hle].
    + constructor; [exact IH|].
      destruct Hhd as [|z l Hyz]; simpl.
      * constructor. lia.
      * destruct (x <=? z); constructor; lia.
Qed.

Lemma sortZ_sorted l : Sorted Z.le (sortZ l).
Proof.
  induction l as [|x l IH]; simpl; [constructor | now apply insertZ_sorted].
Qed.

(** Sorting the names is sorting the indices. *)
Lemma sort_objectNames sid pid (l : list Z) :
  Forall (fun i => 0 <= i <= 99999) l ->
  JS.sort ((fun i => Minio.objectName sid pid (JS.Int i)) <$> l)
  = (fun i => Minio.objectName sid pid (JS.Int i)) <$> sortZ l.
Proof.
  set (key := fun i => Minio.objectName sid pid (JS.Int i)).
  assert (Hins : forall x l, 0 <= x <= 99999 ->
            Forall (fun i => 0 <= i <= 99999) l ->
            JS.insertSorted (key x) (key <$> l) = key <$> insertZ x l).
  { intros x l' Hx Hl'. induction Hl' as [|y l' Hy Hl' IH]; [reflexivity|].
    rewrite fmap_cons. cbn [JS.insertSorted insertZ].
    unfold key at 1 2. rewrite objectName_leb by assumption.
    destruct (x <=? y); [reflexivity|]. now rewrite fmap_cons, IH. }
  induction 1 as [|x l' Hx Hl' IH]; [reflexivity|].
  change (JS.sort (key <$> x :: l'))
    with (JS.insertSorted (key x) (JS.sort (key <$> l'))).
  rewrite IH. apply Hins; [exact Hx|].
  eapply Permutation_Forall; [symmetry; apply sortZ_perm | exact Hl'].
Qed.

Lemma Permutation_fmap_inv {A B} (f : A -> B) (k : list B) (l : list A) :
  k ≡ₚ f <$> l -> exists l', k = f <$> l' /\ l' ≡ₚ l.
Proof.
  intros Hp.
  assert (Hp' : Permutation k (map f l)).
  { rewrite Hp. clear. induction l; simpl; [reflexivity | now constructor]. }
  apply Permutation_map_inv in Hp' as (l' & Hk & Hl).
  exists l'. split; [|now symmetry].
  rewrite Hk. clear. induction l'; simpl; [reflexivity | now f_equal].
Qed.

(** [listChunks] on a bucket whose names under the participant's prefix
    are those of the indices [l]: the names come back in increasing order
    of index. *)
Lemma listChunks_index_order sid pid (l : list Z)
    (bucket : gmap string Minio.StoredObject) :
  NoDup l ->
  Forall (fun i => 0 <= i <= 99999) l ->
  (forall name,
     name ∈ (fun i => Minio.objectName sid pid (JS.Int i)) <$> l
     <-> is_Some (bucket !! name)
         /\ JS.startsWith (sid +:+ "/" +:+ pid +:+ "/") name = true) ->
  Minio.listChunks sid pid bucket
  = (fun i => Minio.objectName sid pid (JS.Int i)) <$> sortZ l.
Proof.
  set (key := fun i => Minio.objectName sid pid (JS.Int i)).
  intros Hnd Hl Hnames. unfold Minio.listChunks.
  set (listed := filter _ _).
  assert (Hinj : forall x y, x ∈ l -> y ∈ l -> key x = key y -> x = y).
  { intros x y Hx Hy Heq. rewrite Forall_forall in Hl.
    pose proof (Hl x Hx). pose proof (Hl y Hy).
    destruct (Z.lt_trichotomy x y) as [Hlt|[Heq'|Hgt]]; [|exact Heq'|].
    - pose proof (objectName_lt sid pid x y ltac:(lia) Hlt ltac:(lia)) as Hc.
      fold (key x) (key y) in Hc. rewrite Heq, string_compare_refl in Hc.
      discriminate.
    - pose proof (objectName_lt sid pid y x ltac:(lia) Hgt ltac:(lia)) as Hc.
      fold (key x) (key y) in Hc. rewrite Heq, string_compare_refl in Hc.
      discriminate. }
  assert (Hperm : listed ≡ₚ key <$> l).
  { apply NoDup_Permutation.
    - apply NoDup_filter, NoDup_fst_map_to_list.
    - now apply NoDup_fmap_2_strong.
    - intros name. subst listed. rewrite list_elem_of_filter, Hnames.
      rewrite list_elem_of_fmap. split.
      + intros (Hpre & [name' obj] & -> & Hin).
        apply elem_of_map_to_list in Hin. simpl. eauto.
      + intros ([obj Hobj] & Hpre). split; [exact Hpre|].
        exists (name, obj). split; [reflexivity|].
        now apply elem_of_map_to_list. }
  clearbody listed.
  apply Permutation_fmap_inv in Hperm as (l' & -> & Hl').
  subst key.
  rewrite sort_objectNames
    by (eapply Permutation_Forall; [symmetry|]; eassumption).
  f_equal. apply (Sorted_unique Z.le); [apply sortZ_sorted..|].
  now rewrite !sortZ_perm.
Qed.

End Sorting.

(** ** The ingestion endpoint *)

Section Ingest.

Import Route.

Implicit Types (env : Env) (req : NextRequest) (st : Server).
Implicit Types (fd : list (string * FormDataEntryValue)).

(** Nothing is written unless the studio named by the request exists. *)
Lemma POST_unknown_studio_unchanged env req fd sid st :
  formData req = Some fd ->
  get "studioId" fd = Some (FString sid) ->
  sid ∉ studios st ->
  fst (POST env req st) = st.
Proof.
  intros Hfd Hsid Hnot. unfold POST. rewrite Hfd, Hsid.
  destruct (session req); [|reflexivity].
  destruct (_ || _); [reflexivity|].
  rewrite bool_decide_eq_false_2 by exact Hnot. reflexivity.
Qed.

(** What an accepted request looked like, and what it wrote. *)
Lemma POST_accepted env req st :
  responseStatus (snd (POST env req st)) = 200%nat ->
  exists user fd sid pid payload r,
    session req = Some user /\ formData req = Some fd
    /\ get "chunk" fd = Some (FFile payload)
    /\ get "studioId" fd = Some (FString sid)
    /\ get "participantId" fd = Some (FString pid)
    /\ sid ∈ studios st
    /\ let idx := JS.parseInt (ToString (get "chunkIndex" fd)) in
       let name := Minio.objectName sid pid idx in
       upsert env sid pid (nameOrAnonymous user) name (Z.of_nat (length payload))
         (mkServer (studios st) (users st) (recordings st)
            (<[name := Minio.mkObject payload "video/webm"]> (bucket st)))
       = Resolved (fst (POST env req st), r)
       /\ snd (POST env req st)
          = json (SuccessBody idx name (id r) (JS.Z_toString (size r))) 200.
Proof.
  unfold POST, Minio.uploadChunk, Minio.putObject.
  repeat case_match; simpl; try discriminate; intros _; simplify_eq.
  do 6 eexists. repeat split; try reflexivity; try eassumption.
  eapply bool_decide_eq_true_1; eassumption.
Qed.

Lemma upsert_resolved env sid pid name objectName len st st' r :
  upsert env sid pid name objectName len st = Resolved (st', r) ->
  st' = mkServer (studios st) (users st)
          (<[(sid, pid) := r]> (recordings st)) (bucket st)
  /\ match recordings st !! (sid, pid) with
     | Some old =>
         r = mkRecording (id old) (studioId old) (participantId old)
               (participantName old) (fileUrl old) (duration old)
               (size old + len) (status old) (createdAt old) (now env)
     | None =>
         r = mkRecording (newId env) sid pid name (Some objectName) None
               len uploading (now env) (now env)
         /\ sid ∈ studios st /\ pid ∈ users st
     end
  /\ size r <= BIGINT_MAX.
Proof.
  unfold upsert. intros H.
  destruct (recordings st !! (sid, pid)) as [old|] eqn:Hrow.
  - destruct (Z.leb_spec (size old + len) BIGINT_MAX); [|discriminate].
    simplify_eq. auto.
  - destruct (bool_decide (sid ∈ studios st)) eqn:Hs; [|discriminate].
    destruct (bool_decide (pid ∈ users st)) eqn:Hu; [|discriminate].
    simpl in H. destruct (Z.leb_spec len BIGINT_MAX); [|discriminate].
    simplify_eq. apply bool_decide_eq_true_1 in Hs, Hu. auto.
Qed.

(** The ledger after an accepted chunk: the participant's row holds the
    former size (0 without a row) plus the payload length, its status is
    the former one ([uploading] for a new row), and the other rows are
    the same. *)
Lemma POST_accepted_ledger env req fd sid pid payload st :
  formData req = Some fd ->
  get "chunk" fd = Some (FFile payload) ->
  get "studioId" fd = Some (FString sid) ->
  get "participantId" fd = Some (FString pid) ->
  responseStatus (snd (POST env req st)) = 200%nat ->
  let st' := fst (POST env req st) in
  let old := recordings st !! (sid, pid) in
  exists r,
    recordings st' = <[(sid, pid) := r]> (recordings st)
    /\ size r = default 0 (size <$> old) + Z.of_nat (length payload)
    /\ status r = default uploading (status <$> old)
    /\ updatedAt r = now env
    /\ studios st' = studios st /\ users st' = users st
    /\ bucket st'
       = <[Minio.objectName sid pid
             (JS.parseInt (ToString (get "chunkIndex" fd)))
           := Minio.mkObject payload "video/webm"]> (bucket st)
    /\ exists rid,
         snd (POST env req st)
         = json (SuccessBody (JS.parseInt (ToString (get "chunkIndex" fd)))
                   (Minio.objectName sid pid
                      (JS.parseInt (ToString (get "chunkIndex" fd))))
                   rid (JS.Z_toString (size r))) 200.
Proof.
  intros Hfd Hchunk Hsid Hpid Hok.
  destruct (POST_accepted env req st Hok)
    as (user & fd' & sid' & pid' & payload' & r & _ & Hfd' & Hc' & Hs' & Hp'
        & _ & Hup & Hresp).
  simplify_eq. simpl in Hup, Hresp.
  apply upsert_resolved in Hup as (Hst & Hrow & _).
  simpl in Hst, Hrow. cbn zeta. rewrite Hst. cbn [recordings studios users bucket].
  exists r. destruct (recordings st !! (sid, pid)) as [old|];
    [|destruct Hrow as (Hrow & _ & _)]; subst r;
    rewrite Hresp; simpl; repeat split; eauto.
Qed.

End Ingest.

Section IngestClaims.

Import Route.

Implicit Types (env : Env) (req : NextRequest) (st : Server).
Implicit Types (fd : list (string * FormDataEntryValue)).

(** C2. A request naming a studio that is not in the studio table leaves
    the bucket and the ledger as they were, whatever else it contains; an
    authenticated request that passes validation is answered 404
    "Studio not found". *)
Theorem POST_unknown_studio env req fd sid st :
  formData req = Some fd ->
  get "studioId" fd = Some (FString sid) ->
  sid ∉ studios st ->
  fst (POST env req st) = st
  /\ (is_Some (session req) -> passesValidation fd = true ->
      snd (POST env req st) = json (ErrorBody "Studio not found") 404).
Proof.
  intros Hfd Hsid Hnot. split.
  - eapply POST_unknown_studio_unchanged; eassumption.
  - intros [user Huser] Hvalid. unfold passesValidation in Hvalid.
    apply negb_true_iff in Hvalid.
    unfold POST. rewrite Huser, Hfd, Hvalid, Hsid.
    rewrite bool_decide_eq_false_2 by exact Hnot. reflexivity.
Qed.

Lemma POST_unknown_studio_witness :
  POST demoEnv (demoRequest "studio2" "user1" "0" [x01; x02]) demoServer
  = (demoServer, json (ErrorBody "Studio not found") 404).
Proof.
  pose proof (POST_unknown_studio demoEnv
                (demoRequest "studio2" "user1" "0" [x01; x02])
                _ "studio2" demoServer eq_refl eq_refl) as [Hst Hresp].
  { vm_compute. set_solver. }
  specialize (Hresp (ltac:(eexists; reflexivity)) eq_refl).
  rewrite (surjective_pairing (POST _ _ _)), Hst, Hresp. reflexivity.
Defined.

Lemma parseDigits_Some radix s a : JS.parseDigits radix s (Some a) <> None.
Proof.
  revert a. induction s as [|c s IH]; intros a; simpl; [discriminate|].
  destruct (JS.digitValue radix c); [apply IH | discriminate].
Qed.

(** [parseInt] gives NaN exactly for a text that does not begin with a
    number. *)
Lemma parseInt_NaN_iff s : JS.parseInt s = JS.NaN <-> leadingDigit s = None.
Proof.
  unfold JS.parseInt, leadingDigit.
  destruct (JS.stripSign (JS.trimStart s)) as [negative s1].
  destruct (JS.stripHexPrefix s1) as [radix s2].
  destruct s2 as [|c s2]; simpl; [tauto|].
  destruct (JS.digitValue radix c) as [d|]; simpl.
  - pose proof (parseDigits_Some radix s2 d).
    destruct (JS.parseDigits radix s2 (Some d)); [|contradiction].
    split; discriminate.
  - tauto.
Qed.

(** C3, as the code has it. An authenticated request whose chunkIndex
    field is missing or does not begin (after white space, a sign and a
    0x prefix) with a digit is answered 400 and nothing is written. When
    the field does begin with a digit and the other three fields are
    present, the request is not answered 400: the index is the integer
    [parseInt] reads, sign and trailing characters notwithstanding. *)
Theorem POST_rejects_index_without_digit env req user fd st :
  session req = Some user ->
  formData req = Some fd ->
  (leadingDigit (ToString (get "chunkIndex" fd)) = None ->
   POST env req st
   = (st, json (ErrorBody
        "Missing required fields: chunk, studioId, participantId, chunkIndex")
        400))
  /\ (leadingDigit (ToString (get "chunkIndex" fd)) <> None ->
      falsy (get "chunk" fd) = false ->
      falsy (get "studioId" fd) = false ->
      falsy (get "participantId" fd) = false ->
      responseStatus (snd (POST env req st)) <> 400%nat).
Proof.
  intros Huser Hfd. split.
  - intros Hnone. apply parseInt_NaN_iff in Hnone.
    unfold POST. rewrite Huser, Hfd, Hnone. simpl.
    now rewrite !orb_true_r.
  - intros Hsome Hc Hs Hp.
    assert (Hnan : JS.isNaN (JS.parseInt (ToString (get "chunkIndex" fd)))
                   = false).
    { destruct (JS.parseInt _) eqn:Hparse; [|reflexivity].
      apply parseInt_NaN_iff in Hparse. contradiction. }
    unfold POST. rewrite Huser, Hfd, Hc, Hs, Hp, Hnan. simpl.
    repeat case_match; simpl; discriminate.
Qed.

Lemma POST_rejects_index_without_digit_witness :
  POST demoEnv (demoRequest "studio1" "user1" "abc" [x01; x02]) demoServer
  = (demoServer, json (ErrorBody
       "Missing required fields: chunk, studioId, participantId, chunkIndex")
       400)
  /\ responseStatus
       (snd (POST demoEnv (demoRequest "studio1" "user1" "7" [x01; x02])
               demoServer)) <> 400%nat.
Proof.
  split.
  - apply (proj1 (POST_rejects_index_without_digit demoEnv
                    (demoRequest "studio1" "user1" "abc" [x01; x02])
                    demoUser _ demoServer eq_refl eq_refl)).
    reflexivity.
  - apply (proj2 (POST_rejects_index_without_digit demoEnv
                    (demoRequest "studio1" "user1" "7" [x01; x02])
                    demoUser _ demoServer eq_refl eq_refl));
      [vm_compute; discriminate | reflexivity..].
Defined.

(** C3 as stated fails: an index field of "-1", and one of "1.5", is
    accepted; an object is stored and a ledger row is created. *)
Lemma POST_accepts_negative_and_decimal_index :
  (let '(st', resp) :=
     POST demoEnv (demoRequest "studio1" "user1" "-1" [x01; x02]) demoServer in
   resp = json (SuccessBody (JS.Int (-1)) "studio1/user1/chunk-000-1.webm"
                  "rec1" "2") 200
   /\ bucket st' !! "studio1/user1/chunk-000-1.webm"
      = Some (Minio.mkObject [x01; x02] "video/webm")
   /\ accumulatedSize "studio1" "user1" st' = Some 2)
  /\ (let '(st', resp) :=
        POST demoEnv (demoRequest "studio1" "user1" "1.5" [x01; x02])
          demoServer in
      resp = json (SuccessBody (JS.Int 1) "studio1/user1/chunk-00001.webm"
                     "rec1" "2") 200
      /\ bucket st' !! "studio1/user1/chunk-00001.webm"
         = Some (Minio.mkObject [x01; x02] "video/webm")
      /\ accumulatedSize "studio1" "user1" st' = Some 2).
Proof. vm_compute. repeat split. Qed.

End IngestClaims.

Section Accounting.

Import Route.

Implicit Types (env : Env) (req : NextRequest) (st : Server).
Implicit Types (fd : list (string * FormDataEntryValue)).

Lemma accumulatedSize_after env req fd sid pid payload st :
  formData req = Some fd ->
  get "chunk" fd = Some (FFile payload) ->
  get "studioId" fd = Some (FString sid) ->
  get "participantId" fd = Some (FString pid) ->
  responseStatus (snd (POST env req st)) = 200%nat ->
  accumulatedSize sid pid (fst (POST env req st))
  = Some (default 0 (accumulatedSize sid pid st) + Z.of_nat (length payload))
  /\ ledgerStatus sid pid (fst (POST env req st))
     = Some (default uploading (ledgerStatus sid pid st)).
Proof.
  intros Hfd Hc Hs Hp Hok.
  destruct (POST_accepted_ledger env req fd sid pid payload st Hfd Hc Hs Hp Hok)
    as (r & Hrec & Hsize & Hstatus & _).
  unfold accumulatedSize, ledgerStatus. rewrite Hrec, lookup_insert_eq. simpl.
  now rewrite Hsize, Hstatus.
Qed.

(** A well-formed upload from a signed-in user is accepted when its
    studio exists, the object store answers and the ledger can take it. *)
Lemma POST_accepts env user fd sid pid payload st :
  uploadOf fd sid pid payload ->
  sid ∈ studios st ->
  minioUp env = true ->
  ledgerAdmits sid pid (Z.of_nat (length payload)) st ->
  responseStatus (snd (POST env (mkRequest (Some user) (Some fd)) st))
  = 200%nat.
Proof.
  intros (Hc & Hs & Hp & Hvalid) Hstudio Hup Hledger.
  unfold passesValidation in Hvalid. apply negb_true_iff in Hvalid.
  unfold POST, Minio.uploadChunk, Minio.putObject, upsert. simpl.
  rewrite Hvalid, Hs, Hc, Hp, Hup. simpl.
  rewrite bool_decide_eq_true_2 by exact Hstudio. simpl.
  unfold ledgerAdmits in Hledger.
  destruct (recordings st !! (sid, pid)) as [r|].
  - destruct (Z.leb_spec (size r + Z.of_nat (length payload)) BIGINT_MAX);
      [reflexivity | lia].
  - destruct Hledger as [Huser Hlen].
    rewrite (bool_decide_eq_true_2 _ Huser). simpl.
    destruct (Z.leb_spec (Z.of_nat (length payload)) BIGINT_MAX);
      [reflexivity | lia].
Qed.

(** C4. The same chunk ingested twice for a participant who has a ledger
    row or is a registered user, by well-formed requests of signed-in
    users, the studio existing, the object store answering and the sizes
    fitting the column: both requests are accepted and the second adds
    the payload length to the ledger row again. Starting without a row
    the ledger holds the payload length after the first request and twice
    the payload length after the second, which differs from what one
    ingestion leaves unless the payload is empty; the bucket holds the
    object once. *)
Theorem reingest_counts_size_twice env1 env2 user1 user2 fd sid pid payload st :
  uploadOf fd sid pid payload ->
  sid ∈ studios st ->
  minioUp env1 = true -> minioUp env2 = true ->
  let L := Z.of_nat (length payload) in
  let base := default 0 (accumulatedSize sid pid st) in
  (recordings st !! (sid, pid) = None -> pid ∈ users st) ->
  base + 2 * L <= BIGINT_MAX ->
  let '(st1, resp1) := POST env1 (mkRequest (Some user1) (Some fd)) st in
  let '(st2, resp2) := POST env2 (mkRequest (Some user2) (Some fd)) st1 in
  responseStatus resp1 = 200%nat
  /\ responseStatus resp2 = 200%nat
  /\ accumulatedSize sid pid st1 = Some (base + L)
  /\ accumulatedSize sid pid st2 = Some (base + 2 * L)
  /\ (recordings st !! (sid, pid) = None ->
      accumulatedSize sid pid st1 = Some L
      /\ accumulatedSize sid pid st2 = Some (2 * L))
  /\ (0 < L -> accumulatedSize sid pid st2 <> accumulatedSize sid pid st1)
  /\ bucket st2 = bucket st1.
Proof.
  intros Hup Hstudio Hup1 Hup2 L base Huser Hfit.
  pose proof Hup as (Hc & Hs & Hp & _).
  set (req1 := mkRequest (Some user1) (Some fd)).
  set (req2 := mkRequest (Some user2) (Some fd)).
  assert (Hok1 : responseStatus (snd (POST env1 req1 st)) = 200%nat).
  { apply (POST_accepts env1 user1 fd sid pid payload st Hup Hstudio Hup1).
    unfold ledgerAdmits. subst base. unfold accumulatedSize in Hfit.
    destruct (recordings st !! (sid, pid)) as [r|]; simpl in Hfit.
    - fold L. lia.
    - split; [now apply Huser | fold L; lia]. }
  destruct (POST_accepted_ledger env1 req1 fd sid pid payload st
              eq_refl Hc Hs Hp Hok1)
    as (r1 & Hrec1 & Hsize1 & _ & _ & Hstudios1 & _ & Hb1 & _).
  destruct (accumulatedSize_after env1 req1 fd sid pid payload st
              eq_refl Hc Hs Hp Hok1) as [H1 _].
  destruct (POST env1 req1 st) as [st1 resp1] eqn:Hpost1.
  simpl in Hok1, Hrec1, Hstudios1, Hb1, H1. fold L base in H1.
  assert (Hok2 : responseStatus (snd (POST env2 req2 st1)) = 200%nat).
  { apply (POST_accepts env2 user2 fd sid pid payload st1 Hup); try assumption.
    - now rewrite Hstudios1.
    - unfold ledgerAdmits. rewrite Hrec1, lookup_insert_eq.
      rewrite Hsize1. fold L.
      change (default 0 (size <$> recordings st !! (sid, pid))) with base.
      lia. }
  destruct (POST_accepted_ledger env2 req2 fd sid pid payload st1
              eq_refl Hc Hs Hp Hok2) as (r2 & _ & _ & _ & _ & _ & _ & Hb2 & _).
  destruct (accumulatedSize_after env2 req2 fd sid pid payload st1
              eq_refl Hc Hs Hp Hok2) as [H2 _].
  destruct (POST env2 req2 st1) as [st2 resp2] eqn:Hpost2.
  simpl in Hok2, Hb2, H2. rewrite H1 in H2. simpl in H2. fold L in H2.
  assert (H2' : accumulatedSize sid pid st2 = Some (base + 2 * L))
    by (rewrite H2; f_equal; lia).
  split; [exact Hok1|]. split; [exact Hok2|].
  split; [exact H1|]. split; [exact H2'|]. split; [|split].
  - intros Hfresh. rewrite H1, H2'. subst base. unfold accumulatedSize.
    rewrite Hfresh. simpl. split; f_equal; lia.
  - intros HL. rewrite H1, H2'. intros [= Heq]. lia.
  - rewrite Hb2, Hb1. apply insert_insert_eq.
Qed.

Lemma reingest_counts_size_twice_witness :
  let req := demoRequest "studio1" "user1" "3" [x01; x02; x03] in
  let '(st1, resp1) := POST demoEnv req demoServer in
  let '(st2, resp2) := POST demoEnv req st1 in
  responseStatus resp1 = 200%nat
  /\ responseStatus resp2 = 200%nat
  /\ accumulatedSize "studio1" "user1" st1 = Some 3
  /\ accumulatedSize "studio1" "user1" st2 = Some 6
  /\ bucket st2 = bucket st1.
Proof.
  pose proof (reingest_counts_size_twice demoEnv demoEnv demoUser demoUser
                [("chunk", FFile [x01; x02; x03]);
                 ("studioId", FString "studio1");
                 ("participantId", FString "user1");
                 ("chunkIndex", FString "3")]
                "studio1" "user1" [x01; x02; x03] demoServer) as H.
  cbn zeta in H. cbn zeta. unfold demoRequest.
  destruct (POST demoEnv _ demoServer) as [st1 resp1].
  destruct (POST demoEnv _ st1) as [st2 resp2].
  destruct H as (Hok1 & Hok2 & _ & _ & Hfresh & _ & Hbucket).
  - repeat split; reflexivity.
  - vm_compute. set_solver.
  - reflexivity.
  - reflexivity.
  - intros _. vm_compute. set_solver.
  - vm_compute. discriminate.
  - destruct (Hfresh eq_refl) as [H1 H2]. auto.
Defined.

(** C4 as stated, for every participant, fails: the same chunk ingested
    twice for a participant who is no registered user and has no row, as
    the guests of the call page are, is answered 500 both times. The
    object is stored, and the ledger holds no row for the pair, neither
    the payload length nor twice the payload length. *)
Lemma reingest_by_guest_counts_nothing :
  let req := demoRequest "studio1" "guest-k3x" "3" [x01; x02; x03] in
  let '(st1, resp1) := POST demoEnv req demoServer in
  let '(st2, resp2) := POST demoEnv req st1 in
  "studio1" ∈ studios demoServer
  /\ resp1 = json500 /\ resp2 = json500
  /\ bucket st1 !! "studio1/guest-k3x/chunk-00003.webm"
     = Some (Minio.mkObject [x01; x02; x03] "video/webm")
  /\ accumulatedSize "studio1" "guest-k3x" st1 = None
  /\ accumulatedSize "studio1" "guest-k3x" st2 = None
  /\ accumulatedSize "studio1" "guest-k3x" st2 <> Some (2 * 3)
  /\ st2 = st1.
Proof.
  vm_compute. split; [set_solver|]. repeat split. discriminate.
Qed.

(** C5. Three chunks of 1000, 2048 and 500 bytes ingested in this order
    for a participant without a ledger row who is a registered user, by
    well-formed requests of signed-in users, the studio existing and the
    object store answering: every request is accepted; the first creates
    the row with status uploading and size 1000, the second and the third
    add their lengths and keep the status, so the row ends with size 3548
    and status uploading. *)
Theorem three_chunks_accumulate env1 env2 env3 user1 user2 user3 fd1 fd2 fd3
    sid pid b1 b2 b3 st :
  uploadOf fd1 sid pid b1 -> uploadOf fd2 sid pid b2 ->
  uploadOf fd3 sid pid b3 ->
  length b1 = 1000%nat -> length b2 = 2048%nat -> length b3 = 500%nat ->
  sid ∈ studios st -> pid ∈ users st ->
  recordings st !! (sid, pid) = None ->
  minioUp env1 = true -> minioUp env2 = true -> minioUp env3 = true ->
  let '(st1, resp1) := POST env1 (mkRequest (Some user1) (Some fd1)) st in
  let '(st2, resp2) := POST env2 (mkRequest (Some user2) (Some fd2)) st1 in
  let '(st3, resp3) := POST env3 (mkRequest (Some user3) (Some fd3)) st2 in
  (responseStatus resp1 = 200%nat
   /\ accumulatedSize sid pid st1 = Some 1000
   /\ ledgerStatus sid pid st1 = Some uploading)
  /\ (responseStatus resp2 = 200%nat
      /\ accumulatedSize sid pid st2 = Some (1000 + 2048)
      /\ ledgerStatus sid pid st2 = Some uploading)
  /\ (responseStatus resp3 = 200%nat
      /\ accumulatedSize sid pid st3 = Some 3548
      /\ ledgerStatus sid pid st3 = Some uploading).
Proof.
  intros Hu1 Hu2 Hu3 Hl1 Hl2 Hl3 Hstudio Huser Hfresh Hup1 Hup2 Hup3.
  assert (Hstep : forall env user fd b st0 z,
            uploadOf fd sid pid b -> minioUp env = true ->
            sid ∈ studios st0 ->
            ledgerAdmits sid pid (Z.of_nat (length b)) st0 ->
            accumulatedSize sid pid st0 = z ->
            (z = None -> ledgerStatus sid pid st0 = None) ->
            (z <> None -> ledgerStatus sid pid st0 = Some uploading) ->
            let '(st', resp) := POST env (mkRequest (Some user) (Some fd)) st0 in
            responseStatus resp = 200%nat
            /\ accumulatedSize sid pid st'
               = Some (default 0 z + Z.of_nat (length b))
            /\ ledgerStatus sid pid st' = Some uploading
            /\ sid ∈ studios st'
            /\ recordings st' !! (sid, pid) <> None).
  { intros env user fd b st0 z Hu Hup Hst Hadm Hz Hnone Hsome.
    pose proof Hu as (Hc & Hs & Hp & _).
    pose proof (POST_accepts env user fd sid pid b st0 Hu Hst Hup Hadm) as Hok.
    set (req := mkRequest (Some user) (Some fd)) in *.
    destruct (POST_accepted_ledger env req fd sid pid b st0 eq_refl Hc Hs Hp Hok)
      as (r & Hrec & _ & _ & _ & Hstudios & _).
    destruct (accumulatedSize_after env req fd sid pid b st0 eq_refl Hc Hs Hp Hok)
      as [Hsz Hstat].
    destruct (POST env req st0) as [st' resp]. simpl in *.
    split; [exact Hok|]. split; [now rewrite Hsz, Hz|]. split.
    - rewrite Hstat. destruct z as [z|].
      + rewrite Hsome by discriminate. reflexivity.
      + rewrite Hnone by reflexivity. reflexivity.
    - split; [now rewrite Hstudios|].
      rewrite Hrec, lookup_insert_eq. discriminate. }
  assert (Hsmall : forall n : nat, (n <= 4000)%nat ->
            forall z, 0 <= z <= 4000 -> z + Z.of_nat n <= BIGINT_MAX).
  { intros n Hn z Hz. unfold BIGINT_MAX. lia. }
  pose proof (Hstep env1 user1 fd1 b1 st None Hu1 Hup1 Hstudio) as H1.
  destruct (POST env1 _ st) as [st1 resp1].
  destruct H1 as (Hok1 & Hz1 & Hs1 & Hst1 & Hrow1).
  { unfold ledgerAdmits. rewrite Hfresh. split; [exact Huser|].
    rewrite Hl1. unfold BIGINT_MAX. lia. }
  { unfold accumulatedSize. now rewrite Hfresh. }
  { intros _. unfold ledgerStatus. now rewrite Hfresh. }
  { intros Hne. now contradiction Hne. }
  rewrite Hl1 in Hz1. simpl in Hz1.
  pose proof (Hstep env2 user2 fd2 b2 st1 (Some 1000) Hu2 Hup2 Hst1) as H2.
  destruct (POST env2 _ st1) as [st2 resp2].
  destruct H2 as (Hok2 & Hz2 & Hs2 & Hst2 & Hrow2).
  { unfold ledgerAdmits. unfold accumulatedSize in Hz1.
    destruct (recordings st1 !! (sid, pid)) as [r|]; [|contradiction].
    simpl in Hz1. injection Hz1 as ->. apply Hsmall; lia. }
  { exact Hz1. }
  { discriminate. }
  { intros _. exact Hs1. }
  rewrite Hl2 in Hz2. simpl in Hz2.
  pose proof (Hstep env3 user3 fd3 b3 st2 (Some 3048) Hu3 Hup3 Hst2) as H3.
  destruct (POST env3 _ st2) as [st3 resp3].
  destruct H3 as (Hok3 & Hz3 & Hs3 & _ & _).
  { unfold ledgerAdmits. unfold accumulatedSize in Hz2.
    destruct (recordings st2 !! (sid, pid)) as [r|]; [|contradiction].
    simpl in Hz2. injection Hz2 as ->. apply Hsmall; lia. }
  { exact Hz2. }
  { discriminate. }
  { intros _. exact Hs2. }
  rewrite Hl3 in Hz3. simpl in Hz3.
  repeat split; assumption.
Qed.

Lemma three_chunks_accumulate_witness :
  let req n i := demoRequest "studio1" "user1" i (repeat x00 n) in
  let '(st1, resp1) := POST demoEnv (req 1000%nat "0") demoServer in
  let '(st2, resp2) := POST demoEnv (req 2048%nat "1") st1 in
  let '(st3, resp3) := POST demoEnv (req 500%nat "2") st2 in
  (responseStatus resp1 = 200%nat
   /\ accumulatedSize "studio1" "user1" st1 = Some 1000
   /\ ledgerStatus "studio1" "user1" st1 = Some uploading)
  /\ (responseStatus resp2 = 200%nat
      /\ accumulatedSize "studio1" "user1" st2 = Some (1000 + 2048)
      /\ ledgerStatus "studio1" "user1" st2 = Some uploading)
  /\ (responseStatus resp3 = 200%nat
      /\ accumulatedSize "studio1" "user1" st3 = Some 3548
      /\ ledgerStatus "studio1" "user1" st3 = Some uploading).
Proof.
  intros req.
  apply (three_chunks_accumulate demoEnv demoEnv demoEnv
           demoUser demoUser demoUser _ _ _ "studio1" "user1"
           (repeat x00 1000) (repeat x00 2048) (repeat x00 500) demoServer).
  - repeat split; reflexivity.
  - repeat split; reflexivity.
  - repeat split; reflexivity.
  - apply repeat_length.
  - apply repeat_length.
  - apply repeat_length.
  - vm_compute. set_solver.
  - vm_compute. set_solver.
  - reflexivity.
  - reflexivity.
  - reflexivity.
  - reflexivity.
Defined.

(** C5 as stated, for every fresh pair of an existing studio, fails: for
    a participant who is no registered user the three chunks are each
    answered 500, no row is created, and the ledger holds neither a size
    nor a status for the pair. *)
Lemma three_chunks_by_guest_leave_no_row :
  let req n i := demoRequest "studio1" "guest-k3x" i (repeat x00 n) in
  let '(st1, resp1) := POST demoEnv (req 1000%nat "0") demoServer in
  let '(st2, resp2) := POST demoEnv (req 2048%nat "1") st1 in
  let '(st3, resp3) := POST demoEnv (req 500%nat "2") st2 in
  "studio1" ∈ studios demoServer
  /\ recordings demoServer !! ("studio1", "guest-k3x") = None
  /\ resp1 = json500 /\ resp2 = json500 /\ resp3 = json500
  /\ accumulatedSize "studio1" "guest-k3x" st3 = None
  /\ accumulatedSize "studio1" "guest-k3x" st3 <> Some 3548
  /\ ledgerStatus "studio1" "guest-k3x" st3 = None
  /\ recordings st3 = ∅.
Proof.
  vm_compute. split; [set_solver|]. repeat split. discriminate.
Qed.

End Accounting.


(** ** From the recorder to the bucket *)

Section EndToEnd.

Import Route.

(** The request [uploadChunk] sends for segment [i] of a service, once
    accepted, stores the segment under the name of index [i] of that
    participant and adds its length to the participant's ledger row. *)
Lemma recorder_upload_stored env user (s : Recorder.Service) blob i st :
  let req := mkRequest (Some user) (Some (Recorder.uploadForm s blob i)) in
  let sid := Recorder.studioId s in
  let pid := Recorder.participantId s in
  responseStatus (snd (POST env req st)) = 200%nat ->
  bucket (fst (POST env req st))
  = <[Minio.objectName sid pid (JS.Int i) := Minio.mkObject blob "video/webm"]>
      (bucket st)
  /\ accumulatedSize sid pid (fst (POST env req st))
     = Some (default 0 (accumulatedSize sid pid st) + Z.of_nat (length blob)).
Proof.
  intros req sid pid Hok.
  assert (Hidx : JS.parseInt (ToString (get "chunkIndex"
                                          (Recorder.uploadForm s blob i)))
                 = JS.Int i) by apply parseInt_Z_toString.
  destruct (POST_accepted_ledger env req (Recorder.uploadForm s blob i)
              sid pid blob st eq_refl eq_refl eq_refl eq_refl Hok)
    as (r & _ & _ & _ & _ & _ & _ & Hb & _).
  rewrite Hidx in Hb. split; [exact Hb|].
  apply (accumulatedSize_after env req (Recorder.uploadForm s blob i)
           sid pid blob st eq_refl eq_refl eq_refl eq_refl Hok).
Qed.

End EndToEnd.

(** ** The recorder service *)

Section RecorderClaims.

Import Recorder.

Implicit Types (b : Browser) (s : Service) (rt : Runtime).

(** C8. [startRecording] on a service that is recording returns at once,
    without waiting for anything: the promise resolves, the only effect is
    the warning, no stream is asked for and no recorder is made, and the
    service, its recorder included, is what it was. *)
Theorem startRecording_while_recording b ts s fl acq :
  isRecording s = true ->
  startRecordingBegin b ts s
  = Some (s, [ConsoleWarn "Recording already in progress"], Resolved tt)
  /\ startRecording b ts s
     = (s, [ConsoleWarn "Recording already in progress"], Resolved tt)
  /\ step b (CallStartRecording ts) (mkRuntime s fl acq)
     = (mkRuntime s fl acq, [ConsoleWarn "Recording already in progress"]).
Proof.
  intros Hrec.
  assert (H : startRecordingBegin b ts s
              = Some (s, [ConsoleWarn "Recording already in progress"],
                      Resolved tt)).
  { unfold startRecordingBegin. now rewrite Hrec. }
  split; [exact H|]. split.
  - unfold startRecording. now rewrite H.
  - simpl. now rewrite H.
Qed.

Lemma startRecording_while_recording_witness :
  let s := fst (fst (startRecording demoBrowser None (service demoRuntime))) in
  isRecording s = true
  /\ step demoBrowser (CallStartRecording (Some 5000%N)) (mkRuntime s [] [])
     = (mkRuntime s [] [], [ConsoleWarn "Recording already in progress"]).
Proof.
  intros s. split; [reflexivity|].
  exact (proj2 (proj2 (startRecording_while_recording demoBrowser
                         (Some 5000%N) s [] [] eq_refl))).
Defined.

(** When both codecs are refused the constructor throws and
    [startRecording] rejects. *)
Lemma startRecordingWithStream_no_codec b ts s m :
  isTypeSupported b vp9 = false -> isTypeSupported b vp8 = false ->
  localStream s = Some m ->
  startRecordingWithStream b ts s
  = (s, ConsoleError "Failed to start recording"
          :: callOnError s "NotSupportedError", Rejected "NotSupportedError").
Proof.
  intros H9 H8 Hm.
  unfold startRecordingWithStream, newMediaRecorder, recorderOptions.
  rewrite Hm, H9. cbn [mimeType]. now rewrite H8.
Qed.

Lemma startRecording_no_codec b ts s m :
  isRecording s = false -> localStream s = Some m ->
  isTypeSupported b vp9 = false -> isTypeSupported b vp8 = false ->
  startRecording b ts s
  = (s, ConsoleError "Failed to start recording"
          :: callOnError s "NotSupportedError", Rejected "NotSupportedError").
Proof.
  intros Hrec Hm H9 H8.
  unfold startRecording, startRecordingBegin.
  rewrite Hrec, Hm. now apply (startRecordingWithStream_no_codec b _ s m).
Qed.

Lemma startRecordingWithStream_vp8 b ts s m :
  isTypeSupported b vp9 = false -> isTypeSupported b vp8 = true ->
  localStream s = Some m ->
  let r := mkRecorder m (mkOptions vp8 8000000 256000) recording (Some ts) in
  startRecordingWithStream b ts s
  = (setIsRecording (setRecorder s (Some r)) true,
     [RecorderStarted r; ConsoleLog "Started recording"], Resolved tt).
Proof.
  intros H9 H8 Hm r.
  unfold startRecordingWithStream, newMediaRecorder, recorderOptions.
  rewrite Hm, H9. cbn [mimeType]. rewrite H8. reflexivity.
Qed.

(** C9. When the browser does not record VP9 the options name VP8, which
    is not tested, and the recorder is built with them. For a service
    that is not recording and has or is granted its stream: if the
    browser records VP8, [startRecording] starts a VP8 recorder, the
    promise resolves and no error is reported; if it does not record VP8
    either, the constructor throws NotSupportedError, which is reported
    to [onError] and thrown again, no recorder is kept and the service is
    not recording. *)
Theorem startRecording_falls_back_to_vp8 b ts s :
  isTypeSupported b vp9 = false ->
  mimeType (recorderOptions b) = vp8
  /\ (isTypeSupported b vp8 = true ->
      isRecording s = false ->
      (is_Some (localStream s)
       \/ exists m, getUserMedia b highQuality = Resolved m) ->
      exists s' r,
        startRecording b ts s
        = (s', match localStream s with
                | Some _ => []
                | None => [GetUserMedia highQuality]
                end
                 ++ [RecorderStarted r; ConsoleLog "Started recording"],
           Resolved tt)
        /\ isRecording s' = true
        /\ mediaRecorder s' = Some r
        /\ mimeType (options r) = vp8
        /\ state r = recording
        /\ timeslice r = Some (default 10000%N ts))
  /\ (isTypeSupported b vp8 = false ->
      isRecording s = false ->
      (is_Some (localStream s)
       \/ exists m, getUserMedia b highQuality = Resolved m) ->
      exists s',
        startRecording b ts s
        = (s', match localStream s with
                | Some _ => []
                | None => [GetUserMedia highQuality]
                end
                 ++ ConsoleError "Failed to start recording"
                      :: callOnError s "NotSupportedError",
           Rejected "NotSupportedError")
        /\ isRecording s' = false
        /\ mediaRecorder s' = mediaRecorder s).
Proof.
  intros H9. split; [|split].
  { unfold recorderOptions. now rewrite H9. }
  - intros H8 Hrec Hstream.
    unfold startRecording, startRecordingBegin, startRecordingResume,
      initializeStream.
    rewrite Hrec. destruct (localStream s) as [m|] eqn:Hm.
    + rewrite (startRecordingWithStream_vp8 b _ s m H9 H8 Hm).
      do 2 eexists. repeat split.
    + destruct Hstream as [[m' Hm']|[m' Hm']]; [discriminate|].
      rewrite Hm'.
      rewrite (startRecordingWithStream_vp8 b _ (setStream s (Some m')) m' H9 H8
                 eq_refl).
      do 2 eexists. repeat split.
  - intros H8 Hrec Hstream.
    unfold startRecording, startRecordingBegin, startRecordingResume,
      initializeStream.
    rewrite Hrec. destruct (localStream s) as [m|] eqn:Hm.
    + rewrite (startRecordingWithStream_no_codec b _ s m H9 H8 Hm).
      eexists. repeat split. exact Hrec.
    + destruct Hstream as [[m' Hm']|[m' Hm']]; [discriminate|].
      rewrite Hm'.
      rewrite (startRecordingWithStream_no_codec b _ (setStream s (Some m')) m'
                 H9 H8 eq_refl).
      eexists. repeat split. exact Hrec.
Qed.

Lemma startRecording_falls_back_to_vp8_witness :
  mimeType (recorderOptions demoBrowser) = vp8
  /\ exists s' r,
       startRecording demoBrowser None (service demoRuntime)
       = (s', match localStream (service demoRuntime) with
               | Some _ => []
               | None => [GetUserMedia highQuality]
               end
                ++ [RecorderStarted r; ConsoleLog "Started recording"],
          Resolved tt)
       /\ isRecording s' = true
       /\ mediaRecorder s' = Some r
       /\ mimeType (options r) = vp8
       /\ state r = recording
       /\ timeslice r = Some (default 10000%N None).
Proof.
  destruct (startRecording_falls_back_to_vp8 demoBrowser None
              (service demoRuntime) eq_refl) as (Hopt & Hstart & _).
  split; [exact Hopt|].
  apply Hstart; [reflexivity | reflexivity |].
  right. eexists. reflexivity.
Defined.

(** C9 as stated, for every browser without VP9, fails: in a browser that
    grants the stream and records neither VP9 nor VP8, [startRecording]
    does not proceed. The options name VP8, the constructor refuses them,
    and the call rejects with NotSupportedError after reporting it to
    [onError]; the service has the stream, no recorder, and is not
    recording. *)
Lemma startRecording_fails_without_vp8 :
  let b := mkBrowser (fun _ => Resolved (mkStream 1)) (fun _ => false) in
  let s := service demoRuntime in
  isTypeSupported b vp9 = false
  /\ isRecording s = false
  /\ mimeType (recorderOptions b) = vp8
  /\ startRecording b None s
     = (setStream s (Some (mkStream 1)),
        [GetUserMedia highQuality; ConsoleError "Failed to start recording";
         CallOnError "NotSupportedError"],
        Rejected "NotSupportedError")
  /\ isRecording (fst (fst (startRecording b None s))) = false
  /\ mediaRecorder (fst (fst (startRecording b None s))) = None.
Proof. repeat split. Qed.

End RecorderClaims.

(** ** The recording-state handler *)

Section Handler.

Import Recorder.

Implicit Types (b : Browser) (s : Service).

(** A second [startRecording] in the same browser, after the first has
    settled, leaves the service as the first one left it. *)
Lemma startRecording_idempotent b ts s :
  let s1 := fst (fst (startRecording b ts s)) in
  fst (fst (startRecording b ts s1)) = s1.
Proof.
  unfold startRecording, startRecordingBegin, startRecordingResume,
    startRecordingWithStream, initializeStream, newMediaRecorder, start.
  generalize (recorderOptions b) highQuality. intros o q.
  destruct s as [mr ls ci sid pid rec cb1 cb2]. simpl.
  destruct rec; [reflexivity|]. simpl.
  destruct ls as [m|]; simpl;
    [|destruct (getUserMedia b q) as [m|e] eqn:Hget; simpl;
      [|reflexivity]];
    destruct (isTypeSupported b (mimeType o)) eqn:Hsup; simpl;
    rewrite ?Hsup; reflexivity.
Qed.

Lemma stop_idempotent r : fst (stop (fst (stop r))) = fst (stop r).
Proof. unfold stop. destruct r as [m o [] t]; reflexivity. Qed.

Lemma stopRecording_idempotent s :
  let s1 := fst (stopRecording s) in
  fst (stopRecording s1) = s1.
Proof.
  unfold stopRecording.
  destruct s as [[r|] ls ci sid pid [] cb1 cb2]; simpl; try reflexivity.
  destruct (stop r) as [r' q] eqn:Hstop. simpl.
  pose proof (stop_idempotent r) as Hidem. rewrite Hstop in Hidem. simpl in Hidem.
  destruct (stop r') as [r'' q'] eqn:Hstop'. simpl in *. now subst.
Qed.

Lemma applyCallbacks_startRecordingResume b ts answer s st :
  StudioCall.applyCallbacks (snd (fst (startRecordingResume b ts answer s))) st
  = st.
Proof.
  unfold startRecordingResume, startRecordingWithStream, initializeStream,
    newMediaRecorder, start, callOnError.
  destruct answer as [m|e]; simpl.
  - destruct (isTypeSupported b _); simpl; [reflexivity|].
    destruct (onError s); reflexivity.
  - destruct (onError s); reflexivity.
Qed.

(** The handler with its continuation is the store update followed by
    [startRecording] or [stopRecording] run to its end. *)
Lemma onRecordingStateSettled_service b (v : bool) st s fl acq :
  fst (StudioCall.onRecordingStateSettled b v
         (StudioCall.mkClient st (Some (mkRuntime s fl acq))))
  = StudioCall.mkClient (StudioCall.setIsRecording v st)
      (Some (mkRuntime
               (if v then fst (fst (startRecording b (Some 10000%N) s))
                else fst (stopRecording s)) fl acq)).
Proof.
  unfold StudioCall.onRecordingStateSettled, StudioCall.onRecordingState.
  destruct v; simpl.
  - unfold StudioCall.startLocalRecording, startRecording. simpl.
    destruct (startRecordingBegin b (Some 10000%N) s) as [[[s1 effs1] res1]|]
      eqn:Hbegin; simpl.
    + now rewrite Nat.ltb_irrefl.
    + rewrite length_app. simpl.
      replace (length acq <? length acq + 1)%nat with true
        by (symmetry; apply Nat.ltb_lt; lia).
      simpl. rewrite lookup_app_r by reflexivity.
      rewrite Nat.sub_diag. simpl.
      pose proof (applyCallbacks_startRecordingResume b 10000%N
                    (getUserMedia b highQuality) s
                    (StudioCall.setIsRecording true st)) as Hcb.
      destruct (startRecordingResume b 10000%N (getUserMedia b highQuality) s)
        as [[s2 effs2] res2]. simpl in *. rewrite Hcb.
      f_equal. f_equal. f_equal.
      rewrite delete_middle. apply app_nil_r.
  - unfold StudioCall.stopLocalRecording. simpl.
    destruct (stopRecording s) as [s1 effs1]. simpl.
    now rewrite Nat.ltb_irrefl.
Qed.

(** What C7 says holds when each handling has run to its end, the stream
    request answered, before the next event arrives: handling the same
    value again leaves the store, the service and its recorder as they
    were. *)
Lemma recording_state_idempotent_when_settled b (v : bool)
    (c : StudioCall.Client) :
  let once := fst (StudioCall.onRecordingStateSettled b v c) in
  fst (StudioCall.onRecordingStateSettled b v once) = once.
Proof.
  destruct c as [st [[s fl acq]|]].
  - cbn zeta. rewrite !onRecordingStateSettled_service.
    destruct v.
    + pose proof (startRecording_idempotent b (Some 10000%N) s) as H.
      cbn zeta in H. now rewrite H.
    + pose proof (stopRecording_idempotent s) as H.
      cbn zeta in H. now rewrite H.
  - destruct v; reflexivity.
Qed.

(** C7, on a page that has not recorded yet: [recording-state] with
    [true] arrives twice before the browser has answered the first request
    for the stream. The second handling finds [isRecording] still false
    and asks for a second stream; when both requests are granted two
    recorders are started, the service keeps the second and the first goes
    on capturing. Handled once, the event starts one recorder. *)
Theorem repeated_recording_state_starts_two_recorders :
  let granted n := Resolved (mkStream n) in
  let settle k n := StudioCall.ServiceTask (StreamSettled k (granted n)) in
  let vp8Recorder n :=
    mkRecorder (mkStream n) (mkOptions vp8 8000000 256000) recording
      (Some 10000%N) in
  let '(once, effs1) :=
    StudioCall.run demoBrowser
      [StudioCall.RecordingState true; settle 0%nat 1%nat] demoClient in
  let '(twice, effs2) :=
    StudioCall.run demoBrowser
      [StudioCall.RecordingState true; StudioCall.RecordingState true;
       settle 0%nat 1%nat; settle 0%nat 2%nat] demoClient in
  startedRecorders effs1 = [vp8Recorder 1%nat]
  /\ startedRecorders effs2 = [vp8Recorder 1%nat; vp8Recorder 2%nat]
  /\ (mediaRecorder ∘ service <$> StudioCall.mediaRecorderService once)
     = Some (Some (vp8Recorder 1%nat))
  /\ (mediaRecorder ∘ service <$> StudioCall.mediaRecorderService twice)
     = Some (Some (vp8Recorder 2%nat))
  /\ twice <> once
  /\ fst (StudioCall.run demoBrowser
            [StudioCall.RecordingState true; StudioCall.RecordingState true]
            demoClient)
     <> fst (StudioCall.run demoBrowser [StudioCall.RecordingState true]
               demoClient).
Proof. vm_compute. repeat split; discriminate. Qed.

End Handler.
(** ** Chunk indices *)

Section ChunkIndices.

Import Recorder.

Implicit Types (b : Browser) (s : Service) (rt : Runtime).

Lemma sentIndices_app effs1 effs2 :
  sentIndices (effs1 ++ effs2) = sentIndices effs1 ++ sentIndices effs2.
Proof. apply omap_app. Qed.

Lemma reportedIndices_app effs1 effs2 :
  reportedIndices (effs1 ++ effs2)
  = reportedIndices effs1 ++ reportedIndices effs2.
Proof. apply omap_app. Qed.

Lemma sentIndices_callOnError s e : sentIndices (callOnError s e) = [].
Proof. unfold callOnError. now destruct (onError s). Qed.


Lemma sentIndices_callOnChunkUploaded s i :
  sentIndices (callOnChunkUploaded s i) = [].
Proof. unfold callOnChunkUploaded. now destruct (onChunkUploaded s). Qed.

(** Starting, stopping and the recorder's own events neither send a chunk
    nor move the counter. *)
Lemma startRecordingWithStream_keeps_index b ts s :
  chunkIndex (fst (fst (startRecordingWithStream b ts s))) = chunkIndex s
  /\ sentIndices (snd (fst (startRecordingWithStream b ts s))) = [].
Proof.
  unfold startRecordingWithStream, newMediaRecorder, start.
  generalize (recorderOptions b). intros o.
  destruct (localStream s) as [m|]; [|split; reflexivity].
  destruct (isTypeSupported b (mimeType o)); simpl.
  - split; reflexivity.
  - split; [reflexivity | apply sentIndices_callOnError].
Qed.

Lemma startRecordingBegin_keeps_index b ts s s' effs res :
  startRecordingBegin b ts s = Some (s', effs, res) ->
  chunkIndex s' = chunkIndex s /\ sentIndices effs = [].
Proof.
  unfold startRecordingBegin. intros H.
  destruct (isRecording s); [simplify_eq; split; reflexivity|].
  destruct (localStream s); [|discriminate]. simplify_eq.
  pose proof (startRecordingWithStream_keeps_index b (default 10000%N ts) s)
    as [Hc He].
  rewrite H in Hc, He. exact (conj Hc He).
Qed.

Lemma startRecordingResume_keeps_index b ts answer s :
  chunkIndex (fst (fst (startRecordingResume b ts answer s))) = chunkIndex s
  /\ sentIndices (snd (fst (startRecordingResume b ts answer s))) = [].
Proof.
  unfold startRecordingResume, initializeStream.
  destruct answer as [m|e]; simpl.
  - pose proof (startRecordingWithStream_keeps_index b ts
                  (setStream s (Some m))) as [Hc He].
    destruct (startRecordingWithStream b ts (setStream s (Some m)))
      as [[s2 effs2] res]. simpl in *. split; assumption.
  - split; [reflexivity | apply sentIndices_callOnError].
Qed.

Lemma stopRecording_keeps_index s :
  chunkIndex (fst (stopRecording s)) = chunkIndex s
  /\ sentIndices (snd (stopRecording s)) = [].
Proof.
  unfold stopRecording.
  destruct (isRecording s), (mediaRecorder s) as [r|]; try (split; reflexivity).
  destruct (stop r) as [r' []]; split; reflexivity.
Qed.

Lemma seqZ_succ (m : Z) (n : nat) :
  seqZ m (Z.of_nat (S n)) = m :: seqZ (m + 1) (Z.of_nat n).
Proof.
  rewrite seqZ_cons by lia. f_equal. f_equal; lia.
Qed.

(** With one upload at a time, all of them successful, the requests carry
    consecutive indices, starting at the counter (or just after it when an
    upload is pending). *)
Lemma oneAtATime_run b ts : forall rt pending,
  oneAtATime pending ts = true ->
  (if pending then exists p, inflight rt = [p] else inflight rt = []) ->
  let first := chunkIndex (service rt) + (if pending then 1 else 0) in
  let sent := sentIndices (snd (run b ts rt)) in
  sent = JS.Z_toString <$> seqZ first (Z.of_nat (length sent)).
Proof.
  induction ts as [|t ts IH]; intros rt pending Hsched Hinv; [reflexivity|].
  cbn [run]. destruct (step b t rt) as [rt1 effs1] eqn:Hstep.
  destruct (run b ts rt1) as [rt2 effs2] eqn:Hrun. cbn [snd].
  rewrite sentIndices_app.
  assert (Hrest : forall pending',
            oneAtATime pending' ts = true ->
            (if pending' then exists p, inflight rt1 = [p]
             else inflight rt1 = []) ->
            sentIndices effs2
            = JS.Z_toString
                <$> seqZ (chunkIndex (service rt1) + (if pending' then 1 else 0))
                      (Z.of_nat (length (sentIndices effs2)))).
  { intros pending' Hs Hi. specialize (IH rt1 pending' Hs Hi).
    rewrite Hrun in IH. exact IH. }
  assert (Hquiet : chunkIndex (service rt1) = chunkIndex (service rt) ->
                   inflight rt1 = inflight rt -> sentIndices effs1 = [] ->
                   oneAtATime pending ts = true ->
                   sentIndices effs1 ++ sentIndices effs2
                   = JS.Z_toString
                       <$> seqZ (chunkIndex (service rt)
                                 + (if pending then 1 else 0))
                             (Z.of_nat (length (sentIndices effs1
                                                 ++ sentIndices effs2)))).
  { intros Hc Hi He Hs. rewrite He. simpl. rewrite <- Hc.
    apply Hrest; [exact Hs | now rewrite Hi]. }
  destruct t as [ts'|k answer| | |data|k r| |e]; simpl in Hstep.
  - destruct (startRecordingBegin b ts' (service rt)) as [[[s effs] res]|]
      eqn:Hs; simplify_eq.
    + apply startRecordingBegin_keeps_index in Hs as [Hc He].
      now apply Hquiet.
    + now apply Hquiet.
  - destruct (acquiring rt !! k) as [ts'|]; simplify_eq;
      [|now apply Hquiet].
    pose proof (startRecordingResume_keeps_index b ts' answer (service rt))
      as [Hc He].
    destruct (startRecordingResume b ts' answer (service rt))
      as [[s effs] res]. simplify_eq. now apply Hquiet.
  - destruct (stopRecording (service rt)) as [s effs] eqn:Hs.
    pose proof (stopRecording_keeps_index (service rt)) as [Hc He].
    rewrite Hs in Hc, He. simplify_eq. now apply Hquiet.
  - discriminate.
  - destruct data as [[|x blob]|]; simpl in Hstep; simplify_eq;
      try (now apply Hquiet).
    simpl in Hsched. apply andb_true_iff in Hsched as [Hp Hs].
    destruct pending; [discriminate|]. simpl in Hinv.
    simpl. rewrite seqZ_succ, fmap_cons. f_equal.
    + f_equal. lia.
    + replace (chunkIndex (service rt) + 0 + 1)
        with (chunkIndex (service rt) + 1) by lia.
      apply (Hrest true Hs). simpl. rewrite Hinv. eexists. reflexivity.
  - simpl in Hsched. rewrite !andb_true_iff in Hsched.
    destruct Hsched as (((Hp & Hk) & Hok) & Hs).
    destruct pending; [|discriminate]. destruct Hinv as [p Hp'].
    apply Nat.eqb_eq in Hk. subst k. rewrite Hp' in Hstep. simpl in Hstep.
    unfold ondataavailableResume, uploadChunkSettle in Hstep.
    destruct r as [e|[] [j|]]; try discriminate. simplify_eq.
    rewrite sentIndices_app, sentIndices_callOnChunkUploaded. simpl.
    specialize (Hrest false Hs eq_refl). simpl in Hrest.
    now rewrite Z.add_0_r in Hrest.
  - simplify_eq. now apply Hquiet.
  - simplify_eq. apply Hquiet; try reflexivity; [|exact Hsched].
    simpl. apply sentIndices_callOnError.
Qed.

(** The behaviour the spec describes, on the schedules where it holds:
    from a new service, with every upload successful and answered before
    the next segment is produced, the N requests sent carry the indices
    0, 1, ..., N-1 in this order, across any stops and restarts. *)
Lemma serial_uploads_consecutive b sid pid cb1 cb2 ts :
  oneAtATime false ts = true ->
  let sent := sentIndices (snd (run b ts (mkRuntime (new sid pid cb1 cb2) [] []))) in
  sent = JS.Z_toString <$> seqZ 0 (Z.of_nat (length sent)).
Proof.
  intros Hs.
  exact (oneAtATime_run b ts (mkRuntime (new sid pid cb1 cb2) [] []) false Hs
           eq_refl).
Qed.

(** C1, on a schedule the recorder produces: recording starts, the first
    segment is cut and sent, recording is stopped before that upload is
    answered, and the recorder flushes its last segment. Both uploads
    succeed. Both requests carry index 0, the callback then reports 0 and
    1, and the counter ends at 2; on the server the second segment
    replaces the first under chunk-00000.webm while the ledger counts
    both. *)
Theorem overlapping_uploads_share_index :
  let '(rt, effs) :=
    run demoBrowser
      [CallStartRecording (Some 10000%N);
       StreamSettled 0 (Resolved (mkStream 1));
       DataAvailable (Some [x01; x02; x03]);
       CallStopRecording;
       DataAvailable (Some [x04; x05]);
       RecorderStop;
       FetchSettled 0 demoOk;
       FetchSettled 0 demoOk] demoRuntime in
  sentIndices effs = ["0"; "0"]
  /\ reportedIndices effs = [0; 1]
  /\ chunkIndex (service rt) = 2
  /\ inflight rt = []
  /\ let '(st, resps) := serve demoEnv (requestsOf demoUser effs) demoServer in
     map Route.responseStatus resps = [200%nat; 200%nat]
     /\ map_to_list (Route.bucket st)
        = [("studio1/user1/chunk-00000.webm",
            Minio.mkObject [x04; x05] "video/webm")]
     /\ accumulatedSize "studio1" "user1" st = Some 5.
Proof. vm_compute. repeat split. Qed.

(** While no upload succeeds the counter stays where it is: whatever is
    started, stopped, produced or refused meanwhile, every segment is
    sent with the same index and the success callback is not called. *)
Lemma uploads_without_success_share_index b ts : forall rt,
  Forall (fun t => t <> CallCleanup
                   /\ forall k r, t = FetchSettled k r -> uploadSucceeds r = false)
         ts ->
  let '(rt', effs) := run b ts rt in
  chunkIndex (service rt') = chunkIndex (service rt)
  /\ reportedIndices effs = []
  /\ Forall (fun i => i = JS.Z_toString (chunkIndex (service rt)))
            (sentIndices effs).
Proof.
  induction ts as [|t ts IH]; intros rt Hts.
  { simpl. auto. }
  apply Forall_cons in Hts as [[Hclean Hfail] Hts].
  cbn [run]. destruct (step b t rt) as [rt1 effs1] eqn:Hstep.
  specialize (IH rt1 Hts). destruct (run b ts rt1) as [rt2 effs2].
  destruct IH as (Hc2 & Hr2 & Hs2).
  assert (Hone : chunkIndex (service rt1) = chunkIndex (service rt)
                 /\ reportedIndices effs1 = []
                 /\ Forall (fun i => i = JS.Z_toString (chunkIndex (service rt)))
                           (sentIndices effs1)).
  { destruct t as [ts'|k answer| | |data|k r| |e]; simpl in Hstep.
    - destruct (startRecordingBegin b ts' (service rt)) as [[[s effs] res]|]
        eqn:Hs; simplify_eq; [|auto].
      unfold startRecordingBegin, startRecordingWithStream, newMediaRecorder,
        start, callOnError in Hs.
      repeat case_match; simplify_eq; simpl; auto.
    - destruct (acquiring rt !! k) as [ts'|]; simplify_eq; [|auto].
      destruct (startRecordingResume b ts' answer (service rt))
        as [[s effs] res] eqn:Hs. simplify_eq.
      unfold startRecordingResume, startRecordingWithStream, initializeStream,
        newMediaRecorder, start, callOnError in Hs.
      repeat case_match; simplify_eq; simpl; auto.
    - unfold stopRecording in Hstep.
      repeat case_match; simplify_eq; simpl; auto.
    - contradiction.
    - unfold ondataavailable in Hstep.
      repeat case_match; simplify_eq; simpl; auto.
    - specialize (Hfail k r eq_refl).
      destruct (inflight rt !! k) as [p|]; simplify_eq; [|auto].
      unfold ondataavailableResume, uploadChunkSettle, callOnError in Hstep.
      destruct r as [e|[] [[e|]|]]; try discriminate;
        repeat case_match; simplify_eq; simpl; auto.
    - simplify_eq. simpl. auto.
    - simplify_eq. unfold callOnError. simpl.
      destruct (onError (service rt)); simpl; auto. }
  destruct Hone as (Hc1 & Hr1 & Hs1).
  rewrite reportedIndices_app, sentIndices_app, Hr1, Hr2.
  split; [congruence|]. split; [reflexivity|].
  apply Forall_app. split; [exact Hs1|]. now rewrite <- Hc1.
Qed.



End ChunkIndices.

(** ** What the ingestion endpoint writes *)

Section IngestBehaviour.

Import Route.

Lemma rowGrown_refl r : rowGrown r r.
Proof. unfold rowGrown. repeat split; reflexivity. Qed.

Lemma rowGrown_trans r1 r2 r3 : rowGrown r1 r2 -> rowGrown r2 r3 -> rowGrown r1 r3.
Proof.
  unfold rowGrown.
  intros (? & ? & ? & ? & ? & ? & ? & ? & ?) (? & ? & ? & ? & ? & ? & ? & ? & ?).
  repeat split; try congruence. lia.
Qed.

Lemma storeGrown_refl st : storeGrown st st.
Proof.
  repeat split; [|auto]. intros k r H. exists r. split; [exact H|apply rowGrown_refl].
Qed.

Lemma storeGrown_trans st1 st2 st3 :
  storeGrown st1 st2 -> storeGrown st2 st3 -> storeGrown st1 st3.
Proof.
  intros (Hs1 & Hu1 & Hr1 & Hb1) (Hs2 & Hu2 & Hr2 & Hb2).
  split; [congruence|]. split; [congruence|]. split.
  - intros k r H. destruct (Hr1 k r H) as (r' & H' & Hg).
    destruct (Hr2 k r' H') as (r'' & H'' & Hg').
    exists r''. split; [exact H''|]. eapply rowGrown_trans; eassumption.
  - auto.
Qed.

Lemma POST_effect env req st :
  responseStatus (snd (POST env req st)) ∈ [200; 400; 401; 404; 500]%nat
  /\ studios (fst (POST env req st)) = studios st
  /\ users (fst (POST env req st)) = users st
  /\ (responseStatus (snd (POST env req st)) <> 200%nat ->
      recordings (fst (POST env req st)) = recordings st)
  /\ (responseStatus (snd (POST env req st)) <> 200%nat ->
      responseStatus (snd (POST env req st)) <> 500%nat ->
      fst (POST env req st) = st)
  /\ (responseStatus (snd (POST env req st)) = 500%nat ->
      bucket (fst (POST env req st)) = bucket st
      \/ exists name payload,
           bucket (fst (POST env req st))
           = <[name := Minio.mkObject payload "video/webm"]> (bucket st)).
Proof.
  unfold POST, json500, Minio.uploadChunk, Minio.putObject.
  destruct (session req) as [user|]; [|simpl; repeat split; try set_solver; auto].
  destruct (formData req) as [fd|]; [|simpl; repeat split; try set_solver; auto].
  cbv zeta.
  destruct (falsy _ || falsy _ || falsy _ || JS.isNaN _);
    [simpl; repeat split; try set_solver; auto; discriminate|].
  destruct (get "studioId" fd) as [[sid|]|];
    [|simpl; repeat split; try set_solver; auto..].
  destruct (bool_decide (sid ∈ studios st));
    [|simpl; repeat split; try set_solver; auto; discriminate].
  destruct (get "chunk" fd) as [[|buffer]|];
    [simpl; repeat split; try set_solver; auto| |simpl; repeat split; try set_solver; auto].
  destruct (minioUp env); [|simpl; repeat split; try set_solver; auto].
  destruct (get "participantId" fd) as [[pid|]|];
    [|simpl; repeat split; try set_solver; eauto..].
  destruct (upsert _ _ _ _ _ _ _) as [[st2 r]|e] eqn:Hup.
  - apply upsert_resolved in Hup. destruct Hup as (-> & _ & _). simpl.
    repeat split; try set_solver; try congruence.
  - simpl. repeat split; try set_solver; eauto.
Qed.

(** X1. What one request may change: the answer is one of five statuses; the
    Studio and User tables are never written; the ledger is written only
    with the answer 200; with an answer other than 200 and 500 nothing at
    all is written, and an unauthenticated request is answered 401 before
    its body is read. With 500 the bucket is as it was or holds one more
    chunk. *)
Theorem POST_writes_only_when_accepted env req st :
  let '(st', resp) := POST env req st in
  responseStatus resp ∈ [200; 400; 401; 404; 500]%nat
  /\ studios st' = studios st /\ users st' = users st
  /\ (responseStatus resp <> 200%nat -> recordings st' = recordings st)
  /\ (responseStatus resp <> 200%nat -> responseStatus resp <> 500%nat ->
      st' = st)
  /\ (responseStatus resp = 500%nat ->
      bucket st' = bucket st
      \/ exists name payload,
           bucket st' = <[name := Minio.mkObject payload "video/webm"]>
                          (bucket st))
  /\ (session req = None -> resp = json (ErrorBody "Unauthorized") 401).
Proof.
  pose proof (POST_effect env req st) as H.
  assert (Hauth : session req = None ->
                  snd (POST env req st) = json (ErrorBody "Unauthorized") 401).
  { intros Hnone. unfold POST. now rewrite Hnone. }
  destruct (POST env req st) as [st' resp]. simpl in *.
  destruct H as (H1 & H2 & H3 & H4 & H5 & H6). auto 10.
Qed.

(** X2. A chunk for a participant who is not a registered user and has no ledger
    row: the object is stored first, the creation of the row then breaks
    the foreign key, and the request is answered 500 with the object left
    in the bucket and no row for it. *)
Theorem POST_unknown_participant_leaves_object env user fd sid pid payload st :
  uploadOf fd sid pid payload ->
  sid ∈ studios st ->
  minioUp env = true ->
  pid ∉ users st ->
  recordings st !! (sid, pid) = None ->
  let name :=
    Minio.objectName sid pid (JS.parseInt (ToString (get "chunkIndex" fd))) in
  let '(st', resp) := POST env (mkRequest (Some user) (Some fd)) st in
  resp = json (ErrorBody "Failed to upload chunk") 500
  /\ recordings st' = recordings st
  /\ bucket st' = <[name := Minio.mkObject payload "video/webm"]> (bucket st)
  /\ bucket st' !! name = Some (Minio.mkObject payload "video/webm").
Proof.
  intros (Hc & Hs & Hp & Hvalid) Hstudio Hup Huser Hfresh name.
  unfold passesValidation in Hvalid. apply negb_true_iff in Hvalid.
  unfold POST, Minio.uploadChunk, Minio.putObject, upsert, json500. simpl.
  rewrite Hvalid, Hs, Hc, Hp, Hup. simpl.
  rewrite bool_decide_eq_true_2 by exact Hstudio. simpl. rewrite Hfresh.
  rewrite (bool_decide_eq_false_2 _ Huser). simpl.
  repeat split. apply lookup_insert_eq.
Qed.

Lemma POST_unknown_participant_leaves_object_witness :
  let '(st', resp) :=
    POST demoEnv (demoRequest "studio1" "guest-k3x" "0" [x01; x02]) demoServer in
  resp = json (ErrorBody "Failed to upload chunk") 500
  /\ recordings st' = recordings demoServer
  /\ bucket st' !! "studio1/guest-k3x/chunk-00000.webm"
     = Some (Minio.mkObject [x01; x02] "video/webm").
Proof.
  pose proof (POST_unknown_participant_leaves_object demoEnv demoUser
                [("chunk", FFile [x01; x02]);
                 ("studioId", FString "studio1");
                 ("participantId", FString "guest-k3x");
                 ("chunkIndex", FString "0")]
                "studio1" "guest-k3x" [x01; x02] demoServer) as H.
  cbn zeta in H. unfold demoRequest.
  destruct (POST demoEnv _ demoServer) as [st' resp].
  destruct H as (Hresp & Hrec & _ & Hobj).
  - repeat split; reflexivity.
  - vm_compute. set_solver.
  - reflexivity.
  - vm_compute. set_solver.
  - reflexivity.
  - repeat split; assumption.
Defined.

(** X3. The handler reads nothing of the caller but the display name, and
    that only for a new row: whoever is signed in may add to the recording
    of any participant, and two callers with the same display name are
    served alike. *)
Theorem POST_ignores_caller_id env user1 user2 body st :
  (nameOrAnonymous user1 = nameOrAnonymous user2
   \/ forall fd sid pid,
        body = Some fd ->
        get "studioId" fd = Some (FString sid) ->
        get "participantId" fd = Some (FString pid) ->
        is_Some (recordings st !! (sid, pid))) ->
  POST env (mkRequest (Some user1) body) st
  = POST env (mkRequest (Some user2) body) st.
Proof.
  intros H. unfold POST. simpl.
  destruct body as [fd|]; [|reflexivity]. cbv zeta.
  destruct (falsy _ || falsy _ || falsy _ || JS.isNaN _); [reflexivity|].
  destruct (get "studioId" fd) as [[sid|]|] eqn:Hs; try reflexivity.
  destruct (bool_decide (sid ∈ studios st)); [|reflexivity].
  destruct (get "chunk" fd) as [[|buffer]|]; try reflexivity.
  destruct (Minio.uploadChunk _ _ _ _ _ _) as [[bucket' name]|]; [|reflexivity].
  destruct (get "participantId" fd) as [[pid|]|] eqn:Hp; try reflexivity.
  destruct H as [Hname|Hrow]; [now rewrite Hname|].
  destruct (Hrow fd sid pid eq_refl Hs Hp) as [r Hr].
  unfold upsert. simpl. rewrite Hr. reflexivity.
Qed.

Lemma POST_ignores_caller_id_witness :
  POST demoEnv (mkRequest (Some (mkUser "user1" None))
                  (formData (demoRequest "studio1" "user1" "0" [x01]))) demoServer
  = POST demoEnv (mkRequest (Some (mkUser "user7" (Some "")))
                    (formData (demoRequest "studio1" "user1" "0" [x01]))) demoServer.
Proof.
  apply POST_ignores_caller_id. left. reflexivity.
Defined.

Lemma POST_storeGrown env req st : storeGrown st (fst (POST env req st)).
Proof.
  destruct (decide (responseStatus (snd (POST env req st)) = 200%nat)) as [Hok|Hno].
  - destruct (POST_accepted env req st Hok)
      as (user & fd & sid & pid & payload & r & _ & _ & _ & _ & _ & _ & Hup & _).
    apply upsert_resolved in Hup. destruct Hup as (-> & Hrow & _).
    simpl in *. repeat split; simpl.
    + intros k r0 Hk. destruct (decide (k = (sid, pid))) as [->|Hne].
      * exists r. rewrite lookup_insert_eq. split; [reflexivity|].
        rewrite Hk in Hrow. subst r. unfold rowGrown. simpl.
        repeat split. lia.
      * exists r0. rewrite lookup_insert_ne by congruence.
        split; [exact Hk|apply rowGrown_refl].
    + intros name Hname.
      destruct (decide (name = Minio.objectName sid pid
                  (JS.parseInt (ToString (get "chunkIndex" fd))))) as [->|Hne].
      * rewrite lookup_insert_eq. eauto.
      * rewrite lookup_insert_ne by congruence. exact Hname.
  - pose proof (POST_effect env req st) as H.
    destruct (POST env req st) as [st' resp]. simpl in *.
    destruct H as (_ & Hs & Hu & Hrec & Hsame & Hb).
    split; [exact Hs|]. split; [exact Hu|]. split.
    + intros k r Hk. exists r. rewrite (Hrec Hno).
      split; [exact Hk|apply rowGrown_refl].
    + intros name Hname.
      destruct (decide (responseStatus resp = 500%nat)) as [H500|Hn500].
      * destruct (Hb H500) as [->|(n & p & ->)]; [exact Hname|].
        destruct (decide (name = n)) as [->|Hne].
        -- rewrite lookup_insert_eq. eauto.
        -- rewrite lookup_insert_ne by congruence. exact Hname.
      * now rewrite (Hsame Hno Hn500).
Qed.

Lemma ingest_storeGrown reqs : forall st, storeGrown st (fst (ingest reqs st)).
Proof.
  induction reqs as [|[env req] rest IH]; intros st; simpl.
  - apply storeGrown_refl.
  - pose proof (POST_storeGrown env req st) as H1.
    destruct (POST env req st) as [st1 resp]. simpl in H1.
    specialize (IH st1). destruct (ingest rest st1) as [st2 resps]. simpl in *.
    eapply storeGrown_trans; eassumption.
Qed.

(** X4. Whatever requests are served, in whatever order and however they are
    answered: no ledger row and no object is ever removed, a row keeps its
    id, its studio and participant, the participant name, [fileUrl],
    [duration], status and creation time, and its size never goes down;
    the Studio and User tables are not written. *)
Theorem ingest_only_grows reqs st :
  let st' := fst (ingest reqs st) in
  studios st' = studios st
  /\ users st' = users st
  /\ (forall sid pid r,
        recordings st !! (sid, pid) = Some r ->
        exists r', recordings st' !! (sid, pid) = Some r'
          /\ id r' = id r /\ studioId r' = studioId r
          /\ participantId r' = participantId r
          /\ participantName r' = participantName r
          /\ fileUrl r' = fileUrl r /\ duration r' = duration r
          /\ status r' = status r /\ createdAt r' = createdAt r
          /\ size r <= size r')
  /\ (forall name, is_Some (bucket st !! name) -> is_Some (bucket st' !! name)).
Proof.
  destruct (ingest_storeGrown reqs st) as (Hs & Hu & Hr & Hb).
  cbv zeta. split; [exact Hs|]. split; [exact Hu|]. split; [|exact Hb].
  intros sid pid r H. destruct (Hr _ _ H) as (r' & H' & Hg).
  exists r'. split; [exact H'|exact Hg].
Qed.

(** X5. What an answer 200 says is what the server holds afterwards, for
    an index that is a safe integer: the index is the one parsed from the
    form, the object named in the answer is the one [uploadChunk] names
    for it and holds the chunk of the request, the row of the pair has
    the id of the answer, and [totalSize] is its size in decimal, the
    size before plus the length of the chunk. *)
Theorem POST_success_reports_state env req st idx name rid total :
  snd (POST env req st) = json (SuccessBody idx name rid total) 200 ->
  safeInteger idx = true ->
  let st' := fst (POST env req st) in
  exists fd sid pid payload r,
    formData req = Some fd
    /\ get "chunk" fd = Some (FFile payload)
    /\ get "studioId" fd = Some (FString sid)
    /\ get "participantId" fd = Some (FString pid)
    /\ idx = JS.parseInt (ToString (get "chunkIndex" fd))
    /\ name = Minio.objectName sid pid idx
    /\ bucket st' !! name = Some (Minio.mkObject payload "video/webm")
    /\ recordings st' !! (sid, pid) = Some r
    /\ id r = rid
    /\ total = JS.Z_toString (size r)
    /\ size r = default 0 (accumulatedSize sid pid st)
                 + Z.of_nat (length payload).
Proof.
  intros Hresp _ st'.
  assert (Hok : responseStatus (snd (POST env req st)) = 200%nat)
    by now rewrite Hresp.
  destruct (POST_accepted env req st Hok)
    as (user & fd & sid & pid & payload & r & _ & Hfd & Hc & Hs & Hp & _
        & Hup & Hbody).
  rewrite Hresp in Hbody. injection Hbody as -> -> -> ->.
  apply upsert_resolved in Hup. destruct Hup as (Hst & Hrow & _).
  exists fd, sid, pid, payload, r. subst st'. rewrite Hst. simpl.
  repeat split; try assumption; try reflexivity.
  - apply lookup_insert_eq.
  - apply lookup_insert_eq.
  - unfold accumulatedSize. simpl in Hrow.
    destruct (recordings st !! (sid, pid)) as [old|]; simpl.
    + rewrite Hrow. reflexivity.
    + destruct Hrow as (-> & _). reflexivity.
Qed.

Lemma POST_success_reports_state_witness :
  let st' := fst (POST demoEnv (demoRequest "studio1" "user1" "7" [x01; x02])
                    demoServer) in
  bucket st' !! "studio1/user1/chunk-00007.webm"
  = Some (Minio.mkObject [x01; x02] "video/webm")
  /\ (id <$> recordings st' !! ("studio1", "user1")) = Some "rec1"
  /\ (size <$> recordings st' !! ("studio1", "user1")) = Some 2.
Proof.
  destruct (POST_success_reports_state demoEnv
              (demoRequest "studio1" "user1" "7" [x01; x02]) demoServer
              (JS.Int 7) "studio1/user1/chunk-00007.webm" "rec1" "2" eq_refl
              eq_refl)
    as (fd & sid & pid & payload & r & Hfd & Hc & Hs & Hp & _ & _ & Hobj
        & Hrow & Hid & _ & Hsize).
  injection Hfd as <-. injection Hc as <-. injection Hs as <-.
  injection Hp as <-. cbv zeta. rewrite Hrow. simpl.
  split; [exact Hobj|]. split; [now rewrite Hid|]. now rewrite Hsize.
Defined.

Lemma POST_upload_effect env user fd sid pid payload st :
  uploadOf fd sid pid payload ->
  sid ∈ studios st ->
  minioUp env = true ->
  ledgerAdmits sid pid (Z.of_nat (length payload)) st ->
  let st' := fst (POST env (mkRequest (Some user) (Some fd)) st) in
  responseStatus (snd (POST env (mkRequest (Some user) (Some fd)) st)) = 200%nat
  /\ studios st' = studios st /\ users st' = users st
  /\ bucket st'
     = <[Minio.objectName sid pid (JS.parseInt (ToString (get "chunkIndex" fd)))
         := Minio.mkObject payload "video/webm"]> (bucket st)
  /\ forall s p,
       accumulatedSize s p st'
       = if decide ((s, p) = (sid, pid))
         then Some (default 0 (accumulatedSize sid pid st)
                    + Z.of_nat (length payload))
         else accumulatedSize s p st.
Proof.
  intros Hu Hstudio Hup Hadm st'.
  pose proof (POST_accepts env user fd sid pid payload st Hu Hstudio Hup Hadm)
    as Hok.
  destruct Hu as (Hc & Hs & Hp & _).
  destruct (POST_accepted_ledger env (mkRequest (Some user) (Some fd)) fd sid pid
              payload st eq_refl Hc Hs Hp Hok)
    as (r & Hrec & Hsize & _ & _ & Hst & Hus & Hb & _).
  subst st'. repeat split; try assumption.
  intros s p. unfold accumulatedSize. rewrite Hrec.
  destruct (decide ((s, p) = (sid, pid))) as [->|Hne].
  - rewrite lookup_insert_eq. simpl. now rewrite Hsize.
  - rewrite lookup_insert_ne by congruence. reflexivity.
Qed.

(** X6. Two uploads whose indices are safe integers and which are stored
    under different names, served in either order: both are accepted both
    times, and the bucket and every ledger size come out the same. The
    order of arrival shows only in what a new row records of its
    creation. *)
Theorem uploads_commute envA envB envB' envA' userA userB fdA fdB
    sidA pidA sidB pidB payloadA payloadB st :
  uploadOf fdA sidA pidA payloadA -> uploadOf fdB sidB pidB payloadB ->
  sidA ∈ studios st -> sidB ∈ studios st ->
  pidA ∈ users st -> pidB ∈ users st ->
  minioUp envA = true -> minioUp envB = true ->
  minioUp envB' = true -> minioUp envA' = true ->
  let lenA := Z.of_nat (length payloadA) in
  let lenB := Z.of_nat (length payloadB) in
  default 0 (accumulatedSize sidA pidA st) + lenA + lenB <= BIGINT_MAX ->
  default 0 (accumulatedSize sidB pidB st) + lenA + lenB <= BIGINT_MAX ->
  safeInteger (JS.parseInt (ToString (get "chunkIndex" fdA))) = true ->
  safeInteger (JS.parseInt (ToString (get "chunkIndex" fdB))) = true ->
  Minio.objectName sidA pidA (JS.parseInt (ToString (get "chunkIndex" fdA)))
  <> Minio.objectName sidB pidB (JS.parseInt (ToString (get "chunkIndex" fdB))) ->
  let reqA := mkRequest (Some userA) (Some fdA) in
  let reqB := mkRequest (Some userB) (Some fdB) in
  let '(ab, answers) := ingest [(envA, reqA); (envB, reqB)] st in
  let '(ba, answers') := ingest [(envB', reqB); (envA', reqA)] st in
  responseStatus <$> answers = [200; 200]%nat
  /\ responseStatus <$> answers' = [200; 200]%nat
  /\ bucket ab = bucket ba
  /\ forall sid pid, accumulatedSize sid pid ab = accumulatedSize sid pid ba.
Proof.
  intros HuA HuB HsA HsB HpA HpB HupA HupB HupB' HupA' lenA lenB
    HfitA HfitB _ _ Hne reqA reqB.
  assert (Hadm : forall sid pid len (st0 : Server),
            pid ∈ users st0 ->
            0 <= len ->
            default 0 (accumulatedSize sid pid st0) + len <= BIGINT_MAX ->
            ledgerAdmits sid pid len st0).
  { intros sid pid len st0 Hp Hlen Hfit. unfold ledgerAdmits.
    unfold accumulatedSize in Hfit.
    destruct (recordings st0 !! (sid, pid)); simpl in Hfit; [lia|].
    split; [exact Hp|lia]. }
  assert (HlA : 0 <= lenA) by (subst lenA; lia).
  assert (HlB : 0 <= lenB) by (subst lenB; lia).
  simpl.
  destruct (POST_upload_effect envA userA fdA sidA pidA payloadA st HuA HsA HupA)
    as (Hok1 & Hst1 & Hus1 & Hb1 & Hacc1); [apply Hadm; [assumption|lia|lia]|].
  fold reqA in Hok1, Hst1, Hus1, Hb1, Hacc1.
  destruct (POST envA reqA st) as [st1 r1]. simpl in *.
  destruct (POST_upload_effect envB userB fdB sidB pidB payloadB st1 HuB)
    as (Hok2 & Hst2 & Hus2 & Hb2 & Hacc2);
    [now rewrite Hst1|assumption| |].
  { apply Hadm; [now rewrite Hus1|lia|]. rewrite Hacc1.
    destruct (decide _); simpl; fold lenA lenB; lia. }
  fold reqB in Hok2, Hst2, Hus2, Hb2, Hacc2.
  destruct (POST envB reqB st1) as [st2 r2]. simpl in *.
  destruct (POST_upload_effect envB' userB fdB sidB pidB payloadB st HuB HsB HupB')
    as (Hok3 & Hst3 & Hus3 & Hb3 & Hacc3); [apply Hadm; [assumption|lia|lia]|].
  fold reqB in Hok3, Hst3, Hus3, Hb3, Hacc3.
  destruct (POST envB' reqB st) as [st3 r3]. simpl in *.
  destruct (POST_upload_effect envA' userA fdA sidA pidA payloadA st3 HuA)
    as (Hok4 & Hst4 & Hus4 & Hb4 & Hacc4);
    [now rewrite Hst3|assumption| |].
  { apply Hadm; [now rewrite Hus3|lia|]. rewrite Hacc3.
    destruct (decide _); simpl; fold lenA lenB; lia. }
  fold reqA in Hok4, Hst4, Hus4, Hb4, Hacc4.
  destruct (POST envA' reqA st3) as [st4 r4]. simpl in *.
  rewrite Hok1, Hok2, Hok3, Hok4.
  split; [reflexivity|]. split; [reflexivity|]. split.
  - rewrite Hb2, Hb1, Hb4, Hb3. apply insert_insert_ne. congruence.
  - intros sid pid. rewrite Hacc2, Hacc4, !Hacc1, !Hacc3.
    fold lenA lenB.
    repeat destruct (decide _); simplify_eq; simpl; try reflexivity;
      f_equal; lia.
Qed.

Lemma uploads_commute_witness :
  let reqA := demoRequest "studio1" "user1" "0" [x01; x02] in
  let reqB := demoRequest "studio1" "user1" "1" [x03] in
  let '(ab, answers) := ingest [(demoEnv, reqA); (demoEnv, reqB)] demoServer in
  let '(ba, answers') := ingest [(demoEnv, reqB); (demoEnv, reqA)] demoServer in
  responseStatus <$> answers = [200; 200]%nat
  /\ responseStatus <$> answers' = [200; 200]%nat
  /\ bucket ab = bucket ba
  /\ forall sid pid, accumulatedSize sid pid ab = accumulatedSize sid pid ba.
Proof.
  apply (uploads_commute demoEnv demoEnv demoEnv demoEnv demoUser demoUser
           [("chunk", FFile [x01; x02]); ("studioId", FString "studio1");
            ("participantId", FString "user1"); ("chunkIndex", FString "0")]
           [("chunk", FFile [x03]); ("studioId", FString "studio1");
            ("participantId", FString "user1"); ("chunkIndex", FString "1")]
           "studio1" "user1" "studio1" "user1" [x01; x02] [x03] demoServer).
  - repeat split; reflexivity.
  - repeat split; reflexivity.
  - vm_compute. set_solver.
  - vm_compute. set_solver.
  - vm_compute. set_solver.
  - vm_compute. set_solver.
  - reflexivity.
  - reflexivity.
  - reflexivity.
  - reflexivity.
  - vm_compute. discriminate.
  - vm_compute. discriminate.
  - reflexivity.
  - reflexivity.
  - vm_compute. discriminate.
Defined.

(** X7. The row of a recording is made by the first chunk accepted for the
    pair and keeps what that request gave it, whatever is served
    afterwards: [fileUrl] is the name of that first object (not the
    prefix of the participant), the participant name is the first caller's
    display name, and the status stays "uploading": this endpoint never
    moves a recording on. *)
Theorem row_keeps_first_upload env user fd sid pid payload rest st :
  uploadOf fd sid pid payload ->
  sid ∈ studios st ->
  minioUp env = true ->
  pid ∈ users st ->
  recordings st !! (sid, pid) = None ->
  Z.of_nat (length payload) <= BIGINT_MAX ->
  let first :=
    Minio.objectName sid pid (JS.parseInt (ToString (get "chunkIndex" fd))) in
  let st1 := fst (POST env (mkRequest (Some user) (Some fd)) st) in
  let st2 := fst (ingest rest st1) in
  exists r,
    recordings st2 !! (sid, pid) = Some r
    /\ fileUrl r = Some first
    /\ participantName r = nameOrAnonymous user
    /\ id r = newId env
    /\ createdAt r = now env
    /\ status r = uploading
    /\ Z.of_nat (length payload) <= size r.
Proof.
  intros Hu Hstudio Hup Huser Hfresh Hlen first st1 st2.
  assert (Hadm : ledgerAdmits sid pid (Z.of_nat (length payload)) st).
  { unfold ledgerAdmits. rewrite Hfresh. now split. }
  pose proof (POST_accepts env user fd sid pid payload st Hu Hstudio Hup Hadm)
    as Hok.
  destruct (POST_accepted env _ st Hok)
    as (user' & fd' & sid' & pid' & payload' & r & Huser' & Hfd' & Hc' & Hs'
        & Hp' & _ & Hupsert & _).
  destruct Hu as (Hc & Hs & Hp & _).
  simpl in Huser', Hfd'. injection Huser' as <-. injection Hfd' as <-.
  rewrite Hc in Hc'. injection Hc' as <-.
  rewrite Hs in Hs'. injection Hs' as <-.
  rewrite Hp in Hp'. injection Hp' as <-.
  apply upsert_resolved in Hupsert. destruct Hupsert as (Hst1 & Hrow & _).
  simpl in Hrow. rewrite Hfresh in Hrow. destruct Hrow as (Hr & _).
  fold st1 in Hst1.
  destruct (ingest_storeGrown rest st1) as (_ & _ & Hrows & _).
  destruct (Hrows (sid, pid) r) as (r' & Hr' & Hg).
  { rewrite Hst1. simpl. apply lookup_insert_eq. }
  exists r'. fold st2 in Hr'. split; [exact Hr'|].
  destruct Hg as (Hid & _ & _ & Hname & Hurl & _ & Hstatus & Hcreated & Hsize).
  rewrite Hurl, Hname, Hid, Hcreated, Hstatus. subst r. simpl in *.
  repeat split. exact Hsize.
Qed.

Lemma row_keeps_first_upload_witness :
  let st1 := fst (POST demoEnv (demoRequest "studio1" "user1" "4" [x01]) demoServer) in
  let st2 := fst (ingest [(demoEnv, demoRequest "studio1" "user1" "0" [x02])] st1) in
  exists r,
    recordings st2 !! ("studio1", "user1") = Some r
    /\ fileUrl r = Some "studio1/user1/chunk-00004.webm"
    /\ status r = uploading.
Proof.
  destruct (row_keeps_first_upload demoEnv demoUser
              [("chunk", FFile [x01]); ("studioId", FString "studio1");
               ("participantId", FString "user1"); ("chunkIndex", FString "4")]
              "studio1" "user1" [x01]
              [(demoEnv, demoRequest "studio1" "user1" "0" [x02])] demoServer)
    as (r & Hr & Hurl & _ & _ & _ & Hstatus & _).
  - repeat split; reflexivity.
  - vm_compute. set_solver.
  - reflexivity.
  - vm_compute. set_solver.
  - reflexivity.
  - vm_compute. discriminate.
  - exists r. repeat split; assumption.
Defined.

End IngestBehaviour.

(** ** The object store: listing, deleting, naming *)

Section Listing.

Lemma insertSorted_perm x l : JS.insertSorted x l ≡ₚ x :: l.
Proof.
  induction l as [|y l IH]; simpl; [reflexivity|].
  destruct (JS.lexLeb x y); [reflexivity|].
  rewrite IH. apply Permutation_swap.
Qed.

Lemma sort_perm l : JS.sort l ≡ₚ l.
Proof.
  induction l as [|x l IH]; simpl; [reflexivity|].
  unfold JS.sort in *. simpl. rewrite insertSorted_perm. now rewrite IH.
Qed.

Lemma insertSorted_sorted x l :
  Sorted (fun a b => JS.lexLeb a b = true) l ->
  Sorted (fun a b => JS.lexLeb a b = true) (JS.insertSorted x l).
Proof.
  induction 1 as [|y l Hs IH Hhd]; simpl.
  - repeat constructor.
  - destruct (JS.lexLeb x y) eqn:Hxy.
    + constructor; [now constructor|now constructor].
    + assert (Hyx : JS.lexLeb y x = true).
      { destruct (String.leb_total x y) as [H|H]; [|exact H].
        unfold JS.lexLeb in Hxy. congruence. }
      constructor; [exact IH|].
      destruct Hhd as [|z l Hyz]; simpl.
      * now constructor.
      * destruct (JS.lexLeb x z); now constructor.
Qed.

Lemma sort_sorted l : Sorted (fun a b => JS.lexLeb a b = true) (JS.sort l).
Proof.
  induction l as [|x l IH]; [constructor|].
  apply insertSorted_sorted, IH.
Qed.

Lemma listChunks_elem sid pid (bucket : gmap string Minio.StoredObject) name :
  name ∈ Minio.listChunks sid pid bucket
  <-> is_Some (bucket !! name)
      /\ JS.startsWith (chunkPrefix sid pid) name = true.
Proof.
  unfold Minio.listChunks, chunkPrefix. rewrite sort_perm.
  rewrite list_elem_of_filter, list_elem_of_fmap. split.
  - intros (Hpre & [name' obj] & -> & Hin).
    apply elem_of_map_to_list in Hin. simpl. eauto.
  - intros ([obj Hobj] & Hpre). split; [exact Hpre|].
    exists (name, obj). split; [reflexivity|].
    now apply elem_of_map_to_list.
Qed.

(** X8. [listChunks] gives every name of the bucket that begins with the
    participant's prefix, each once, in ascending order of code units, and
    nothing else; with nothing stored under the prefix the list is
    empty. *)
Theorem listChunks_lists_prefix sid pid
    (bucket : gmap string Minio.StoredObject) :
  let l := Minio.listChunks sid pid bucket in
  NoDup l
  /\ Sorted (fun a b => JS.lexLeb a b = true) l
  /\ (forall name,
        name ∈ l
        <-> is_Some (bucket !! name)
            /\ JS.startsWith (sid +:+ "/" +:+ pid +:+ "/") name = true)
  /\ ((forall name, is_Some (bucket !! name) ->
         JS.startsWith (sid +:+ "/" +:+ pid +:+ "/") name = false) ->
      l = []).
Proof.
  cbv zeta. split; [|split; [|split]].
  - unfold Minio.listChunks. rewrite sort_perm.
    apply NoDup_filter, NoDup_fst_map_to_list.
  - apply sort_sorted.
  - apply listChunks_elem.
  - intros Hnone. apply elem_of_nil_inv. intros name Hin.
    apply listChunks_elem in Hin. destruct Hin as [Hsome Hpre].
    unfold chunkPrefix in Hpre. rewrite (Hnone name Hsome) in Hpre.
    discriminate.
Qed.

Lemma lookup_foldr_delete {A} (names : list string) (m : gmap string A) k :
  foldr delete m names !! k = if decide (k ∈ names) then None else m !! k.
Proof.
  induction names as [|n names IH]; cbn [foldr].
  - destruct (decide (k ∈ [])) as [Hin|]; [|reflexivity].
    now apply elem_of_nil in Hin.
  - destruct (decide (n = k)) as [->|Hne].
    + rewrite lookup_delete_eq.
      destruct (decide (k ∈ k :: names)) as [|Hnin]; [reflexivity|].
      exfalso. apply Hnin. left.
    + rewrite lookup_delete_ne by exact Hne. rewrite IH.
      destruct (decide (k ∈ names)) as [Hin|Hnin];
        destruct (decide (k ∈ n :: names)) as [Hin'|Hnin']; try reflexivity.
      * exfalso. apply Hnin'. now right.
      * apply elem_of_cons in Hin'. destruct Hin' as [->|]; [congruence|].
        contradiction.
Qed.

Lemma deleteParticipantChunks_effect listUp failsAfter sid pid
    (bucket : gmap string Minio.StoredObject) :
  let result :=
    Minio.deleteParticipantChunks listUp failsAfter sid pid bucket in
  let bucket' := fst (fst result) in
  (forall name, JS.startsWith (chunkPrefix sid pid) name = false ->
     bucket' !! name = bucket !! name)
  /\ (forall name, is_Some (bucket' !! name) -> is_Some (bucket !! name))
  /\ (snd result = Resolved tt ->
      (forall name, JS.startsWith (chunkPrefix sid pid) name = true ->
         bucket' !! name = None)
      /\ Minio.listChunks sid pid bucket' = [])
  /\ (listUp = true -> Minio.listChunks sid pid bucket = [] ->
      result = (bucket, [], Resolved tt)).
Proof.
  unfold Minio.deleteParticipantChunks, Minio.listChunksSettled,
    Minio.removeObjects.
  pose proof (listChunks_elem sid pid bucket) as Hlist.
  set (chunks := Minio.listChunks sid pid bucket) in *.
  assert (Hkeep : forall names name,
            names ⊆ chunks ->
            JS.startsWith (chunkPrefix sid pid) name = false ->
            foldr delete bucket names !! name = bucket !! name).
  { intros names name Hsub Hpre. rewrite lookup_foldr_delete.
    case_decide as Hin; [|reflexivity].
    apply Hsub, Hlist in Hin. destruct Hin as [_ Hin]. congruence. }
  assert (Hsome : forall names name,
            is_Some (foldr delete bucket names !! name) ->
            is_Some (bucket !! name)).
  { intros names name. rewrite lookup_foldr_delete.
    case_decide; [intros [? Hx]; discriminate|auto]. }
  assert (Hgone : forall name,
            JS.startsWith (chunkPrefix sid pid) name = true ->
            foldr delete bucket chunks !! name = None).
  { intros name Hpre. rewrite lookup_foldr_delete.
    case_decide as Hnin; [reflexivity|].
    destruct (bucket !! name) as [obj|] eqn:Hobj; [|reflexivity].
    exfalso. apply Hnin, Hlist. split; [eauto|exact Hpre]. }
  assert (Hempty : forall b : gmap string Minio.StoredObject,
            (forall name,
               JS.startsWith (chunkPrefix sid pid) name = true ->
               b !! name = None) ->
            Minio.listChunks sid pid b = []).
  { intros b Hb. apply elem_of_nil_inv. intros name Hin.
    apply listChunks_elem in Hin. destruct Hin as [[obj Hobj] Hpre].
    rewrite (Hb name Hpre) in Hobj. discriminate. }
  destruct listUp; simpl.
  - destruct chunks as [|c chunks'] eqn:Hchunks; simpl.
    + repeat split; auto.
    + destruct failsAfter as [k|]; simpl.
      * repeat split; try discriminate.
        -- intros name. apply Hkeep. apply subseteq_take.
        -- apply Hsome.
      * repeat split; try discriminate.
        -- intros name. apply (Hkeep (c :: chunks')). reflexivity.
        -- apply (Hsome (c :: chunks')).
        -- apply Hgone.
        -- apply Hempty, Hgone.
  - repeat split; auto; discriminate.
Qed.

(** X9. [deleteParticipantChunks], however the object store answers: no
    object is added, and an object whose name does not begin with the
    participant's prefix is left alone. When the call resolves nothing
    under the prefix is left and a new listing is empty. When there is
    nothing under the prefix, nothing is asked of the object store beyond
    the listing: the call resolves silently even if a removal would have
    failed. *)
Theorem deleteParticipantChunks_removes_prefix listUp failsAfter sid pid
    (bucket : gmap string Minio.StoredObject) :
  let '(bucket', logs, res) :=
    Minio.deleteParticipantChunks listUp failsAfter sid pid bucket in
  let prefix := sid +:+ "/" +:+ pid +:+ "/" in
  (forall name, JS.startsWith prefix name = false ->
     bucket' !! name = bucket !! name)
  /\ (forall name, is_Some (bucket' !! name) -> is_Some (bucket !! name))
  /\ (res = Resolved tt ->
      (forall name, JS.startsWith prefix name = true -> bucket' !! name = None)
      /\ Minio.listChunks sid pid bucket' = [])
  /\ (listUp = true -> Minio.listChunks sid pid bucket = [] ->
      bucket' = bucket /\ logs = [] /\ res = Resolved tt).
Proof.
  pose proof (deleteParticipantChunks_effect listUp failsAfter sid pid bucket)
    as H. cbv zeta in H. unfold chunkPrefix in H.
  destruct (Minio.deleteParticipantChunks _ _ _ _ _) as [[b logs] res].
  simpl in H. destruct H as (H1 & H2 & H3 & H4).
  split; [exact H1|]. split; [exact H2|]. split; [exact H3|].
  intros Hup Hnil. specialize (H4 Hup Hnil). injection H4 as -> -> ->.
  repeat split.
Qed.

End Listing.

Section Naming.

Lemma startsWith_app p s : JS.startsWith p (p +:+ s) = true.
Proof.
  induction p as [|c p IH]; simpl; [reflexivity|].
  now rewrite Ascii.eqb_refl.
Qed.

Lemma startsWith_inv p : forall s,
  JS.startsWith p s = true -> exists r, s = p +:+ r.
Proof.
  induction p as [|c p IH]; intros s; simpl.
  - intros _. now exists s.
  - destruct s as [|d s]; [discriminate|].
    destruct (Ascii.eqb c d) eqn:Hcd; [|discriminate].
    apply Ascii.eqb_eq in Hcd. subst d. intros H.
    destruct (IH s H) as [r ->]. now exists r.
Qed.

(** Two texts cut at their first slash agree part by part. *)
Lemma slashFree_split a : forall a' r r',
  slashFree a = true -> slashFree a' = true ->
  a +:+ String "/" r = a' +:+ String "/" r' -> a = a' /\ r = r'.
Proof.
  induction a as [|c a IH]; intros [|c' a'] r r'; simpl.
  - intros _ _ [= ->]. now split.
  - intros _ H [= <- _]. discriminate.
  - intros H _ [= -> _]. discriminate.
  - intros H H' [= <- Heq].
    apply andb_true_iff in H as [_ H]. apply andb_true_iff in H' as [_ H'].
    destruct (IH a' r r' H H' Heq) as [-> ->]. now split.
Qed.

Lemma objectName_prefix sid pid idx :
  Minio.objectName sid pid idx
  = chunkPrefix sid pid
      +:+ "chunk-" +:+ JS.padStart 5 "0" (JS.toString idx) +:+ ".webm".
Proof.
  unfold Minio.objectName, chunkPrefix.
  induction sid as [|c sid IH]; simpl in *; [|now f_equal].
  f_equal. induction pid as [|c pid IH]; simpl in *; [reflexivity|now f_equal].
Qed.

Lemma objectName_under_prefix sid pid idx :
  JS.startsWith (chunkPrefix sid pid) (Minio.objectName sid pid idx) = true.
Proof. rewrite objectName_prefix. apply startsWith_app. Qed.

Lemma chunkPrefix_owner sid pid sid' pid' idx :
  slashFree sid = true -> slashFree pid = true ->
  slashFree sid' = true -> slashFree pid' = true ->
  JS.startsWith (chunkPrefix sid pid) (Minio.objectName sid' pid' idx) = true ->
  sid = sid' /\ pid = pid'.
Proof.
  intros Hs Hp Hs' Hp' Hpre. apply startsWith_inv in Hpre as [r Hr].
  unfold Minio.objectName, chunkPrefix in Hr.
  assert (Heq : sid' +:+ String "/" (pid' +:+ String "/"
                  ("chunk-" +:+ JS.padStart 5 "0" (JS.toString idx) +:+ ".webm"))
                = sid +:+ String "/" (pid +:+ String "/" r)).
  { etransitivity; [exact Hr|]. clear.
    induction sid as [|c sid IH]; simpl in *; [|now f_equal].
    f_equal. induction pid as [|c pid IH]; simpl in *;
      [reflexivity|now f_equal]. }
  apply slashFree_split in Heq as [-> Heq]; try assumption.
  apply slashFree_split in Heq as [-> _]; try assumption. now split.
Qed.

Local Open Scope N_scope.

Lemma parseDigits_fixedWidth_app k rest : forall n a,
  JS.parseDigits 10 (fixedWidth k n +:+ rest) (Some a)
  = JS.parseDigits 10 rest (Some (a * 10 ^ N.of_nat k + n mod 10 ^ N.of_nat k)).
Proof.
  induction k as [|k IH]; intros n a.
  - simpl. rewrite N.mod_1_r. do 2 f_equal. lia.
  - cbn [fixedWidth String.append JS.parseDigits].
    rewrite digitValue_digitChar by (apply N.mod_upper_bound; lia).
    rewrite IH. do 2 f_equal.
    rewrite Nat2N.inj_succ, N.pow_succ_r', (N.mul_comm 10), N.Div0.mod_mul_r.
    lia.
Qed.

(** The padded index of a name is the index in some fixed width that
    holds it. *)
Lemma padStart_fixedWidth n :
  exists k, n < 10 ^ N.of_nat k
    /\ JS.padStart 5 "0" (JS.decimal n) = fixedWidth k n.
Proof.
  destruct (decimal_fixedWidth n) as (d & Hn & Hdec).
  destruct (le_lt_dec 5 (S d)) as [Hle|Hlt].
  - exists (S d). split; [exact Hn|].
    unfold JS.padStart. rewrite Hdec, fixedWidth_length.
    apply Nat.leb_le in Hle. now rewrite Hle.
  - exists 5%nat.
    assert (Hn5 : n < 10 ^ N.of_nat 5).
    { eapply N.lt_le_trans; [exact Hn|].
      apply N.pow_le_mono_r; lia. }
    split; [exact Hn5|]. apply padStart_decimal; [lia|exact Hn5].
Qed.

Local Close Scope N_scope.

Lemma padded_index_injective (i j : Z) (rest : string) :
  0 <= i -> 0 <= j ->
  JS.padStart 5 "0" (JS.Z_toString i) +:+ String "." rest
  = JS.padStart 5 "0" (JS.Z_toString j) +:+ String "." rest ->
  i = j.
Proof.
  intros Hi Hj. unfold JS.Z_toString.
  destruct (Z.ltb_spec i 0); [lia|]. destruct (Z.ltb_spec j 0); [lia|].
  destruct (padStart_fixedWidth (Z.to_N i)) as (k & Hk & ->).
  destruct (padStart_fixedWidth (Z.to_N j)) as (k' & Hk' & ->).
  intros Heq.
  apply (f_equal (fun s => JS.parseDigits 10 s (Some 0%N))) in Heq.
  rewrite !parseDigits_fixedWidth_app in Heq. simpl in Heq.
  injection Heq as Heq. rewrite !N.mod_small in Heq by assumption. lia.
Qed.

(** The object name determines the studio, the participant and the
    index, for identifiers without a slash and indices from 0 up. *)
Lemma objectName_inv sid pid sid' pid' (i j : Z) :
  slashFree sid = true -> slashFree pid = true ->
  slashFree sid' = true -> slashFree pid' = true ->
  0 <= i -> 0 <= j ->
  Minio.objectName sid pid (JS.Int i) = Minio.objectName sid' pid' (JS.Int j) ->
  sid = sid' /\ pid = pid' /\ i = j.
Proof.
  intros Hs Hp Hs' Hp' Hi Hj Heq.
  destruct (chunkPrefix_owner sid pid sid' pid' (JS.Int j) Hs Hp Hs' Hp')
    as [<- <-].
  { rewrite <- Heq. apply objectName_under_prefix. }
  split; [reflexivity|]. split; [reflexivity|].
  rewrite !objectName_prefix in Heq.
  assert (Hcancel : forall p a b : string, p +:+ a = p +:+ b -> a = b).
  { clear. induction p as [|c p IH]; simpl; intros a b H; [exact H|].
    injection H as H. now apply IH. }
  apply Hcancel in Heq. apply (Hcancel "chunk-") in Heq.
  apply (padded_index_injective i j "webm" Hi Hj). exact Heq.
Qed.

(** X10. Different chunks never share a name: for identifiers without a
    slash and indices that are safe integers from 0 up, two chunks that
    differ in the studio, in the participant or in the index are stored
    under different object names, so neither overwrites the other. *)
Theorem objectName_injective sid pid sid' pid' (i j : Z) buffer buffer'
    (bucket : gmap string Minio.StoredObject) :
  slashFree sid = true -> slashFree pid = true ->
  slashFree sid' = true -> slashFree pid' = true ->
  0 <= i <= MAX_SAFE_INTEGER -> 0 <= j <= MAX_SAFE_INTEGER ->
  (sid, pid, i) <> (sid', pid', j) ->
  Minio.objectName sid pid (JS.Int i) <> Minio.objectName sid' pid' (JS.Int j)
  /\ exists bucket1 name1 bucket2 name2,
       Minio.uploadChunk true sid pid (JS.Int i) buffer bucket
       = Resolved (bucket1, name1)
       /\ Minio.uploadChunk true sid' pid' (JS.Int j) buffer' bucket1
          = Resolved (bucket2, name2)
       /\ name1 <> name2
       /\ bucket2 !! name1 = Some (Minio.mkObject buffer "video/webm")
       /\ bucket2 !! name2 = Some (Minio.mkObject buffer' "video/webm").
Proof.
  intros Hs Hp Hs' Hp' Hi Hj Hne.
  assert (Hnames : Minio.objectName sid pid (JS.Int i)
                   <> Minio.objectName sid' pid' (JS.Int j)).
  { intros Heq. apply Hne.
    destruct (objectName_inv sid pid sid' pid' i j Hs Hp Hs' Hp'
                ltac:(lia) ltac:(lia) Heq) as (-> & -> & ->).
    reflexivity. }
  split; [exact Hnames|].
  unfold Minio.uploadChunk, Minio.putObject.
  do 4 eexists. split; [reflexivity|]. split; [reflexivity|].
  split; [exact Hnames|]. split.
  - rewrite lookup_insert_ne by congruence. apply lookup_insert_eq.
  - apply lookup_insert_eq.
Qed.

Lemma objectName_injective_witness :
  Minio.objectName "st" "usr" (JS.Int 7) <> Minio.objectName "st" "usr" (JS.Int 8)
  /\ Minio.objectName "st" "usr" (JS.Int 7)
     <> Minio.objectName "st" "usr2" (JS.Int 7).
Proof.
  split.
  - apply (objectName_injective "st" "usr" "st" "usr" 7 8 [] [] ∅);
      try reflexivity; try (unfold MAX_SAFE_INTEGER; lia).
    intros [= ].
  - apply (objectName_injective "st" "usr" "st" "usr2" 7 7 [] [] ∅);
      try reflexivity; try (unfold MAX_SAFE_INTEGER; lia).
    intros [= ].
Defined.

(** X11. What is kept under one participant's prefix is that participant's:
    with identifiers without a slash, the chunks of another (studio,
    participant) pair are never listed by [listChunks], and
    [deleteParticipantChunks] leaves them as they are, however the object
    store answers. *)
Theorem other_participants_chunks_kept listUp failsAfter sid pid sid' pid' idx
    (bucket : gmap string Minio.StoredObject) :
  slashFree sid = true -> slashFree pid = true ->
  slashFree sid' = true -> slashFree pid' = true ->
  (sid, pid) <> (sid', pid') ->
  let name := Minio.objectName sid' pid' idx in
  let bucket' :=
    fst (fst (Minio.deleteParticipantChunks listUp failsAfter sid pid bucket)) in
  (name ∉ Minio.listChunks sid pid bucket)
  /\ bucket' !! name = bucket !! name.
Proof.
  intros Hs Hp Hs' Hp' Hne name bucket'.
  assert (Hout : JS.startsWith (chunkPrefix sid pid) name = false).
  { destruct (JS.startsWith _ _) eqn:Hpre; [|reflexivity].
    destruct (chunkPrefix_owner sid pid sid' pid' idx Hs Hp Hs' Hp' Hpre).
    congruence. }
  split.
  - rewrite listChunks_elem. intros [_ Hpre]. congruence.
  - destruct (deleteParticipantChunks_effect listUp failsAfter sid pid bucket)
      as [Hkeep _].
    apply Hkeep. exact Hout.
Qed.

Lemma other_participants_chunks_kept_witness :
  ("st/usr2/chunk-00000.webm" ∉ Minio.listChunks "st" "usr" demoBucket)
  /\ fst (fst (Minio.deleteParticipantChunks true None "st" "usr" demoBucket))
       !! "st/usr2/chunk-00000.webm"
     = demoBucket !! "st/usr2/chunk-00000.webm".
Proof.
  apply (other_participants_chunks_kept true None "st" "usr" "st" "usr2"
           (JS.Int 0) demoBucket); try reflexivity.
  discriminate.
Defined.

(** Identifiers with a slash break this: the chunks of participant b/c
    of studio a lie under the prefix of participant b. *)
Example chunkPrefix_with_slash :
  JS.startsWith (chunkPrefix "a" "b") (Minio.objectName "a" "b/c" (JS.Int 0))
  = true.
Proof. reflexivity. Qed.

(** X12. A chunk that has been taken in is found again and can be removed:
    for a well-formed upload to an existing studio with the object store
    answering, the object is in the bucket under its name whether or not
    the ledger could be written, [listChunks] of the participant lists
    the name, and after [deleteParticipantChunks] has resolved the name
    is gone and the listing is empty. *)
Theorem stored_chunk_listed_then_deleted env user fd sid pid payload st :
  uploadOf fd sid pid payload ->
  sid ∈ Route.studios st ->
  Route.minioUp env = true ->
  let name :=
    Minio.objectName sid pid
      (JS.parseInt (Route.ToString (Route.get "chunkIndex" fd))) in
  let bucket1 :=
    Route.bucket (fst (Route.POST env (Route.mkRequest (Some user) (Some fd)) st)) in
  let bucket2 :=
    fst (fst (Minio.deleteParticipantChunks true None sid pid bucket1)) in
  bucket1 !! name = Some (Minio.mkObject payload "video/webm")
  /\ name ∈ Minio.listChunks sid pid bucket1
  /\ bucket2 !! name = None
  /\ Minio.listChunks sid pid bucket2 = [].
Proof.
  intros (Hc & Hs & Hp & Hvalid) Hstudio Hup name bucket1 bucket2.
  assert (Hstored : bucket1 !! name = Some (Minio.mkObject payload "video/webm")).
  { subst bucket1 name.
    unfold passesValidation in Hvalid. apply negb_true_iff in Hvalid.
    unfold Route.POST, Minio.uploadChunk, Minio.putObject, Route.json500. simpl.
    rewrite Hvalid, Hs, Hc, Hp, Hup. simpl.
    rewrite bool_decide_eq_true_2 by exact Hstudio. simpl.
    destruct (Route.upsert _ _ _ _ _ _ _) as [[st2 r]|e] eqn:Hupsert.
    - apply upsert_resolved in Hupsert. destruct Hupsert as (-> & _).
      simpl. apply lookup_insert_eq.
    - simpl. apply lookup_insert_eq. }
  assert (Hin : name ∈ Minio.listChunks sid pid bucket1).
  { apply listChunks_elem. split; [eauto|apply objectName_under_prefix]. }
  destruct (deleteParticipantChunks_effect true None sid pid bucket1)
    as (_ & _ & Hres & _).
  assert (Hresolved :
            snd (Minio.deleteParticipantChunks true None sid pid bucket1)
            = Resolved tt).
  { unfold Minio.deleteParticipantChunks, Minio.listChunksSettled,
      Minio.removeObjects.
    destruct (Minio.listChunks sid pid bucket1); reflexivity. }
  destruct (Hres Hresolved) as [Hgone Hnil].
  split; [exact Hstored|]. split; [exact Hin|]. split; [|exact Hnil].
  apply Hgone, objectName_under_prefix.
Qed.

Lemma stored_chunk_listed_then_deleted_witness :
  let bucket1 :=
    Route.bucket (fst (Route.POST demoEnv
                         (demoRequest "studio1" "user1" "3" [x01; x02])
                         demoServer)) in
  bucket1 !! "studio1/user1/chunk-00003.webm"
  = Some (Minio.mkObject [x01; x02] "video/webm")
  /\ "studio1/user1/chunk-00003.webm" ∈ Minio.listChunks "studio1" "user1" bucket1
  /\ fst (fst (Minio.deleteParticipantChunks true None "studio1" "user1" bucket1))
       !! "studio1/user1/chunk-00003.webm" = None.
Proof.
  destruct (stored_chunk_listed_then_deleted demoEnv demoUser
              [("chunk", Route.FFile [x01; x02]);
               ("studioId", Route.FString "studio1");
               ("participantId", Route.FString "user1");
               ("chunkIndex", Route.FString "3")]
              "studio1" "user1" [x01; x02] demoServer)
    as (H1 & H2 & H3 & _).
  - repeat split; reflexivity.
  - vm_compute. set_solver.
  - reflexivity.
  - repeat split; assumption.
Defined.

End Naming.

(** ** The key of a chunk *)

Section KeyLayout.

(** The decimal rendering padded to five characters: five digits up to
    99999, and all the digits of a larger index. *)
Lemma padStart_width (n : N) :
  exists k, (5 <= k)%nat
    /\ ((n <= 99999)%N -> k = 5%nat)
    /\ ((99999 < n)%N -> (10 ^ N.of_nat (k - 1) <= n < 10 ^ N.of_nat k)%N)
    /\ JS.padStart 5 "0" (JS.decimal n) = fixedWidth k n.
Proof.
  unfold JS.decimal.
  destruct (digitsOf_fixedWidth (N.to_nat (N.log2 n)) n EmptyString
              (lt_pow10_log2 n)) as (d & Hd1 & Hmin & Hnd & Heq).
  assert (Hnil : forall s : string, s +:+ EmptyString = s).
  { induction s as [|c s IHs]; simpl; [reflexivity | now rewrite IHs]. }
  rewrite Hnil in Heq.
  destruct (le_lt_dec 5 d) as [Hle|Hlt].
  - exists d. split; [exact Hle|]. split; [|split].
    + intros Hn. destruct Hmin as [->|Hmin]; [lia|].
      destruct (Nat.eq_dec d 5%nat) as [->|Hne]; [reflexivity|exfalso].
      assert (10 ^ N.of_nat 5 <= 10 ^ N.of_nat (d - 1))%N
        by (apply N.pow_le_mono_r; lia).
      change (10 ^ N.of_nat 5)%N with 100000%N in *. lia.
    + intros _. destruct Hmin as [->|Hmin]; [lia|]. split; assumption.
    + rewrite Heq. unfold JS.padStart. rewrite fixedWidth_length.
      apply Nat.leb_le in Hle. now rewrite Hle.
  - assert (Hn5 : (n < 10 ^ N.of_nat 4)%N).
    { eapply N.lt_le_trans; [exact Hnd|]. apply N.pow_le_mono_r; lia. }
    change (10 ^ N.of_nat 4)%N with 10000%N in Hn5.
    exists 5%nat. split; [lia|]. split; [reflexivity|]. split; [lia|].
    fold (JS.decimal n). apply padStart_decimal; [lia|].
    change (10 ^ N.of_nat 5)%N with 100000%N. lia.
Qed.

(** The name of a chunk in the spec's layout. *)
Lemma objectName_chunkKey sid pid i :
  0 <= i ->
  exists k, (5 <= k)%nat
    /\ (i <= 99999 -> k = 5%nat)
    /\ (99999 < i -> 10 ^ (Z.of_nat k - 1) <= i < 10 ^ Z.of_nat k)
    /\ Minio.objectName sid pid (JS.Int i) = chunkKey sid pid k i.
Proof.
  intros Hi. destruct (padStart_width (Z.to_N i)) as (k & Hk & H5 & Hbig & Heq).
  exists k. split; [exact Hk|]. split; [|split].
  - intros Hle. apply H5. lia.
  - intros Hgt. destruct Hbig as [Hlo Hhi]; [lia|].
    apply N2Z.inj_le in Hlo. apply N2Z.inj_lt in Hhi.
    rewrite N2Z.inj_pow in Hlo, Hhi. rewrite Z2N.id in Hlo, Hhi by exact Hi.
    rewrite !nat_N_Z in Hlo, Hhi. change (Z.of_N 10) with 10 in *.
    replace (Z.of_nat (k - 1)) with (Z.of_nat k - 1) in Hlo by lia.
    split; assumption.
  - unfold Minio.objectName, chunkKey, JS.toString, JS.Z_toString.
    destruct (Z.ltb_spec i 0) as [Hneg|_]; [lia|]. now rewrite Heq.
Qed.

(** A well-formed upload for an existing studio is stored under the name
    [uploadChunk] gives it, whatever the ledger then does. *)
Lemma POST_stores_chunk env user fd sid pid payload st :
  uploadOf fd sid pid payload ->
  sid ∈ Route.studios st ->
  Route.minioUp env = true ->
  Route.bucket (fst (Route.POST env (Route.mkRequest (Some user) (Some fd)) st))
  = <[Minio.objectName sid pid
        (JS.parseInt (Route.ToString (Route.get "chunkIndex" fd)))
      := Minio.mkObject payload "video/webm"]> (Route.bucket st).
Proof.
  intros (Hc & Hs & Hp & Hvalid) Hstudio Hup.
  unfold passesValidation in Hvalid. apply negb_true_iff in Hvalid.
  unfold Route.POST, Minio.uploadChunk, Minio.putObject, Route.upsert. simpl.
  rewrite Hvalid, Hs, Hc, Hp, Hup. simpl.
  rewrite bool_decide_eq_true_2 by exact Hstudio. simpl.
  repeat case_match; simplify_eq; reflexivity.
Qed.

(** The bucket [uploadChunks] leaves. *)
Lemma uploadChunks_resolved sid pid chunks : forall bucket,
  exists bucket',
    uploadChunks true sid pid chunks bucket = Resolved bucket'
    /\ forall name,
         is_Some (bucket' !! name)
         <-> is_Some (bucket !! name)
             \/ name ∈ (fun i => Minio.objectName sid pid (JS.Int i))
                         <$> (fst <$> chunks).
Proof.
  induction chunks as [|[i buffer] chunks IH]; intros bucket.
  - exists bucket. split; [reflexivity|]. intros name.
    rewrite !fmap_nil, elem_of_nil. tauto.
  - cbn [uploadChunks fst snd]. unfold Minio.uploadChunk, Minio.putObject.
    destruct (IH (<[Minio.objectName sid pid (JS.Int i)
                    := Minio.mkObject buffer "video/webm"]> bucket))
      as (bucket' & Hres & Hnames).
    exists bucket'. split; [exact Hres|]. intros name.
    rewrite Hnames, !fmap_cons, elem_of_cons. cbn [fst].
    destruct (decide (name = Minio.objectName sid pid (JS.Int i))) as [->|Hne].
    + rewrite lookup_insert_eq. split; [auto|]. intros _. left. eauto.
    + rewrite lookup_insert_ne by congruence. tauto.
Qed.

(** C6. The object name [uploadChunk] assigns and stores a chunk under,
    and with it the ingestion endpoint, is
    studioId/participantId/chunk-D.webm, with D the index written with
    five decimal digits, zeros in front, up to 99999, and with all its
    digits beyond (indices that are safe integers from 0 up). For indices
    0 <= i < j <= 99999 of one participant the name of i is
    lexicographically before the name of j; and after [uploadChunk] has
    stored chunks of indices of that range, in any order, under a prefix
    that held nothing, [listChunks] gives their names in increasing
    numeric order of index. *)
Theorem objectName_order_matches_index
    (studioId participantId : string) (chunks : list (Z * list byte))
    (bucket : gmap string Minio.StoredObject) :
  Forall (fun chunk => 0 <= fst chunk <= 99999) chunks ->
  Minio.listChunks studioId participantId bucket = [] ->
  let key n := Minio.objectName studioId participantId (JS.Int n) in
  (forall i, 0 <= i <= MAX_SAFE_INTEGER ->
     exists k, (5 <= k)%nat
       /\ (i <= 99999 -> k = 5%nat)
       /\ (99999 < i -> 10 ^ (Z.of_nat k - 1) <= i < 10 ^ Z.of_nat k)
       /\ key i = chunkKey studioId participantId k i
       /\ (forall buffer b,
             Minio.uploadChunk true studioId participantId (JS.Int i) buffer b
             = Resolved (<[chunkKey studioId participantId k i
                           := Minio.mkObject buffer "video/webm"]> b,
                         chunkKey studioId participantId k i))
       /\ (forall env user fd payload st,
             uploadOf fd studioId participantId payload ->
             JS.parseInt (Route.ToString (Route.get "chunkIndex" fd))
             = JS.Int i ->
             studioId ∈ Route.studios st ->
             Route.minioUp env = true ->
             let '(st', resp) :=
               Route.POST env (Route.mkRequest (Some user) (Some fd)) st in
             Route.bucket st'
             = <[chunkKey studioId participantId k i
                 := Minio.mkObject payload "video/webm"]> (Route.bucket st)
             /\ (Route.responseStatus resp = 200%nat ->
                 exists rid total,
                   resp = Route.json
                            (Route.SuccessBody (JS.Int i)
                               (chunkKey studioId participantId k i) rid total)
                            200)))
  /\ (forall i j, 0 <= i -> i < j -> j <= 99999 -> JS.lexLt (key i) (key j))
  /\ exists bucket' l',
       uploadChunks true studioId participantId chunks bucket = Resolved bucket'
       /\ Sorted Z.le l' /\ NoDup l'
       /\ (forall i, i ∈ l' <-> i ∈ fst <$> chunks)
       /\ Minio.listChunks studioId participantId bucket' = key <$> l'
       /\ Minio.listChunks studioId participantId bucket'
          = chunkKey studioId participantId 5 <$> l'.
Proof.
  intros Hrange Hempty key. split; [|split].
  - intros i [Hi _].
    destruct (objectName_chunkKey studioId participantId i Hi)
      as (k & Hk & H5 & Hbig & Hkey).
    exists k. split; [exact Hk|]. split; [exact H5|]. split; [exact Hbig|].
    split; [exact Hkey|]. split.
    + intros buffer b. unfold Minio.uploadChunk, Minio.putObject.
      now rewrite Hkey.
    + intros env user fd payload st Hu Hidx Hstudio Hup.
      pose proof (POST_stores_chunk env user fd studioId participantId payload
                    st Hu Hstudio Hup) as Hb.
      rewrite Hidx, Hkey in Hb.
      destruct Hu as (Hc & Hs & Hp & _).
      pose proof (POST_accepted_ledger env
                    (Route.mkRequest (Some user) (Some fd)) fd
                    studioId participantId payload st eq_refl Hc Hs Hp) as Hok.
      destruct (Route.POST env _ st) as [st' resp]. simpl in Hb, Hok.
      split; [exact Hb|]. intros H200.
      destruct (Hok H200) as (r & _ & _ & _ & _ & _ & _ & _ & rid & Hresp).
      rewrite Hidx, Hkey in Hresp. eauto.
  - intros i j H0 Hij Hj. apply objectName_lt; assumption.
  - destruct (uploadChunks_resolved studioId participantId chunks bucket)
      as (bucket' & Hres & Hnames).
    set (l := remove_dups (fst <$> chunks)).
    assert (Hl : Forall (fun i => 0 <= i <= 99999) l).
    { apply Forall_forall. intros i Hin. subst l.
      apply elem_of_remove_dups, list_elem_of_fmap in Hin as (c & -> & Hc).
      rewrite Forall_forall in Hrange. now apply Hrange. }
    assert (Hlist : Minio.listChunks studioId participantId bucket'
                    = key <$> sortZ l).
    { apply listChunks_index_order; [apply NoDup_remove_dups|exact Hl|].
      intros name. fold key. rewrite Hnames. split.
      - intros Hin. apply list_elem_of_fmap in Hin as (i & -> & Hin).
        split; [|apply objectName_under_prefix].
        right. apply list_elem_of_fmap. exists i. split; [reflexivity|].
        unfold l in Hin. now rewrite elem_of_remove_dups in Hin.
      - intros [[Hold|Hnew] Hpre].
        + assert (Hin : name ∈ Minio.listChunks studioId participantId bucket)
            by (apply listChunks_elem; now split).
          rewrite Hempty in Hin. now apply elem_of_nil in Hin.
        + apply list_elem_of_fmap in Hnew as (i & -> & Hin).
          apply list_elem_of_fmap. exists i. split; [reflexivity|].
          unfold l. now rewrite elem_of_remove_dups. }
    exists bucket', (sortZ l). split; [exact Hres|].
    split; [apply sortZ_sorted|]. split; [|split; [|split]].
    + rewrite sortZ_perm. apply NoDup_remove_dups.
    + intros i. rewrite sortZ_perm. apply elem_of_remove_dups.
    + exact Hlist.
    + rewrite Hlist. apply Forall_fmap_ext.
      eapply Permutation_Forall; [symmetry; apply sortZ_perm|].
      eapply Forall_impl; [exact Hl|]. intros i Hi. simpl in Hi.
      apply objectName_fixedWidth. exact Hi.
Qed.

Lemma objectName_order_matches_index_witness :
  Minio.uploadChunk true "st" "usr" (JS.Int 9) [x09] ∅
  = Resolved ({["st/usr/chunk-00009.webm" := Minio.mkObject [x09] "video/webm"]},
              "st/usr/chunk-00009.webm")
  /\ JS.lexLt (Minio.objectName "st" "usr" (JS.Int 9))
              (Minio.objectName "st" "usr" (JS.Int 10))
  /\ exists bucket' l',
       uploadChunks true "st" "usr" [(10, [x0a]); (2, [x02]); (9, [x09])]
         {["st/usr2/chunk-00000.webm" := Minio.mkObject [x00] "video/webm"]}
       = Resolved bucket'
       /\ Sorted Z.le l' /\ NoDup l'
       /\ (forall i, i ∈ l' <-> i ∈ [10; 2; 9])
       /\ Minio.listChunks "st" "usr" bucket'
          = chunkKey "st" "usr" 5 <$> l'.
Proof.
  destruct (objectName_order_matches_index "st" "usr"
              [(10, [x0a]); (2, [x02]); (9, [x09])]
              {["st/usr2/chunk-00000.webm" := Minio.mkObject [x00] "video/webm"]})
    as (Hkey & Hlt & bucket' & l' & Hres & Hs & Hnd & Hin & _ & Hlist).
  { repeat constructor; simpl; lia. }
  { vm_compute. reflexivity. }
  split; [|split].
  - destruct (Hkey 9) as (k & _ & H5 & _ & _ & Hup & _);
      [unfold MAX_SAFE_INTEGER; lia|].
    rewrite (H5 ltac:(lia)) in Hup. apply Hup.
  - apply Hlt; lia.
  - exists bucket', l'. repeat split; try assumption; apply Hin.
Defined.

(** The listing of the witness, spelled out. *)
Example uploadChunks_listed_by_index :
  match uploadChunks true "st" "usr" [(10, [x0a]); (2, [x02]); (9, [x09])]
          {["st/usr2/chunk-00000.webm" := Minio.mkObject [x00] "video/webm"]}
  with
  | Resolved bucket' =>
      Minio.listChunks "st" "usr" bucket'
      = ["st/usr/chunk-00002.webm"; "st/usr/chunk-00009.webm";
         "st/usr/chunk-00010.webm"]
  | Rejected _ => False
  end.
Proof. vm_compute. reflexivity. Qed.

End KeyLayout.

(** ** The bucket's set-up *)

Section Bucket.

Import Minio.

(** X13. [initializeBucket] writes the bucket's policy only in the call that
    creates the bucket. A bucket that exists is left as it is, whatever
    the object store answers; so when the bucket has been made and the
    policy has then been refused, the call rejects, the bucket stays
    without policy, and no later call sets one. From no bucket and with
    nothing refused the bucket is made in us-east-1 with the policy that
    lets everyone read its objects. *)
Theorem initializeBucket_policy_only_at_creation f f' bucketName :
  (forall info,
     fst (fst (initializeBucket f bucketName (Some info))) = Some info)
  /\ (bucketExistsFails f = false -> makeBucketFails f = false ->
      setBucketPolicyFails f = true ->
      let '(b1, logs, res) := initializeBucket f bucketName None in
      b1 = Some (mkInfo "us-east-1" None)
      /\ res = Rejected "setBucketPolicy"
      /\ fst (fst (initializeBucket f' bucketName b1)) = b1)
  /\ (bucketExistsFails f = false -> makeBucketFails f = false ->
      setBucketPolicyFails f = false ->
      initializeBucket f bucketName None
      = (Some (mkInfo "us-east-1" (Some (publicRead bucketName))),
         [Log ("Created MinIO bucket: " +:+ bucketName)], Resolved tt)).
Proof.
  unfold initializeBucket. split; [|split].
  - intros info. destruct (bucketExistsFails f); reflexivity.
  - intros -> -> ->. repeat split. destruct (bucketExistsFails f'); reflexivity.
  - intros -> -> ->. reflexivity.
Qed.

End Bucket.


(** ** The recorder over whole schedules *)

Section Schedules.

Import Recorder.

Implicit Types (b : Browser) (s : Service) (rt : Runtime).

Lemma sentChunks_app effs1 effs2 :
  sentChunks (effs1 ++ effs2) = sentChunks effs1 ++ sentChunks effs2.
Proof. apply omap_app. Qed.

Lemma sentIndices_nil_sentChunks effs :
  sentIndices effs = [] -> sentChunks effs = [].
Proof.
  induction effs as [|e effs IH]; [reflexivity|].
  destruct e; simpl; try exact IH. discriminate.
Qed.

Lemma ondataavailableResume_sends_nothing p r s :
  sentIndices (snd (ondataavailableResume p r s)) = [].
Proof.
  unfold ondataavailableResume, uploadChunkSettle, callOnChunkUploaded,
    callOnError.
  destruct r as [e|[] [[e|]|]]; simpl;
    try destruct (String.eqb e ""); simpl;
    destruct (onChunkUploaded s), (onError s); reflexivity.
Qed.

Lemma step_sentChunks b t rt :
  sentChunks (snd (step b t rt)) = segmentsOf [t].
Proof.
  destruct t as [ts|k answer| | |data|k r| |e]; simpl.
  - destruct (startRecordingBegin b ts (service rt)) as [[[s effs] res]|]
      eqn:Hs; [|reflexivity].
    apply startRecordingBegin_keeps_index in Hs as [_ He].
    now apply sentIndices_nil_sentChunks.
  - destruct (acquiring rt !! k) as [ts|]; [|reflexivity].
    pose proof (startRecordingResume_keeps_index b ts answer (service rt))
      as [_ He].
    destruct (startRecordingResume b ts answer (service rt)) as [[s effs] res].
    now apply sentIndices_nil_sentChunks.
  - pose proof (stopRecording_keeps_index (service rt)) as [_ He].
    destruct (stopRecording (service rt)) as [s effs].
    now apply sentIndices_nil_sentChunks.
  - unfold cleanup. simpl.
    destruct (mediaRecorder (service rt)) as [r|],
      (localStream (service rt)) as [m|]; simpl;
      try destruct (isRecording (service rt) && snd (stop r)); reflexivity.
  - destruct data as [[|x blob]|]; reflexivity.
  - destruct (inflight rt !! k) as [p|]; [|reflexivity].
    pose proof (ondataavailableResume_sends_nothing p r (service rt)) as He.
    destruct (ondataavailableResume p r (service rt)) as [s effs].
    now apply sentIndices_nil_sentChunks.
  - reflexivity.
  - unfold callOnError. now destruct (onError (service rt)).
Qed.

(** X14. Capture never waits for the uploads and never repeats one: in any
    schedule whatever, the chunks of the requests sent are the segments
    with data in them that the recorder delivered, each once and in the
    order of delivery. Nothing else sends a request: not an upload that
    failed (there is no retry), not a stop, a restart or a clean-up. *)
Theorem every_segment_sent_once b ts : forall rt,
  sentChunks (snd (run b ts rt)) = segmentsOf ts.
Proof.
  induction ts as [|t ts IH]; intros rt; [reflexivity|].
  cbn [run]. pose proof (step_sentChunks b t rt) as Hstep.
  destruct (step b t rt) as [rt1 effs1]. specialize (IH rt1).
  destruct (run b ts rt1) as [rt2 effs2]. simpl in *.
  rewrite sentChunks_app, Hstep, IH.
  destruct t as [| | | |[[|x blob]|]| | |]; reflexivity.
Qed.

Lemma reportedIndices_nil_of_quiet effs :
  Forall (fun e => match e with CallOnChunkUploaded _ => False | _ => True end)
         effs ->
  reportedIndices effs = [].
Proof.
  induction 1 as [|e effs He _ IH]; [reflexivity|].
  destruct e; simpl; try exact IH. contradiction.
Qed.

(** What one task other than [cleanup] does to the counter: a successful
    answer to an upload moves it by one and reports the old value; any
    other task leaves it and reports nothing. *)
Lemma step_counter b t rt :
  isCleanup t = false ->
  onChunkUploaded (service rt) = true ->
  let '(rt', effs) := step b t rt in
  onChunkUploaded (service rt') = true
  /\ (reportedIndices effs = [] /\ chunkIndex (service rt') = chunkIndex (service rt)
      \/ reportedIndices effs = [chunkIndex (service rt)]
         /\ chunkIndex (service rt') = chunkIndex (service rt) + 1).
Proof.
  intros Hc Hcb.
  destruct t as [ts|k answer| | |data|k r| |e]; simpl; try discriminate.
  - unfold startRecordingBegin, startRecordingWithStream, newMediaRecorder,
      start, callOnError.
    destruct (isRecording (service rt)); simpl; [auto|].
    destruct (localStream (service rt)) as [m|]; simpl; [|auto].
    destruct (isTypeSupported b _); simpl; [auto|].
    destruct (onError (service rt)); simpl; auto.
  - destruct (acquiring rt !! k) as [ts|]; [|auto].
    unfold startRecordingResume, initializeStream, startRecordingWithStream,
      newMediaRecorder, start, callOnError.
    destruct answer as [m|err]; simpl.
    + destruct (isTypeSupported b _); simpl; [auto|].
      destruct (onError (service rt)); simpl; auto.
    + destruct (onError (service rt)); simpl; auto.
  - unfold stopRecording.
    destruct (isRecording (service rt)), (mediaRecorder (service rt)) as [r|];
      simpl; auto.
    destruct (stop r) as [r' []]; simpl; auto.
  - destruct data as [[|x blob]|]; simpl; auto.
  - destruct (inflight rt !! k) as [p|]; [|auto].
    unfold ondataavailableResume, uploadChunkSettle, callOnChunkUploaded,
      callOnError.
    rewrite Hcb.
    destruct r as [err|[] [[err|]|]]; simpl;
      try destruct (String.eqb err ""); simpl;
      destruct (onError (service rt)); simpl; auto.
  - auto.
  - unfold callOnError. destruct (onError (service rt)); simpl; auto.
Qed.



End Schedules.

(** ** The service on the call page *)

Section Page.

Import Recorder.

Implicit Types (b : Browser) (s : Service) (rt : Runtime).

Lemma applyCallbacks_count effs : forall st,
  StudioCall.chunksUploaded (StudioCall.applyCallbacks effs st)
  = (StudioCall.chunksUploaded st + length (reportedIndices effs))%nat.
Proof.
  unfold StudioCall.applyCallbacks.
  induction effs as [|e effs IH]; intros st; simpl; [lia|].
  rewrite IH. destruct e; simpl; lia.
Qed.

(** What the page and the service count stays in step: the number of
    uploaded chunks in the store and the service's counter move together. *)
Lemma page_step_counters b ev (c : StudioCall.Client) rt :
  StudioCall.mediaRecorderService c = Some rt ->
  onChunkUploaded (service rt) = true ->
  match ev with
  | StudioCall.ServiceTask t => isCleanup t = false
  | StudioCall.RecordingState _ => True
  end ->
  exists rt',
    StudioCall.mediaRecorderService (fst (StudioCall.step b ev c)) = Some rt'
    /\ onChunkUploaded (service rt') = true
    /\ Z.of_nat (StudioCall.chunksUploaded
                   (StudioCall.store (fst (StudioCall.step b ev c))))
       - chunkIndex (service rt')
       = Z.of_nat (StudioCall.chunksUploaded (StudioCall.store c))
         - chunkIndex (service rt).
Proof.
  intros Hrt Hcb Hev. destruct c as [st mrs]. simpl in Hrt. subst mrs.
  destruct ev as [v|t].
  - unfold StudioCall.step, StudioCall.onRecordingState.
    destruct v; simpl.
    + unfold StudioCall.startLocalRecording. simpl.
      destruct (startRecordingBegin b (Some 10000%N) (service rt))
        as [[[s effs] res]|] eqn:Hs; simpl.
      * pose proof (step_counter b (CallStartRecording (Some 10000%N)) rt
                      eq_refl Hcb) as H.
        simpl in H. rewrite Hs in H. simpl in H.
        destruct H as [Hcb' H].
        apply startRecordingBegin_keeps_index in Hs as [Hc _].
        eexists. split; [reflexivity|]. simpl. split; [exact Hcb'|]. lia.
      * eexists. split; [reflexivity|]. simpl. split; [exact Hcb|]. lia.
    + unfold StudioCall.stopLocalRecording. simpl.
      pose proof (step_counter b CallStopRecording rt eq_refl Hcb) as H.
      pose proof (stopRecording_keeps_index (service rt)) as [Hc _].
      simpl in H. destruct (stopRecording (service rt)) as [s effs]. simpl in *.
      destruct H as [Hcb' _].
      eexists. split; [reflexivity|]. simpl. split; [exact Hcb'|]. lia.
  - simpl. pose proof (step_counter b t rt Hev Hcb) as H.
    destruct (Recorder.step b t rt) as [rt' effs]. destruct H as [Hcb' H].
    simpl. eexists. split; [reflexivity|]. split; [exact Hcb'|].
    rewrite applyCallbacks_count.
    destruct H as [[-> ->]|[-> ->]]; simpl; lia.
Qed.

(** X16. The number of chunks the page shows as uploaded follows the
    service's counter: over any events of the page without a [cleanup],
    overlapping and failed uploads included, both grow by the same
    amount. *)
Theorem chunksUploaded_follows_chunkIndex b evs : forall (c : StudioCall.Client) rt,
  StudioCall.mediaRecorderService c = Some rt ->
  onChunkUploaded (service rt) = true ->
  noCleanup evs = true ->
  let c' := fst (StudioCall.run b evs c) in
  exists rt',
    StudioCall.mediaRecorderService c' = Some rt'
    /\ Z.of_nat (StudioCall.chunksUploaded (StudioCall.store c'))
       - Z.of_nat (StudioCall.chunksUploaded (StudioCall.store c))
       = chunkIndex (service rt') - chunkIndex (service rt).
Proof.
  induction evs as [|ev evs IH]; intros c rt Hrt Hcb Hevs; cbv zeta.
  - exists rt. simpl. split; [exact Hrt|lia].
  - unfold noCleanup in Hevs. cbn [forallb] in Hevs.
    apply andb_true_iff in Hevs as [Hev Hevs].
    destruct (page_step_counters b ev c rt Hrt Hcb) as (rt1 & Hrt1 & Hcb1 & Heq).
    { destruct ev as [v|t]; [exact I|]. now apply negb_true_iff in Hev. }
    cbn [StudioCall.run].
    destruct (StudioCall.step b ev c) as [c1 effs1]. simpl in Hrt1, Heq.
    specialize (IH c1 rt1 Hrt1 Hcb1 Hevs). cbv zeta in IH.
    destruct (StudioCall.run b evs c1) as [c2 effs2]. simpl in *.
    destruct IH as (rt2 & Hrt2 & Heq2). exists rt2. split; [exact Hrt2|]. lia.
Qed.

Lemma chunksUploaded_follows_chunkIndex_witness :
  let c' :=
    fst (StudioCall.run demoBrowser
           [StudioCall.RecordingState true;
            StudioCall.ServiceTask (StreamSettled 0 (Resolved (mkStream 1)));
            StudioCall.ServiceTask (DataAvailable (Some [x01]));
            StudioCall.ServiceTask (FetchSettled 0 demoOk)] demoClient) in
  StudioCall.chunksUploaded (StudioCall.store c') = 1%nat
  /\ (chunkIndex ∘ service <$> StudioCall.mediaRecorderService c') = Some 1.
Proof.
  destruct (chunksUploaded_follows_chunkIndex demoBrowser
              [StudioCall.RecordingState true;
               StudioCall.ServiceTask (StreamSettled 0 (Resolved (mkStream 1)));
               StudioCall.ServiceTask (DataAvailable (Some [x01]));
               StudioCall.ServiceTask (FetchSettled 0 demoOk)]
              demoClient demoRuntime eq_refl eq_refl eq_refl)
    as (rt' & Hrt & Heq).
  cbv zeta. rewrite Hrt. simpl in *.
  assert (Hc : chunkIndex (service rt') = 1).
  { vm_compute in Hrt. now injection Hrt as <-. }
  rewrite Hc in *. split; [lia|reflexivity].
Defined.

(** X17. The device is refused: [startRecording] reports the error to
    [onError] once and rejects, and the service is as before: no stream,
    no recorder, not recording. The page has already set its own flag and
    only logs the failure, so its store says "recording" while nothing is
    recorded. *)
Theorem refused_device_leaves_page_recording b st s fl acq e :
  isRecording s = false ->
  localStream s = None ->
  getUserMedia b highQuality = Rejected e ->
  startRecording b (Some 10000%N) s
  = (s, [GetUserMedia highQuality;
         ConsoleError "Failed to initialize high-quality stream"]
          ++ callOnError s e, Rejected e)
  /\ let '(c', effs) :=
       StudioCall.onRecordingStateSettled b true
         (StudioCall.mkClient st (Some (mkRuntime s fl acq))) in
     StudioCall.isRecording (StudioCall.store c') = true
     /\ StudioCall.mediaRecorderService c' = Some (mkRuntime s fl acq)
     /\ startedRecorders effs = []
     /\ effs = [ConsoleLog "Recording state changed";
                GetUserMedia highQuality;
                ConsoleError "Failed to initialize high-quality stream"]
               ++ callOnError s e
               ++ [ConsoleError "Failed to start local recording"].
Proof.
  intros Hrec Hstream Hget. split.
  - unfold startRecording, startRecordingBegin, startRecordingResume,
      initializeStream. rewrite Hrec, Hstream, Hget. reflexivity.
  - unfold StudioCall.onRecordingStateSettled, StudioCall.onRecordingState,
      StudioCall.startLocalRecording, startRecordingBegin. simpl.
    rewrite Hrec, Hstream. simpl. rewrite length_app. simpl.
    replace (length acq <? length acq + 1)%nat with true
      by (symmetry; apply Nat.ltb_lt; lia).
    simpl. rewrite lookup_app_r by reflexivity. rewrite Nat.sub_diag. simpl.
    unfold startRecordingResume, initializeStream. rewrite Hget. simpl.
    rewrite delete_middle, app_nil_r.
    unfold callOnError. destruct (onError s); simpl; repeat split;
      destruct st; reflexivity.
Qed.

Lemma refused_device_leaves_page_recording_witness :
  let denied :=
    mkBrowser (fun _ => Rejected "NotAllowedError") (isTypeSupported demoBrowser) in
  let '(c', effs) := StudioCall.onRecordingStateSettled denied true demoClient in
  StudioCall.isRecording (StudioCall.store c') = true
  /\ StudioCall.mediaRecorderService c' = Some demoRuntime
  /\ startedRecorders effs = [].
Proof.
  pose proof (refused_device_leaves_page_recording
                (mkBrowser (fun _ => Rejected "NotAllowedError")
                   (isTypeSupported demoBrowser))
                (StudioCall.store demoClient) (service demoRuntime) [] []
                "NotAllowedError" eq_refl eq_refl eq_refl) as [_ H].
  cbv zeta.
  change demoClient
    with (StudioCall.mkClient (StudioCall.store demoClient)
            (Some (mkRuntime (service demoRuntime) [] []))).
  destruct (StudioCall.onRecordingStateSettled _ true _) as [c' effs].
  destruct H as (H1 & H2 & H3 & _). repeat split; assumption.
Defined.



Lemma queuedStops_app effs1 effs2 :
  queuedStops (effs1 ++ effs2) = (queuedStops effs1 + queuedStops effs2)%nat.
Proof. unfold queuedStops. now rewrite omap_app, length_app. Qed.

Lemma stopRecording_again s r :
  isRecording s = true -> mediaRecorder s = Some r -> state r = inactive ->
  stopRecording s = (s, [ConsoleLog "Stopping recording..."]).
Proof.
  intros Hrec Hmr Hstate. unfold stopRecording, stop.
  rewrite Hrec, Hmr, Hstate. simpl. f_equal.
  destruct s, r; simpl in *. now subst.
Qed.

(** X19. However often [stopRecording] is called before the recorder has
    reported its stop, the recorder is told to stop once: the last
    segment is flushed one time, and the flag [isRecording] stays up until
    the recorder's [stop] event. *)
Theorem stopRecording_flushes_once b s r fl acq n :
  isRecording s = true ->
  mediaRecorder s = Some r ->
  state r <> inactive ->
  let '(rt', effs) :=
    run b (replicate (S n) CallStopRecording) (mkRuntime s fl acq) in
  queuedStops effs = 1%nat
  /\ isRecording (service rt') = true
  /\ (state <$> mediaRecorder (service rt')) = Some inactive
  /\ isRecording (service (fst (step b RecorderStop rt'))) = false.
Proof.
  intros Hrec Hmr Hstate.
  assert (Hidle : forall k s0 r0,
            isRecording s0 = true -> mediaRecorder s0 = Some r0 ->
            state r0 = inactive ->
            run b (replicate k CallStopRecording) (mkRuntime s0 fl acq)
            = (mkRuntime s0 fl acq,
               replicate k (ConsoleLog "Stopping recording..."))).
  { induction k as [|k IH]; intros s0 r0 H1 H2 H3; [reflexivity|].
    cbn [replicate run step service inflight acquiring].
    rewrite (stopRecording_again s0 r0 H1 H2 H3).
    now rewrite (IH s0 r0 H1 H2 H3). }
  cbn [replicate run step service inflight acquiring].
  unfold stopRecording at 1. rewrite Hrec, Hmr. unfold stop.
  destruct (state r) eqn:Hst; [contradiction|..];
    rewrite (Hidle n _ (mkRecorder (stream r) (options r) inactive (timeslice r)))
      by (try exact Hrec; reflexivity);
    simpl;
    change (QueueStop :: ConsoleLog "Stopping recording..."
              :: replicate n (ConsoleLog "Stopping recording..."))
      with ([QueueStop; ConsoleLog "Stopping recording..."]
              ++ replicate n (ConsoleLog "Stopping recording..."));
    rewrite queuedStops_app;
    (replace (queuedStops (replicate n (ConsoleLog "Stopping recording...")))
       with 0%nat
       by (clear; induction n as [|n IH]; [reflexivity|exact IH]));
    repeat split; exact Hrec.
Qed.

Lemma stopRecording_flushes_once_witness :
  let s := fst (fst (startRecording demoBrowser None (service demoRuntime))) in
  queuedStops
    (snd (run demoBrowser [CallStopRecording; CallStopRecording; CallStopRecording]
            (mkRuntime s [] [])))
  = 1%nat.
Proof.
  pose proof (stopRecording_flushes_once demoBrowser
                (fst (fst (startRecording demoBrowser None (service demoRuntime))))
                (mkRecorder (mkStream 1) (mkOptions vp8 8000000 256000) recording
                   (Some 10000%N))
                [] [] 2 eq_refl eq_refl ltac:(discriminate)) as H.
  cbv zeta.
  change (replicate 3 CallStopRecording)
    with [CallStopRecording; CallStopRecording; CallStopRecording] in H.
  destruct (run demoBrowser _ _) as [rt' effs].
  destruct H as [H _]. exact H.
Defined.

(** X20. A start that arrives after [stopRecording] and before the recorder
    has reported its stop is lost: [isRecording] is still up, so
    [startRecording] only warns, and the recorder's [stop] event then
    takes the flag down. On the page, [recording-state] false followed by
    true within that time leaves the store saying "recording" with no
    recorder running. *)
Theorem start_before_stop_event_is_lost b st s r fl acq :
  isRecording s = true ->
  mediaRecorder s = Some r ->
  state r <> inactive ->
  let '(c', effs) :=
    StudioCall.run b
      [StudioCall.RecordingState false; StudioCall.RecordingState true;
       StudioCall.ServiceTask RecorderStop]
      (StudioCall.mkClient st (Some (mkRuntime s fl acq))) in
  StudioCall.isRecording (StudioCall.store c') = true
  /\ (isRecording ∘ service <$> StudioCall.mediaRecorderService c') = Some false
  /\ (fmap state ∘ mediaRecorder ∘ service <$> StudioCall.mediaRecorderService c')
     = Some (Some inactive)
  /\ startedRecorders effs = []
  /\ ConsoleWarn "Recording already in progress" ∈ effs.
Proof.
  intros Hrec Hmr Hstate.
  cbn [StudioCall.run StudioCall.step].
  unfold StudioCall.onRecordingState at 1.
  cbn [StudioCall.store StudioCall.mediaRecorderService].
  unfold StudioCall.stopLocalRecording.
  cbn [StudioCall.mediaRecorderService service inflight acquiring].
  unfold stopRecording, stop. rewrite Hrec, Hmr.
  destruct (state r) eqn:Hst; [contradiction|..];
    cbn -[StudioCall.run StudioCall.step String.eqb];
    unfold StudioCall.onRecordingState, StudioCall.startLocalRecording,
      startRecordingBegin;
    cbn; rewrite Hrec; cbn; repeat split; set_solver.
Qed.

Lemma start_before_stop_event_is_lost_witness :
  let s := fst (fst (startRecording demoBrowser None (service demoRuntime))) in
  let '(c', effs) :=
    StudioCall.run demoBrowser
      [StudioCall.RecordingState false; StudioCall.RecordingState true;
       StudioCall.ServiceTask RecorderStop]
      (StudioCall.mkClient (StudioCall.store demoClient)
         (Some (mkRuntime s [] []))) in
  StudioCall.isRecording (StudioCall.store c') = true
  /\ (isRecording ∘ service <$> StudioCall.mediaRecorderService c') = Some false
  /\ startedRecorders effs = [].
Proof.
  pose proof (start_before_stop_event_is_lost demoBrowser
                (StudioCall.store demoClient)
                (fst (fst (startRecording demoBrowser None (service demoRuntime))))
                (mkRecorder (mkStream 1) (mkOptions vp8 8000000 256000) recording
                   (Some 10000%N))
                [] [] eq_refl eq_refl ltac:(discriminate)) as H.
  cbv zeta. destruct (StudioCall.run demoBrowser _ _) as [c' effs].
  destruct H as (H1 & H2 & _ & H4 & _). repeat split; assumption.
Defined.

End Page.


(** ** From the recorder to the bucket and back *)

Section SegmentPath.

Import Recorder.

Implicit Types (b : Browser) (s : Service).

Lemma uploadForm_uploadOf s blob i :
  studioId s <> "" -> participantId s <> "" ->
  uploadOf (uploadForm s blob i) (studioId s) (participantId s) blob.
Proof.
  intros Hs Hp. unfold uploadOf, passesValidation, uploadForm. simpl.
  rewrite parseInt_Z_toString. simpl.
  apply String.eqb_neq in Hs, Hp. rewrite Hs, Hp. repeat split.
Qed.

(** X21. One segment, from the recorder to the bucket and back: with studio
    and participant identifiers that are not empty, the request the
    service builds for a segment passes the endpoint's validation with
    the counter's value as its index (the decimal text reads back as the
    number); the studio existing, the object store answering and the
    ledger taking the bytes, the endpoint stores the segment under the
    name of that index, adds its length to the ledger and answers 200;
    and on that answer the service reports the index and moves its
    counter by one. *)
Theorem segment_round_trip env user s x blob st :
  studioId s <> "" -> participantId s <> "" ->
  studioId s ∈ Route.studios st ->
  Route.minioUp env = true ->
  ledgerAdmits (studioId s) (participantId s)
    (Z.of_nat (length (x :: blob))) st ->
  let form := uploadForm s (x :: blob) (chunkIndex s) in
  let name :=
    Minio.objectName (studioId s) (participantId s) (JS.Int (chunkIndex s)) in
  snd (ondataavailable (Some (x :: blob)) s)
  = Some (mkPending (x :: blob) (chunkIndex s))
  /\ sentChunks (fst (ondataavailable (Some (x :: blob)) s)) = [x :: blob]
  /\ let '(st', resp) :=
       Route.POST env (Route.mkRequest (Some user) (Some form)) st in
     Route.responseStatus resp = 200%nat
     /\ Route.bucket st'
        = <[name := Minio.mkObject (x :: blob) "video/webm"]> (Route.bucket st)
     /\ accumulatedSize (studioId s) (participantId s) st'
        = Some (default 0 (accumulatedSize (studioId s) (participantId s) st)
                + Z.of_nat (length (x :: blob)))
     /\ ondataavailableResume (mkPending (x :: blob) (chunkIndex s))
          (fetchResultOf resp) s
        = (setChunkIndex s (chunkIndex s + 1),
           ConsoleLog ("Chunk " +:+ JS.Z_toString (chunkIndex s)
                         +:+ " uploaded successfully")
             :: callOnChunkUploaded s (chunkIndex s)).
Proof.
  intros Hs Hp Hstudio Hup Hadm form name.
  split; [reflexivity|]. split; [reflexivity|].
  pose proof (uploadForm_uploadOf s (x :: blob) (chunkIndex s) Hs Hp) as Hu.
  pose proof (POST_accepts env user form (studioId s) (participantId s)
                (x :: blob) st Hu Hstudio Hup Hadm) as Hok.
  pose proof (recorder_upload_stored env user s (x :: blob) (chunkIndex s) st)
    as Hstored.
  cbv zeta in Hstored. fold form in Hstored.
  destruct (Hstored Hok) as [Hb Hsize].
  destruct (Route.POST env _ st) as [st' resp]. simpl in *.
  split; [exact Hok|]. split; [exact Hb|]. split; [exact Hsize|].
  unfold ondataavailableResume, uploadChunkSettle, fetchResultOf.
  rewrite Hok. simpl. destruct (Route.body resp); reflexivity.
Qed.

Lemma segment_round_trip_witness :
  let s := service demoRuntime in
  let '(st', resp) :=
    Route.POST demoEnv
      (Route.mkRequest (Some demoUser) (Some (uploadForm s [x01; x02] 0)))
      demoServer in
  Route.responseStatus resp = 200%nat
  /\ Route.bucket st' !! "studio1/user1/chunk-00000.webm"
     = Some (Minio.mkObject [x01; x02] "video/webm")
  /\ chunkIndex (fst (ondataavailableResume (mkPending [x01; x02] 0)
                        (fetchResultOf resp) s)) = 1.
Proof.
  pose proof (segment_round_trip demoEnv demoUser (service demoRuntime) x01 [x02]
                demoServer) as H.
  cbv zeta in H. cbv zeta.
  change (chunkIndex (service demoRuntime)) with 0 in H.
  destruct (Route.POST demoEnv _ demoServer) as [st' resp].
  destruct H as (_ & _ & Hok & Hb & _ & Hres).
  - discriminate.
  - discriminate.
  - vm_compute. set_solver.
  - reflexivity.
  - vm_compute. split; [set_solver|discriminate].
  - split; [exact Hok|]. split.
    + rewrite Hb. apply lookup_insert_eq.
    + now rewrite Hres.
Defined.

Lemma POST_error_body env req st :
  Route.responseStatus (snd (Route.POST env req st)) <> 200%nat ->
  exists status reason,
    snd (Route.POST env req st) = Route.json (Route.ErrorBody reason) status
    /\ (status, reason)
       ∈ [(400%nat,
           "Missing required fields: chunk, studioId, participantId, chunkIndex");
          (401%nat, "Unauthorized"); (404%nat, "Studio not found");
          (500%nat, "Failed to upload chunk")].
Proof.
  unfold Route.POST, Route.json500.
  destruct (Route.session req) as [user|];
    [|intros _; do 2 eexists; split; [reflexivity|set_solver]].
  destruct (Route.formData req) as [fd|];
    [|intros _; do 2 eexists; split; [reflexivity|set_solver]].
  cbv zeta.
  destruct (Route.falsy _ || Route.falsy _ || Route.falsy _ || JS.isNaN _);
    [intros _; do 2 eexists; split; [reflexivity|set_solver]|].
  destruct (Route.get "studioId" fd) as [[sid|]|];
    [|intros _; do 2 eexists; split; [reflexivity|set_solver]..].
  destruct (bool_decide (sid ∈ Route.studios st));
    [|intros _; do 2 eexists; split; [reflexivity|set_solver]].
  destruct (Route.get "chunk" fd) as [[|buffer]|];
    [intros _; do 2 eexists; split; [reflexivity|set_solver]|
    |intros _; do 2 eexists; split; [reflexivity|set_solver]].
  destruct (Minio.uploadChunk _ _ _ _ _ _) as [[bucket' name]|];
    [|intros _; do 2 eexists; split; [reflexivity|set_solver]].
  destruct (Route.get "participantId" fd) as [[pid|]|];
    [|intros _; do 2 eexists; split; [reflexivity|set_solver]..].
  destruct (Route.upsert _ _ _ _ _ _ _) as [[st2 r]|e];
    [intros H; now contradiction H|].
  intros _; do 2 eexists; split; [reflexivity|set_solver].
Qed.

(** X22. An upload the endpoint does not accept, whatever the request and the
    state of the server: the answer carries one of four reasons, by
    status; the service hands that reason to [onError], which the page
    shows to the user, logs the failure and leaves its counter where it
    was. *)
Theorem refused_upload_reports_reason env req st p s :
  Route.responseStatus (snd (Route.POST env req st)) <> 200%nat ->
  exists status reason,
    snd (Route.POST env req st) = Route.json (Route.ErrorBody reason) status
    /\ (status, reason)
       ∈ [(400%nat,
           "Missing required fields: chunk, studioId, participantId, chunkIndex");
          (401%nat, "Unauthorized"); (404%nat, "Studio not found");
          (500%nat, "Failed to upload chunk")]
    /\ ondataavailableResume p (fetchResultOf (snd (Route.POST env req st))) s
       = (s, ConsoleError ("Failed to upload chunk "
                             +:+ JS.Z_toString (chunkIndex s))
               :: callOnError s reason).
Proof.
  intros Hno. destruct (POST_error_body env req st Hno)
    as (status & reason & Hresp & Hin).
  exists status, reason. split; [exact Hresp|]. split; [exact Hin|].
  rewrite Hresp. unfold ondataavailableResume, uploadChunkSettle, fetchResultOf.
  simpl. rewrite !elem_of_cons in Hin.
  destruct Hin as [[= -> ->]|[[= -> ->]|[[= -> ->]|[[= -> ->]|Hin]]]];
    [reflexivity..|]. now apply elem_of_nil in Hin.
Qed.

Lemma refused_upload_reports_reason_witness :
  ondataavailableResume (mkPending [x01] 0)
    (fetchResultOf
       (snd (Route.POST demoEnv (demoRequest "studio2" "user1" "0" [x01])
               demoServer)))
    (service demoRuntime)
  = (service demoRuntime,
     [ConsoleError "Failed to upload chunk 0"; CallOnError "Studio not found"]).
Proof.
  destruct (refused_upload_reports_reason demoEnv
              (demoRequest "studio2" "user1" "0" [x01]) demoServer
              (mkPending [x01] 0) (service demoRuntime))
    as (status & reason & Hresp & _ & Hres).
  - vm_compute. discriminate.
  - rewrite Hres. injection Hresp as <- _. reflexivity.
Defined.

End SegmentPath.

(** ** The coordination channel *)

Section Channel.

Import Socket.

Implicit Types (io : SocketIOServer).

Lemma inbox_app socket sent1 sent2 :
  inbox socket (sent1 ++ sent2) = inbox socket sent1 ++ inbox socket sent2.
Proof. apply omap_app. Qed.

Lemma inbox_emit socket (to : gset string) ev :
  inbox socket (emit to ev) = if decide (socket ∈ to) then [ev] else [].
Proof.
  unfold emit, inbox.
  assert (H : forall l : list string, NoDup l ->
            omap (fun d : string * ServerToClient =>
                    if decide (fst d = socket) then Some (snd d) else None)
                 ((fun s => (s, ev)) <$> l)
            = if decide (socket ∈ l) then [ev] else []).
  { induction 1 as [|x l Hx Hnd IH].
    - simpl. destruct (decide (socket ∈ [])) as [Hin|]; [|reflexivity].
      now apply elem_of_nil in Hin.
    - rewrite fmap_cons.
      change (omap ?f (?d :: ?ds))
        with (match f d with Some y => y :: omap f ds | None => omap f ds end).
      rewrite IH. cbn [fst snd]. destruct (decide (x = socket)) as [->|Hne].
      + destruct (decide (socket ∈ l)); [contradiction|].
        destruct (decide (socket ∈ socket :: l)) as [|Hn]; [reflexivity|].
        exfalso. apply Hn. left.
      + destruct (decide (socket ∈ l)) as [Hin|Hnin];
          destruct (decide (socket ∈ x :: l)) as [Hin'|Hnin'];
          try reflexivity.
        * exfalso. apply Hnin'. now right.
        * apply elem_of_cons in Hin' as [->|]; [congruence|contradiction]. }
  rewrite (H (elements to) (NoDup_elements to)).
  destruct (decide (socket ∈ elements to)) as [Hin|Hnin];
    destruct (decide (socket ∈ to)) as [Hin'|Hnin']; try reflexivity.
  - exfalso. apply Hnin'. now apply elem_of_elements.
  - exfalso. apply Hnin. now apply elem_of_elements.
Qed.

Lemma members_join socket room io room' :
  members (join socket room io) room'
  = if decide (room = room') then {[socket]} ∪ members io room
    else members io room'.
Proof.
  unfold members, join. simpl. destruct (decide (room = room')) as [->|Hne].
  - now rewrite lookup_insert_eq.
  - now rewrite lookup_insert_ne.
Qed.

Lemma members_leave socket room io room' :
  members (leave socket room io) room'
  = if decide (room = room') then members io room ∖ {[socket]}
    else members io room'.
Proof.
  unfold members, leave. simpl. destruct (decide (room = room')) as [->|Hne].
  - rewrite lookup_alter_eq. destruct (rooms io !! room'); simpl;
      [reflexivity|].
    symmetry. apply leibniz_equiv. apply difference_disjoint.
    apply disjoint_empty_l.
  - now rewrite lookup_alter_ne.
Qed.

(** X23. How the three relayed events reach a room. A [recording-state] event
    goes to the room as it is at that moment: every socket in it receives
    the value once, with the time of the server, the sender too if it is
    in the room, and who sends it is not looked at (the sender need be
    neither the host nor in the room). The notices of a join and of an
    uploaded chunk go to the others: every other socket of the room
    receives them once and the sender never. A socket outside the room
    receives nothing, and only a join changes the rooms. *)
Theorem events_reach_the_room now sender studioId v participantId chunkIndex io :
  (let '(io', sent, _) := on now sender (EmitRecordingState studioId v) io in
   io' = io
   /\ forall socket,
        inbox socket sent
        = if decide (socket ∈ members io studioId)
          then [RecordingState v now] else [])
  /\ (let '(io', sent, _) := on now sender (JoinStudio studioId) io in
      members io' studioId = {[sender]} ∪ members io studioId
      /\ forall socket,
           inbox socket sent
           = if decide (socket ∈ members io studioId ∖ {[sender]})
             then [ParticipantJoined sender now] else [])
  /\ (let '(io', sent, _) :=
        on now sender (EmitChunkUploaded studioId participantId chunkIndex) io in
      io' = io
      /\ forall socket,
           inbox socket sent
           = if decide (socket ∈ members io studioId ∖ {[sender]})
             then [ChunkUploaded participantId chunkIndex] else []).
Proof.
  split; [|split]; cbn [on fst snd].
  - split; [reflexivity|]. intros socket. apply inbox_emit.
  - rewrite members_join. destruct (decide (studioId = studioId)); [|congruence].
    split; [reflexivity|]. intros socket. rewrite inbox_emit. unfold others.
    rewrite members_join. destruct (decide (studioId = studioId)); [|congruence].
    replace (({[sender]} ∪ members io studioId) ∖ {[sender]})
      with (members io studioId ∖ {[sender]}); [reflexivity|].
    apply leibniz_equiv. intros x.
    rewrite !elem_of_difference, elem_of_union, elem_of_singleton. tauto.
  - split; [reflexivity|]. intros socket. apply inbox_emit.
Qed.

(** X24. Nothing is replayed to a socket that joins: the deliveries of a
    broadcast followed by the join of a socket that was not in the room
    hold nothing for that socket, while the sockets already in the room
    have the recording state and then the notice of the join. On the
    pages, a member's store takes the value sent, and the late page's
    store stays as it was. *)
Theorem late_joiner_misses_recording_state b host joiner studioId v t1 t2 io
    (page late : StudioCall.Client) :
  joiner ∉ members io studioId ->
  let '(io', sent) :=
    run [(t1, host, EmitRecordingState studioId v);
         (t2, joiner, JoinStudio studioId)] io in
  joiner ∈ members io' studioId
  /\ inbox joiner sent = []
  /\ (forall member, member ∈ members io studioId ->
        inbox member sent
        = [RecordingState v t1; ParticipantJoined joiner t2]
        /\ StudioCall.isRecording
             (StudioCall.store
                (fst (StudioCall.run b
                        (StudioCall.subscribed (inbox member sent)) page)))
           = v)
  /\ fst (StudioCall.run b (StudioCall.subscribed (inbox joiner sent)) late)
     = late.
Proof.
  intros Hout. simpl. rewrite !app_nil_r.
  assert (Hjoiner : inbox joiner
                      (emit (members io studioId) (RecordingState v t1)
                       ++ emit (others joiner studioId (join joiner studioId io))
                            (ParticipantJoined joiner t2)) = []).
  { rewrite inbox_app, !inbox_emit.
    destruct (decide (joiner ∈ members io studioId)); [contradiction|].
    unfold others.
    destruct (decide (joiner ∈ _)) as [Hin|]; [|reflexivity].
    rewrite elem_of_difference, elem_of_singleton in Hin. tauto. }
  split; [|split; [exact Hjoiner|split]].
  - rewrite members_join. destruct (decide (studioId = studioId));
      [|congruence].
    apply elem_of_union_l, elem_of_singleton. reflexivity.
  - intros member Hin.
    assert (Hinbox : inbox member
                       (emit (members io studioId) (RecordingState v t1)
                        ++ emit (others joiner studioId (join joiner studioId io))
                             (ParticipantJoined joiner t2))
                     = [RecordingState v t1; ParticipantJoined joiner t2]).
    { rewrite inbox_app, !inbox_emit.
      destruct (decide (member ∈ members io studioId)); [|contradiction].
      unfold others. rewrite members_join.
      destruct (decide (studioId = studioId)); [|congruence].
      destruct (decide (member ∈ _)) as [|Hnin]; [reflexivity|].
      exfalso. apply Hnin.
      rewrite elem_of_difference, elem_of_union, elem_of_singleton.
      split; [now right|]. intros ->. contradiction. }
    rewrite Hinbox. split; [reflexivity|]. simpl.
    unfold StudioCall.onRecordingState.
    destruct v; simpl.
    + destruct (StudioCall.startLocalRecording b _) as [c2 effs]  eqn:Hs.
      unfold StudioCall.startLocalRecording in Hs. simpl in Hs.
      destruct (StudioCall.mediaRecorderService page) as [rt|];
        [|now injection Hs as <- _].
      destruct (Recorder.startRecordingBegin _ _ _) as [[[s e] res]|];
        now injection Hs as <- _.
    + destruct (StudioCall.stopLocalRecording _) as [c2 effs] eqn:Hs.
      unfold StudioCall.stopLocalRecording in Hs. simpl in Hs.
      destruct (StudioCall.mediaRecorderService page) as [rt|];
        [|now injection Hs as <- _].
      destruct (Recorder.stopRecording _) as [s e]. now injection Hs as <- _.
  - rewrite Hjoiner. reflexivity.
Qed.

Lemma late_joiner_misses_recording_state_witness :
  let io := fst (run [("t0", "a", JoinStudio "studio1");
                      ("t0", "b", JoinStudio "studio1")] (mkIO ∅)) in
  let '(io', sent) :=
    run [("t1", "a", EmitRecordingState "studio1" true);
         ("t2", "c", JoinStudio "studio1")] io in
  inbox "c" sent = []
  /\ inbox "b" sent
     = [RecordingState true "t1"; ParticipantJoined "c" "t2"].
Proof.
  pose proof (late_joiner_misses_recording_state demoBrowser "a" "c" "studio1"
                true "t1" "t2"
                (fst (run [("t0", "a", JoinStudio "studio1");
                           ("t0", "b", JoinStudio "studio1")] (mkIO ∅)))
                demoClient demoClient) as H.
  cbv zeta.
  destruct (run [("t1", "a", EmitRecordingState "studio1" true); _] _)
    as [io' sent].
  destruct H as (_ & Hc & Hb & _).
  - vm_compute. set_solver.
  - split; [exact Hc|]. apply Hb. vm_compute. set_solver.
Defined.

Lemma members_disconnect socket io room :
  members (fst (fst (on "" socket Disconnect io))) room
  = members io room ∖ {[socket]}.
Proof.
  unfold members. simpl. rewrite lookup_fmap.
  destruct (rooms io !! room) as [sockets|]; simpl; [reflexivity|].
  symmetry. apply leibniz_equiv. apply difference_disjoint.
  apply disjoint_empty_l.
Qed.

(** X25. Leaving and being cut off are told apart by the others. A socket that
    sends [leave-studio] is taken out of the room and every socket left in
    it is told so once; a socket that disconnects is taken out of every
    room and nobody is told. Either way the socket receives nothing of
    what is sent to the room afterwards. So a page that goes away (it
    sends [leave-studio] and then disconnects) is announced once. *)
Theorem leaving_is_announced_disconnecting_is_not now later socket studioId
    host v io :
  (let '(io', sent, _) := on now socket (LeaveStudio studioId) io in
   members io' studioId = members io studioId ∖ {[socket]}
   /\ (forall other,
         inbox other sent
         = if decide (other ∈ members io studioId ∖ {[socket]})
           then [ParticipantLeft socket now] else [])
   /\ inbox socket
        (snd (fst (on later host (EmitRecordingState studioId v) io'))) = [])
  /\ (let '(io', sent, _) := on now socket Disconnect io in
      sent = []
      /\ (forall room, socket ∉ members io' room)
      /\ inbox socket
           (snd (fst (on later host (EmitRecordingState studioId v) io'))) = [])
  /\ (let '(io', sent) :=
        run ((fun ev => (now, socket, ev)) <$> StudioCall.socketCleanup studioId)
          io in
      (forall other,
         inbox other sent
         = if decide (other ∈ members io studioId ∖ {[socket]})
           then [ParticipantLeft socket now] else [])
      /\ forall room, socket ∉ members io' room).
Proof.
  assert (Hleave : forall other,
            inbox other
              (emit (others socket studioId (leave socket studioId io))
                 (ParticipantLeft socket now))
            = if decide (other ∈ members io studioId ∖ {[socket]})
              then [ParticipantLeft socket now] else []).
  { intros other. rewrite inbox_emit. unfold others. rewrite members_leave.
    destruct (decide (studioId = studioId)); [|congruence].
    replace (members io studioId ∖ {[socket]} ∖ {[socket]})
      with (members io studioId ∖ {[socket]}); [reflexivity|].
    apply leibniz_equiv. intros x.
    rewrite !elem_of_difference. tauto. }
  assert (Hgone : forall io0 room,
            socket ∉ members (fst (fst (on now socket Disconnect io0))) room).
  { intros io0 room.
    change (on now socket Disconnect io0) with
      (mkIO ((fun sockets => sockets ∖ {[socket]}) <$> rooms io0),
       @nil (string * ServerToClient), [Log ("Socket disconnected: " +:+ socket)]).
    pose proof (members_disconnect socket io0 room) as Hm. simpl in *.
    rewrite Hm. rewrite elem_of_difference, elem_of_singleton. tauto. }
  split; [|split].
  - cbn [on fst snd]. rewrite members_leave.
    destruct (decide (studioId = studioId)); [|congruence].
    split; [reflexivity|]. split; [exact Hleave|].
    rewrite inbox_emit.
    destruct (decide (socket ∈ _)) as [Hin|]; [|reflexivity].
    rewrite elem_of_difference, elem_of_singleton in Hin. tauto.
  - pose proof (Hgone io) as Hg. cbn [on fst snd] in *.
    split; [reflexivity|]. split; [exact Hg|].
    rewrite inbox_emit. destruct (decide (socket ∈ _)) as [Hin|]; [|reflexivity].
    now apply Hg in Hin.
  - pose proof (Hgone (leave socket studioId io)) as Hg.
    cbn [on fst snd run StudioCall.socketCleanup fmap list_fmap] in *.
    rewrite !app_nil_r. split; [exact Hleave|exact Hg].
Qed.

(** X26. The host's button, around the loop: the page asks for the opposite
    of what its own store says (and sends nothing while it has no socket),
    the server passes the value to the room, and every page in the room,
    the host's too, sets its store to that value, whatever it held
    before. *)
Theorem toggle_reaches_every_page b now host studioId io
    (hostPage page : StudioCall.Client) member :
  member ∈ members io studioId ->
  let v := negb (StudioCall.isRecording (StudioCall.store hostPage)) in
  StudioCall.toggleRecording true studioId hostPage
  = Some (EmitRecordingState studioId v)
  /\ StudioCall.toggleRecording false studioId hostPage = None
  /\ let '(io', sent, _) := on now host (EmitRecordingState studioId v) io in
     StudioCall.isRecording
       (StudioCall.store
          (fst (StudioCall.run b
                  (StudioCall.subscribed (inbox member sent)) page)))
     = v.
Proof.
  intros Hin v. split; [reflexivity|]. split; [reflexivity|].
  cbn [on]. rewrite inbox_emit.
  destruct (decide (member ∈ members io studioId)); [|contradiction].
  simpl. unfold StudioCall.onRecordingState.
  destruct v; simpl.
  - destruct (StudioCall.startLocalRecording b _) as [c2 effs] eqn:Hs.
    unfold StudioCall.startLocalRecording in Hs. simpl in Hs.
    destruct (StudioCall.mediaRecorderService page) as [rt|];
      [|now injection Hs as <- _].
    destruct (Recorder.startRecordingBegin _ _ _) as [[[s0 e0] res]|];
      now injection Hs as <- _.
  - destruct (StudioCall.stopLocalRecording _) as [c2 effs] eqn:Hs.
    unfold StudioCall.stopLocalRecording in Hs. simpl in Hs.
    destruct (StudioCall.mediaRecorderService page) as [rt|];
      [|now injection Hs as <- _].
    destruct (Recorder.stopRecording _) as [s0 e0]. now injection Hs as <- _.
Qed.

Lemma toggle_reaches_every_page_witness :
  let io := fst (run [("t0", "a", JoinStudio "studio1");
                      ("t0", "b", JoinStudio "studio1")] (mkIO ∅)) in
  StudioCall.toggleRecording true "studio1" demoClient
  = Some (EmitRecordingState "studio1" true)
  /\ StudioCall.isRecording
       (StudioCall.store
          (fst (StudioCall.run demoBrowser
                  (StudioCall.subscribed
                     (inbox "b"
                        (snd (fst (on "t1" "a"
                                     (EmitRecordingState "studio1" true) io)))))
                  demoClient)))
     = true.
Proof.
  destruct (toggle_reaches_every_page demoBrowser "t1" "a" "studio1"
              (fst (run [("t0", "a", JoinStudio "studio1");
                         ("t0", "b", JoinStudio "studio1")] (mkIO ∅)))
              demoClient demoClient "b")
    as (Htoggle & _ & Hpage).
  - vm_compute. set_solver.
  - split; [exact Htoggle|].
    cbv zeta. cbv zeta in Hpage.
    change (negb (StudioCall.isRecording (StudioCall.store demoClient)))
      with true in Hpage.
    destruct (on "t1" "a" _ _) as [[io' sent] logs]. exact Hpage.
Defined.

End Channel.


(** ** The token endpoint of the live call *)

Section LiveKitToken.

Import LiveKit.

Lemma orDefault_not_empty v fallback :
  fallback <> "" -> orDefault v fallback <> "".
Proof.
  intros Hf. unfold orDefault. destruct v as [s|]; [|exact Hf].
  destruct (String.eqb s "") eqn:Hs; [exact Hf|].
  now apply String.eqb_neq.
Qed.

(** X27. [validateLiveKitConfig] cannot fail: the key and the secret fall back
    to "devkey" and "secret" when the environment does not give them, so
    they are never empty, the function answers true whatever the
    environment, and nothing is printed. *)
Theorem validateLiveKitConfig_always_true env :
  validateLiveKitConfig env = (true, [])
  /\ LIVEKIT_API_KEY env <> "" /\ LIVEKIT_API_SECRET env <> "".
Proof.
  assert (Hk : LIVEKIT_API_KEY env <> "")
    by (apply orDefault_not_empty; discriminate).
  assert (Hs : LIVEKIT_API_SECRET env <> "")
    by (apply orDefault_not_empty; discriminate).
  split; [|now split]. unfold validateLiveKitConfig.
  apply String.eqb_neq in Hk, Hs. now rewrite Hk, Hs.
Qed.

(** X28. The token endpoint answers 200 exactly when the caller is signed in
    and the body is an object whose [roomName] and [participantIdentity]
    are truthy; a caller who is not signed in is answered 401 before the
    body is read. *)
Theorem livekit_POST_accepts_iff env req :
  (responseStatus (POST env req) = 200%nat
   <-> exists user fields,
         session req = Some user
         /\ jsonBody req = Some (BodyObject fields)
         /\ truthy (field "roomName" fields) = true
         /\ truthy (field "participantIdentity" fields) = true)
  /\ (session req = None -> POST env req = json (ErrorBody "Unauthorized") 401).
Proof.
  split.
  - unfold POST, json500. split.
    + destruct (session req) as [user|]; [|discriminate].
      destruct (jsonBody req) as [[|fields|]|]; simpl; try discriminate.
      destruct (truthy (field "roomName" fields)) eqn:Hr; simpl;
        [|discriminate].
      destruct (truthy (field "participantIdentity" fields)) eqn:Hi; simpl;
        [|discriminate].
      intros _. exists user, fields. repeat split; assumption.
    + intros (user & fields & -> & -> & Hr & Hi). simpl. now rewrite Hr, Hi.
  - intros Hnone. unfold POST. now rewrite Hnone.
Qed.

(** X29. The token is made for whatever identity and room the body names: the
    handler does not compare the identity with the caller, so any
    signed-in user obtains a token to join any room under any identity,
    with the rights to publish, subscribe and publish data. The display
    name is the one given, else the caller's, else "Anonymous", and is
    never empty; the token is signed with a key and a secret that are
    never empty. *)
Theorem livekit_token_for_any_identity env user fields :
  truthy (field "roomName" fields) = true ->
  truthy (field "participantIdentity" fields) = true ->
  exists token wsUrl,
    POST env (mkRequest (Some user) (Some (BodyObject fields)))
    = json (TokenBody token wsUrl) 200
    /\ identity token = field "participantIdentity" fields
    /\ video token = Some (mkGrant (field "roomName" fields) true true true true)
    /\ name token
       = (if truthy (field "participantName" fields)
          then field "participantName" fields
          else match Route.user_name user with
               | Some n => if String.eqb n "" then Some (JString "Anonymous")
                           else Some (JString n)
               | None => Some (JString "Anonymous")
               end)
    /\ truthy (name token) = true
    /\ apiKey token <> "" /\ apiSecret token <> ""
    /\ wsUrl <> "".
Proof.
  intros Hr Hi. unfold POST. simpl. rewrite Hr, Hi. simpl.
  do 2 eexists. split; [reflexivity|]. simpl.
  split; [reflexivity|]. split; [reflexivity|].
  assert (Hname : orElse (field "participantName" fields)
                    (orElse (JString <$> Route.user_name user)
                       (Some (JString "Anonymous")))
                  = (if truthy (field "participantName" fields)
                     then field "participantName" fields
                     else match Route.user_name user with
                          | Some n => if String.eqb n ""
                                      then Some (JString "Anonymous")
                                      else Some (JString n)
                          | None => Some (JString "Anonymous")
                          end)).
  { unfold orElse. destruct (truthy (field "participantName" fields));
      [reflexivity|].
    destruct (Route.user_name user) as [n|]; simpl; [|reflexivity].
    destruct (String.eqb n ""); reflexivity. }
  split; [exact Hname|]. rewrite Hname. split.
  - destruct (truthy (field "participantName" fields)) eqn:Hn; [exact Hn|].
    destruct (Route.user_name user) as [n|]; [|reflexivity].
    destruct (String.eqb n "") eqn:Hempty; [reflexivity|].
    simpl. now rewrite Hempty.
  - repeat split; apply orDefault_not_empty; discriminate.
Qed.

Lemma livekit_token_for_any_identity_witness :
  exists token wsUrl,
    POST (mkEnv None None None)
      (mkRequest (Some demoUser)
         (Some (BodyObject [("roomName", JString "studio9");
                            ("participantIdentity", JString "someone-else")])))
    = json (TokenBody token wsUrl) 200
    /\ identity token = Some (JString "someone-else")
    /\ name token = Some (JString "Ann")
    /\ apiKey token = "devkey".
Proof.
  destruct (livekit_token_for_any_identity (mkEnv None None None) demoUser
              [("roomName", JString "studio9");
               ("participantIdentity", JString "someone-else")]
              eq_refl eq_refl)
    as (token & wsUrl & Hresp & Hid & _ & Hname & _).
  exists token, wsUrl. split; [exact Hresp|]. split; [exact Hid|].
  split; [exact Hname|]. now injection Hresp as <- _.
Defined.

End LiveKitToken.

(** ** The ledger against the bucket *)

Section LedgerAndBucket.

Import Recorder.

Implicit Types (s : Service) (st : Route.Server).

Lemma objectName_index_injective sid pid (i j : Z) :
  0 <= i -> 0 <= j ->
  Minio.objectName sid pid (JS.Int i) = Minio.objectName sid pid (JS.Int j) ->
  i = j.
Proof.
  intros Hi Hj Heq. rewrite !objectName_prefix in Heq.
  assert (Hcancel : forall p a b : string, p +:+ a = p +:+ b -> a = b).
  { clear. induction p as [|c p IH]; simpl; intros a b H; [exact H|].
    injection H as H. now apply IH. }
  apply Hcancel in Heq. apply (Hcancel "chunk-") in Heq.
  apply (padded_index_injective i j "webm" Hi Hj). exact Heq.
Qed.

Lemma totalBytes_nonneg chunks : 0 <= totalBytes chunks.
Proof. induction chunks as [|c chunks IH]; simpl; lia. Qed.

(** The chunks of one participant served in order: the ledger grows by
    their total, every chunk is in the bucket under the name of its index
    unless a later chunk has the same name, and no other name is
    touched. *)
Lemma ingest_chunks env user s chunks : forall st,
  studioId s <> "" -> participantId s <> "" ->
  studioId s ∈ Route.studios st ->
  participantId s ∈ Route.users st ->
  Route.minioUp env = true ->
  default 0 (accumulatedSize (studioId s) (participantId s) st)
  + totalBytes chunks <= Route.BIGINT_MAX ->
  let key (c : Z * list byte) :=
    Minio.objectName (studioId s) (participantId s) (JS.Int (fst c)) in
  let '(st', answers) := ingest (chunkRequest env user s <$> chunks) st in
  Forall (fun resp => Route.responseStatus resp = 200%nat) answers
  /\ (chunks <> [] ->
      accumulatedSize (studioId s) (participantId s) st'
      = Some (default 0 (accumulatedSize (studioId s) (participantId s) st)
              + totalBytes chunks))
  /\ (forall name, name ∉ key <$> chunks ->
        Route.bucket st' !! name = Route.bucket st !! name)
  /\ (NoDup (key <$> chunks) ->
      forall c, c ∈ chunks ->
        Route.bucket st' !! key c = Some (Minio.mkObject (snd c) "video/webm")).
Proof.
  induction chunks as [|c chunks IH]; intros st Hs Hp Hstudio Huser Hup Hfit key.
  - simpl. split; [constructor|]. split; [congruence|]. split; [reflexivity|].
    intros _ c Hc. now apply elem_of_nil in Hc.
  - rewrite fmap_cons. cbn [ingest chunkRequest].
    cbn [totalBytes foldr] in Hfit. fold (totalBytes chunks) in Hfit.
    pose proof (totalBytes_nonneg chunks) as Hnn.
    pose proof (uploadForm_uploadOf s (snd c) (fst c) Hs Hp) as Hu.
    destruct (POST_upload_effect env user _ _ _ _ st Hu Hstudio Hup)
      as (Hok & Hst & Hus & Hb & Hacc).
    { unfold ledgerAdmits. unfold accumulatedSize in Hfit.
      destruct (Route.recordings st !! _); simpl in Hfit; [lia|].
      split; [exact Huser|lia]. }
    assert (Hidx : JS.parseInt (Route.ToString
                      (Route.get "chunkIndex" (uploadForm s (snd c) (fst c))))
                   = JS.Int (fst c)) by apply parseInt_Z_toString.
    rewrite Hidx in Hb. fold (key c) in Hb.
    destruct (Route.POST env _ st) as [st1 resp]. simpl in Hok, Hst, Hus, Hb, Hacc.
    specialize (IH st1 Hs Hp).
    assert (Hacc1 : accumulatedSize (studioId s) (participantId s) st1
                    = Some (default 0 (accumulatedSize (studioId s)
                                         (participantId s) st)
                            + Z.of_nat (length (snd c)))).
    { rewrite Hacc. destruct (decide _) as [|Hne]; [reflexivity|].
      now contradiction Hne. }
    destruct (ingest (chunkRequest env user s <$> chunks) st1)
      as [st' answers] eqn:Hing.
    destruct IH as (Hall & Hsize & Hother & Hown).
    { now rewrite Hst. } { now rewrite Hus. } { exact Hup. }
    { rewrite Hacc1. simpl. lia. }
    split; [constructor; assumption|]. split; [|split].
    + intros _. cbn [totalBytes foldr]. fold (totalBytes chunks).
      destruct chunks as [|c' chunks'].
      * simpl in Hing. injection Hing as <- _. rewrite Hacc1.
        simpl; f_equal; lia.
      * rewrite Hsize by discriminate. rewrite Hacc1. simpl; f_equal; lia.
    + intros name Hname. rewrite fmap_cons, not_elem_of_cons in Hname.
      destruct Hname as [Hne Hname]. rewrite (Hother name Hname), Hb.
      now rewrite lookup_insert_ne.
    + rewrite fmap_cons. intros Hnd c' Hc'.
      apply NoDup_cons in Hnd as [Hfresh Hnd].
      apply elem_of_cons in Hc' as [->|Hc'].
      * rewrite (Hother (key c) Hfresh), Hb. apply lookup_insert_eq.
      * now apply Hown.
Qed.

Lemma storedBytes_perm (bucket : gmap string Minio.StoredObject)
    (l l' : list string) :
  l ≡ₚ l' ->
  foldr (fun name total =>
           total + match bucket !! name with
                   | Some obj => Z.of_nat (length (Minio.body obj))
                   | None => 0
                   end) 0 l
  = foldr (fun name total =>
             total + match bucket !! name with
                     | Some obj => Z.of_nat (length (Minio.body obj))
                     | None => 0
                     end) 0 l'.
Proof.
  induction 1 as [|x l l' _ IH|x y l|l l' l'' _ IH1 _ IH2]; simpl;
    [reflexivity|now rewrite IH|lia|congruence].
Qed.

(** X30. When the chunks of a recording arrive under indices that are all
    different, safe integers from 0 up, the ledger and the bucket agree:
    for a participant with no
    row and nothing stored yet, after the chunks have been served (in any
    order of indices) every request has been answered 200, [listChunks]
    names as many objects as chunks were sent, and the size in the ledger
    is the number of bytes kept under the participant's prefix, the sum
    of the chunk lengths. *)
Theorem ledger_matches_stored_bytes env user s chunks st :
  studioId s <> "" -> participantId s <> "" ->
  studioId s ∈ Route.studios st ->
  participantId s ∈ Route.users st ->
  Route.minioUp env = true ->
  Route.recordings st !! (studioId s, participantId s) = None ->
  Minio.listChunks (studioId s) (participantId s) (Route.bucket st) = [] ->
  NoDup (fst <$> chunks) ->
  Forall (fun c => 0 <= fst c <= MAX_SAFE_INTEGER) chunks ->
  chunks <> [] ->
  totalBytes chunks <= Route.BIGINT_MAX ->
  let '(st', answers) := ingest (chunkRequest env user s <$> chunks) st in
  Forall (fun resp => Route.responseStatus resp = 200%nat) answers
  /\ length (Minio.listChunks (studioId s) (participantId s) (Route.bucket st'))
     = length chunks
  /\ accumulatedSize (studioId s) (participantId s) st'
     = Some (totalBytes chunks)
  /\ storedBytes (studioId s) (participantId s) (Route.bucket st')
     = totalBytes chunks.
Proof.
  intros Hs Hp Hstudio Huser Hup Hfresh Hempty Hnd Hpos Hne Hfit.
  set (key := fun c : Z * list byte =>
                Minio.objectName (studioId s) (participantId s)
                  (JS.Int (fst c))).
  assert (Hkeys : NoDup (key <$> chunks)).
  { replace (key <$> chunks)
      with ((fun i => Minio.objectName (studioId s) (participantId s)
                        (JS.Int i)) <$> (fst <$> chunks))
      by (rewrite <- list_fmap_compose; reflexivity).
    apply NoDup_fmap_2_strong; [|exact Hnd].
    intros i j Hi Hj Heq. rewrite Forall_forall in Hpos.
    apply list_elem_of_fmap in Hi as (ci & -> & Hci).
    apply list_elem_of_fmap in Hj as (cj & -> & Hcj).
    apply (objectName_index_injective (studioId s) (participantId s));
      [apply (Hpos ci Hci)|apply (Hpos cj Hcj)|exact Heq]. }
  pose proof (ingest_chunks env user s chunks st Hs Hp Hstudio Huser Hup) as H.
  cbv zeta in H. fold key in H.
  assert (Hbase : accumulatedSize (studioId s) (participantId s) st = None)
    by (unfold accumulatedSize; now rewrite Hfresh).
  rewrite Hbase in H. simpl in H.
  destruct (ingest (chunkRequest env user s <$> chunks) st) as [st' answers].
  destruct (H Hfit) as (Hall & Hsize & Hother & Hown).
  specialize (Hown Hkeys).
  assert (Hperm : Minio.listChunks (studioId s) (participantId s)
                    (Route.bucket st') ≡ₚ key <$> chunks).
  { apply NoDup_Permutation; [|exact Hkeys|].
    - unfold Minio.listChunks. rewrite sort_perm.
      apply NoDup_filter, NoDup_fst_map_to_list.
    - intros name. rewrite listChunks_elem. split.
      + intros [Hsome Hpre].
        destruct (decide (name ∈ key <$> chunks)) as [|Hout]; [assumption|].
        rewrite (Hother name Hout) in Hsome.
        assert (Hin : name ∈ Minio.listChunks (studioId s) (participantId s)
                              (Route.bucket st))
          by (apply listChunks_elem; now split).
        rewrite Hempty in Hin. now apply elem_of_nil in Hin.
      + intros Hin. apply list_elem_of_fmap in Hin as (c & -> & Hc).
        split; [rewrite (Hown c Hc); eauto|apply objectName_under_prefix]. }
  split; [exact Hall|]. split; [|split].
  - rewrite Hperm. apply length_fmap.
  - rewrite (Hsize Hne). reflexivity.
  - unfold storedBytes. rewrite (storedBytes_perm _ _ _ Hperm).
    clear -Hown. induction chunks as [|c chunks IH]; [reflexivity|].
    rewrite fmap_cons. cbn [foldr totalBytes].
    rewrite (Hown c) by left. simpl. fold (totalBytes chunks).
    rewrite IH; [reflexivity|].
    intros c' Hc'. apply Hown. now right.
Qed.

Lemma ledger_matches_stored_bytes_witness :
  let '(st', answers) :=
    ingest (chunkRequest demoEnv demoUser (service demoRuntime)
              <$> [(1, [x01; x02]); (0, [x03]); (2, [x04; x05; x06])])
      demoServer in
  accumulatedSize "studio1" "user1" st' = Some 6
  /\ storedBytes "studio1" "user1" (Route.bucket st') = 6.
Proof.
  pose proof (ledger_matches_stored_bytes demoEnv demoUser (service demoRuntime)
                [(1, [x01; x02]); (0, [x03]); (2, [x04; x05; x06])]
                demoServer) as H.
  destruct (ingest _ demoServer) as [st' answers].
  destruct H as (_ & _ & Hsize & Hbytes).
  - discriminate.
  - discriminate.
  - vm_compute. set_solver.
  - vm_compute. set_solver.
  - reflexivity.
  - reflexivity.
  - reflexivity.
  - compute_done.
  - repeat constructor; unfold MAX_SAFE_INTEGER; simpl; lia.
  - discriminate.
  - vm_compute. discriminate.
  - split; [exact Hsize|exact Hbytes].
Defined.

End LedgerAndBucket.
